(** * PyGeM: free form deformation (FFD) and its volume-constrained variant (VFFD)

    A shallow embedding of [pygem/ffd.py] and [pygem/vffd.py].

    Numbers.  The Python code computes with IEEE doubles inside numpy
    arrays.  The embedding idealises them as exact rationals ([Qc], the
    canonical rationals of the Standard Library, with Leibniz equality), so
    every statement below is a statement about the exact-arithmetic reading
    of the code: rounding, NaN and overflow are out of its reach.

    Arrays.  A numpy array of points (shape [(n, 3)]) is a list of [Point3]
    rows; a basis matrix (shape [(n, d)]) is a list of rows; a column
    operation such as [B[:, i] = v] is an update of entry [i] of every row.
    A three-dimensional displacement array carries its shape and its
    row-major data, and indexing outside the shape fails as [IndexError]
    does ([None]).

    Collaborators.  [pygem.affine_trans.affine_points_fit], [self.ffd] and
    the corrector [CFFD.__call__] are not among the sources: the code is
    embedded with each of them as a parameter, and a model of each, after
    the design, serves to run the code on examples.

    Plan.  The modules [Num], [FFD], [AffineTrans], [VFFD] and [Store] hold
    the definitions: [FFD.perform] and [VFFD.call] on values, and
    [Store.perform_st], the same [perform] on a store of array objects,
    where in-place writes and allocations show.  The modules after them
    hold the proofs; [FFDTheorems], [VFFDTheorems] and [StoreTheorems]
    state the properties of the design, and [Examples] runs the code on a
    box of side 2.  [Grid] and [Mesh] add vocabulary for further
    properties of the code: when it raises, what it does on edge cases and
    how its results compose; [FFDProperties], [VFFDProperties] and
    [StoreProperties] state them, and [MoreExamples] runs them. *)

From Stdlib Require Import QArith Qcanon ZArith.
From stdpp Require Import base numbers list option.

Local Open Scope Qc_scope.

(** ** Numeric helpers *)

Module Num.

(** [x < y] and [x > y] on floats, as booleans. *)
Definition Qcltb (x y : Qc) : bool :=
  match x ?= y with Lt => true | _ => false end.
Definition Qcgtb (x y : Qc) : bool := Qcltb y x.

(** [np.abs] on one entry. *)
Definition Qcabs (x : Qc) : Qc := if Qcltb x 0 then - x else x.

(** [np.sum] of a vector. *)
Definition Qcsum (l : list Qc) : Qc := foldr Qcplus 0 l.

(** The binomial coefficient on naturals (Pascal's rule), and
    [scipy.special.binom(n, k)] for the integer arguments the code passes. *)
Fixpoint choose (n k : nat) : nat :=
  match k, n with
  | O, _ => 1%nat
  | S _, O => 0%nat
  | S k', S n' => (choose n' k' + choose n' k)%nat
  end.

Definition binom (n k : nat) : Qc := Qc_of_Z (Z.of_nat (choose n k)).

(** One term of the binomial expansion of [(a + b) ^ n]. *)
Definition binomial_term (a b : Qc) (n i : nat) : Qc :=
  binom n i * (a ^ (n - i) * b ^ i).

End Num.
Export Num.

(** ** The lattice deformer, [pygem/ffd.py] *)

Module FFD.

(** A row of an [(n, 3)] array. *)
Record Point3 := P3 { px : Qc; py : Qc; pz : Qc }.

Abbreviation PointCloud := (list Point3).

Definition pzero : Point3 := P3 0 0 0.
Definition padd (a b : Point3) : Point3 :=
  P3 (px a + px b) (py a + py b) (pz a + pz b).
Definition psub (a b : Point3) : Point3 :=
  P3 (px a - px b) (py a - py b) (pz a - pz b).

#[global] Instance Point3_inhabited : Inhabited Point3 := populate pzero.
#[global] Instance Qc_inhabited : Inhabited Qc := populate 0.
#[global] Instance Point3_eq_dec : EqDecision Point3.
Proof. solve_decision. Defined.

(** A numpy array of shape [(n, m, t)], stored row-major. *)
Record array3 := Array3 { shape3 : nat * nat * nat; data3 : list Qc }.

(** [a[i, j, k]] for non-negative indices; [IndexError] is [None]. *)
Definition get3 (a : array3) (i j k : nat) : option Qc :=
  let '(n, m, t) := shape3 a in
  if (i <? n)%nat && (j <? m)%nat && (k <? t)%nat
  then data3 a !! (i * (m * t) + j * t + k)%nat
  else None.

(** The attributes of [self.parameters] that [perform] reads. *)
Record FFDParameters := {
  origin_box : Point3;
  position_vertex_1 : Point3;
  position_vertex_2 : Point3;
  position_vertex_3 : Point3;
  array_mu_x : array3;
  array_mu_y : array3;
  array_mu_z : array3
}.

#[global] Instance array3_eq_dec : EqDecision array3.
Proof. solve_decision. Defined.
#[global] Instance FFDParameters_eq_dec : EqDecision FFDParameters.
Proof. solve_decision. Defined.

(** A two-dimensional array of shape [(n, d)], as its list of rows. *)
Abbreviation matrix := (list (list Qc)).

(** [np.zeros((r, c))], [M[:, i]] and [M[:, i] = v].  The code reads and
    writes columns below the width of the matrix only, and its vectors have
    one entry per row: the default of [!!!] and the truncation of
    [zip_with] are never met. *)
Definition zeros (r c : nat) : matrix := replicate r (replicate c 0).
Definition get_col (M : matrix) (i : nat) : list Qc :=
  (fun row => row !!! i) <$> M.
Definition set_col (M : matrix) (i : nat) (v : list Qc) : matrix :=
  zip_with (fun row x => <[i := x]> row) M v.

(** [np.power(v, e)], [1 - v], [np.multiply(u, v)] and [c * v]. *)
Definition vpower (v : list Qc) (e : nat) : list Qc := (fun x => x ^ e) <$> v.
Definition one_minus (v : list Qc) : list Qc := (fun x => 1 - x) <$> v.
Definition vmul (u v : list Qc) : list Qc := zip_with Qcmult u v.
Definition vscale_l (c : Qc) (v : list Qc) : list Qc := (fun x => c * x) <$> v.
Definition vscale_r (v : list Qc) (c : Qc) : list Qc := (fun x => x * c) <$> v.

(** [shift[:, 0] += v], [shift[:, 1] += v], [shift[:, 2] += v]. *)
Definition add_col_x (shift : PointCloud) (v : list Qc) : PointCloud :=
  zip_with (fun p a => P3 (px p + a) (py p) (pz p)) shift v.
Definition add_col_y (shift : PointCloud) (v : list Qc) : PointCloud :=
  zip_with (fun p a => P3 (px p) (py p + a) (pz p)) shift v.
Definition add_col_z (shift : PointCloud) (v : list Qc) : PointCloud :=
  zip_with (fun p a => P3 (px p) (py p) (pz p + a)) shift v.

(** [for i in range(0, n): s = body(i, s)], where the body may raise. *)
Fixpoint for_loop {S : Type} (body : nat -> S -> option S)
    (range : list nat) (s : S) : option S :=
  match range with
  | [] => Some s
  | i :: range' => s' ← body i s; for_loop body range' s'
  end.
Definition for_range {S : Type} (n : nat) (body : nat -> S -> option S)
    (s : S) : option S :=
  for_loop body (seq 0 n) s.

(** [FFD._transform_points], lines 84-95. *)
Definition _transform_points (original_points : PointCloud)
    (transformation : Point3 -> Point3) : PointCloud :=
  let n_rows_mesh := length original_points in
  let modified_points := replicate n_rows_mesh pzero in
  fold_left
    (fun modified_points i =>
       let single_point := original_points !!! i in
       <[i := transformation single_point]> modified_points)
    (seq 0 n_rows_mesh) modified_points.

(** One of the three basis loops, lines 47-50, 52-55 and 57-60: they
    differ only in the column of the reference points and in the grid
    size. [coords] is [reference_frame_mesh_points[:, a]]. *)
Definition bernstein_loop (dim : nat) (coords : list Qc)
    (bernstein : matrix) : matrix :=
  fold_left
    (fun bernstein i =>
       let aux1 := vpower (one_minus coords) (dim - 1 - i) in
       let aux2 := vpower coords i in
       set_col bernstein i (vscale_l (binom (dim - 1) i) (vmul aux1 aux2)))
    (seq 0 dim) bernstein.

(** The accumulation loops, lines 62-71. *)
Definition accumulate_shift (parameters : FFDParameters)
    (bernstein_x bernstein_y bernstein_z : matrix)
    (shift_mesh_points : PointCloud) : option PointCloud :=
  let '(dim_n_mu, dim_m_mu, dim_t_mu) := shape3 (array_mu_x parameters) in
  for_range dim_n_mu (fun i =>
    for_range dim_m_mu (fun j =>
      for_range dim_t_mu (fun k shift_mesh_points =>
        let aux := vmul (get_col bernstein_x i)
                        (vmul (get_col bernstein_y j) (get_col bernstein_z k)) in
        mu_x ← get3 (array_mu_x parameters) i j k;
        let aux_x := vscale_r aux mu_x in
        mu_y ← get3 (array_mu_y parameters) i j k;
        let aux_y := vscale_r aux mu_y in
        mu_z ← get3 (array_mu_z parameters) i j k;
        let aux_z := vscale_r aux mu_z in
        Some (add_col_z (add_col_y (add_col_x shift_mesh_points aux_x) aux_y) aux_z))))
    shift_mesh_points.

(** The test of lines 75-77 on one row of the reference points. *)
Definition outside (r : Point3) : bool :=
  Qcltb (px r) 0 || Qcltb (py r) 0 || Qcltb (pz r) 0
  || Qcgtb (px r) 1 || Qcgtb (py r) 1 || Qcgtb (pz r) 1.

(** The containment loop, lines 74-78. *)
Definition mask_outside (n_rows_mesh : nat)
    (reference_frame_mesh_points shift_mesh_points : PointCloud) : PointCloud :=
  fold_left
    (fun shift_mesh_points i =>
       if outside (reference_frame_mesh_points !!! i)
       then <[i := pzero]> shift_mesh_points
       else shift_mesh_points)
    (seq 0 n_rows_mesh) shift_mesh_points.

(** [array1 + array2] on two [(n, 3)] arrays, and [array + row]. *)
Definition cloud_add (a b : PointCloud) : PointCloud := zip_with padd a b.
Definition cloud_translate (a : PointCloud) (t : Point3) : PointCloud :=
  (fun p => padd p t) <$> a.
Definition cloud_untranslate (a : PointCloud) (t : Point3) : PointCloud :=
  (fun p => psub p t) <$> a.

Definition reference_frame : list Point3 :=
  [P3 1 0 0; P3 0 1 0; P3 0 0 1; P3 0 0 0].

Definition fisical_frame (parameters : FFDParameters) : list Point3 :=
  let translation := origin_box parameters in
  [psub (position_vertex_1 parameters) translation;
   psub (position_vertex_2 parameters) translation;
   psub (position_vertex_3 parameters) translation;
   P3 0 0 0].

Section Perform.

(** [pygem.affine_trans.affine_points_fit] is not part of the sources at
    hand: it is a parameter here.  It returns a callable, or raises when
    the points are degenerate. *)
Variable affine_points_fit :
  list Point3 -> list Point3 -> option (Point3 -> Point3).

(** [FFD.perform], lines 19-81. *)
Definition perform (parameters : FFDParameters)
    (original_mesh_points : PointCloud) : option PointCloud :=
  let n_rows_mesh := length original_mesh_points in
  let translation := origin_box parameters in
  transformation ← affine_points_fit (fisical_frame parameters) reference_frame;
  inverse_transformation ← affine_points_fit reference_frame (fisical_frame parameters);
  let '(dim_n_mu, dim_m_mu, dim_t_mu) := shape3 (array_mu_x parameters) in
  let bernstein_x := zeros n_rows_mesh dim_n_mu in
  let bernstein_y := zeros n_rows_mesh dim_m_mu in
  let bernstein_z := zeros n_rows_mesh dim_t_mu in
  let shift_mesh_points := replicate n_rows_mesh pzero in
  let reference_frame_mesh_points :=
    _transform_points (cloud_untranslate original_mesh_points translation)
                      transformation in
  let bernstein_x :=
    bernstein_loop dim_n_mu (px <$> reference_frame_mesh_points) bernstein_x in
  let bernstein_y :=
    bernstein_loop dim_m_mu (py <$> reference_frame_mesh_points) bernstein_y in
  let bernstein_z :=
    bernstein_loop dim_t_mu (pz <$> reference_frame_mesh_points) bernstein_z in
  shift_mesh_points ←
    accumulate_shift parameters bernstein_x bernstein_y bernstein_z
                     shift_mesh_points;
  let shift_mesh_points :=
    mask_outside n_rows_mesh reference_frame_mesh_points shift_mesh_points in
  Some (cloud_translate
          (_transform_points
             (cloud_add shift_mesh_points reference_frame_mesh_points)
             inverse_transformation)
          translation).

End Perform.

(** *** The deformation of one point, in the words of the design *)

(** The Bernstein basis polynomial of degree [d - 1]:
    [C(d-1, i) * (1 - t)^(d-1-i) * t^i]. *)
Definition bernstein_poly (d i : nat) (t : Qc) : Qc :=
  binom (d - 1) i * (1 - t) ^ (d - 1 - i) * t ^ i.

(** [a[i, j, k]] where the index is known to be in range. *)
Definition mu_entry (a : array3) (i j k : nat) : Qc :=
  default 0 (get3 a i j k).

(** The trivariate tensor-product sum over the control indices [(i, j, k)]
    of [B_x[i] * B_y[j] * B_z[k] * displacement[i, j, k]], at the point of
    reference coordinates [r]. *)
Definition tensor_sum (dims : nat * nat * nat) (a : array3) (r : Point3) : Qc :=
  let '(n, m, t) := dims in
  Qcsum ((fun i =>
    Qcsum ((fun j =>
      Qcsum ((fun k =>
        bernstein_poly n i (px r) * bernstein_poly m j (py r)
        * bernstein_poly t k (pz r) * mu_entry a i j k) <$> seq 0 t))
      <$> seq 0 m))
    <$> seq 0 n).

Definition bernstein_shift (parameters : FFDParameters) (r : Point3) : Point3 :=
  let dims := shape3 (array_mu_x parameters) in
  P3 (tensor_sum dims (array_mu_x parameters) r)
     (tensor_sum dims (array_mu_y parameters) r)
     (tensor_sum dims (array_mu_z parameters) r).

(** Steps 2, 5 and 6 of the design around that sum: into the reference
    frame, the shift unless the point is outside the box, and back. *)
Definition deform_point (transformation inverse_transformation : Point3 -> Point3)
    (parameters : FFDParameters) (p : Point3) : Point3 :=
  let translation := origin_box parameters in
  let r := transformation (psub p translation) in
  let shift := if outside r then pzero else bernstein_shift parameters r in
  padd (inverse_transformation (padd shift r)) translation.

(** What numpy guarantees of an array (as many entries as its shape says)
    and what the data model asks of the three displacement arrays (one
    shape). *)
Definition wf_array3 (a : array3) : Prop :=
  let '(n, m, t) := shape3 a in length (data3 a) = (n * m * t)%nat.

Definition wf_parameters (parameters : FFDParameters) : Prop :=
  wf_array3 (array_mu_x parameters)
  /\ wf_array3 (array_mu_y parameters)
  /\ wf_array3 (array_mu_z parameters)
  /\ shape3 (array_mu_y parameters) = shape3 (array_mu_x parameters)
  /\ shape3 (array_mu_z parameters) = shape3 (array_mu_x parameters).

(** *** Intermediate forms of the loops *)

(** The value lines 48-50 put in row [p] of column [i], from the
    reference coordinate [r] of point [p]. *)
Definition basis_entry (dim i : nat) (r : Qc) : Qc :=
  binom (dim - 1) i * ((1 - r) ^ (dim - 1 - i) * r ^ i).

(** One iteration of the innermost loop, lines 65-71, once the three
    entries have been read. *)
Definition accumulate_step (parameters : FFDParameters)
    (bernstein_x bernstein_y bernstein_z : matrix) (i j k : nat)
    (shift_mesh_points : PointCloud) : PointCloud :=
  let aux := vmul (get_col bernstein_x i)
                  (vmul (get_col bernstein_y j) (get_col bernstein_z k)) in
  add_col_z
    (add_col_y
       (add_col_x shift_mesh_points
          (vscale_r aux (mu_entry (array_mu_x parameters) i j k)))
       (vscale_r aux (mu_entry (array_mu_y parameters) i j k)))
    (vscale_r aux (mu_entry (array_mu_z parameters) i j k)).

Definition accumulate_pure (parameters : FFDParameters)
    (bernstein_x bernstein_y bernstein_z : matrix)
    (shift_mesh_points : PointCloud) : PointCloud :=
  let '(dim_n_mu, dim_m_mu, dim_t_mu) := shape3 (array_mu_x parameters) in
  fold_left (fun shift i =>
    fold_left (fun shift j =>
      fold_left (fun shift k =>
        accumulate_step parameters bernstein_x bernstein_y bernstein_z i j k shift)
        (seq 0 dim_t_mu) shift)
      (seq 0 dim_m_mu) shift)
    (seq 0 dim_n_mu) shift_mesh_points.

(** The same iteration on the row of one point, whose rows in the three
    basis matrices are [rx], [ry] and [rz]. *)
Definition point_step (parameters : FFDParameters) (rx ry rz : list Qc)
    (i j k : nat) (s : Point3) : Point3 :=
  let aux := rx !!! i * (ry !!! j * rz !!! k) in
  P3 (px s + aux * mu_entry (array_mu_x parameters) i j k)
     (py s + aux * mu_entry (array_mu_y parameters) i j k)
     (pz s + aux * mu_entry (array_mu_z parameters) i j k).

Definition point_term (a : array3) (rx ry rz : list Qc) (i j k : nat) : Qc :=
  rx !!! i * (ry !!! j * rz !!! k) * mu_entry a i j k.

Definition rows_sum (a : array3) (rx ry rz : list Qc) (n m t : nat) : Qc :=
  Qcsum ((fun i => Qcsum ((fun j => Qcsum ((fun k =>
    point_term a rx ry rz i j k) <$> seq 0 t)) <$> seq 0 m)) <$> seq 0 n).

End FFD.


(** ** The affine fit, [pygem/affine_trans.py] *)

Module AffineTrans.
Import FFD.

Definition det3 (a b c : Point3) : Qc :=
  px a * (py b * pz c - pz b * py c)
  - py a * (px b * pz c - pz b * px c)
  + pz a * (px b * py c - py b * px c).

Definition pscale (c : Qc) (a : Point3) : Point3 :=
  P3 (c * px a) (c * py a) (c * pz a).

(** The affine map that sends [a4 + u1], [a4 + u2], [a4 + u3], [a4] to
    [b4 + v1], [b4 + v2], [b4 + v3], [b4]: the coordinates of [x - a4] in
    the basis [u1, u2, u3] by Cramer's rule, then the same combination of
    [v1, v2, v3]. *)
Definition affine_map (u1 u2 u3 a4 v1 v2 v3 b4 : Point3) (x : Point3) : Point3 :=
  let d := det3 u1 u2 u3 in
  let x' := psub x a4 in
  padd (padd (padd (pscale (det3 x' u2 u3 / d) v1)
                   (pscale (det3 u1 x' u3 / d) v2))
             (pscale (det3 u1 u2 x' / d) v3))
       b4.

(** Modelled from the spec: [affine_points_fit] of [pygem/affine_trans.py],
    which is not among the sources.  The design asks of it: from two
    corresponding sets of four points, a callable affine map sending the
    first set to the second; an error when the four starting points are
    affinely dependent. *)
Definition affine_points_fit (points_start points_end : list Point3)
    : option (Point3 -> Point3) :=
  match points_start, points_end with
  | [a1; a2; a3; a4], [b1; b2; b3; b4] =>
      let u1 := psub a1 a4 in
      let u2 := psub a2 a4 in
      let u3 := psub a3 a4 in
      if decide (det3 u1 u2 u3 = 0) then None
      else Some (affine_map u1 u2 u3 a4
                            (psub b1 b4) (psub b2 b4) (psub b3 b4) b4)
  | _, _ => None
  end.

End AffineTrans.

(** ** The volume-constrained deformer, [pygem/vffd.py] *)

Module VFFD.
Import FFD.

(** The attributes of a [VFFD] object that [__call__] reads or writes.
    [parameters] stands for the displacement arrays the deformer reads;
    [triangles] is an integer array of shape [(T, 3)]. *)
Record VFFD := mkVFFD {
  triangles : list (Z * Z * Z);
  vweight : list Qc;
  indices : list Z;
  M : matrix;
  fixval : Qc;
  parameters : FFDParameters
}.

#[global] Instance VFFD_eq_dec : EqDecision VFFD.
Proof. solve_decision. Defined.

Definition set_vweight (self : VFFD) (v : list Qc) : VFFD :=
  mkVFFD (triangles self) v (indices self) (M self) (fixval self) (parameters self).
Definition set_indices (self : VFFD) (v : list Z) : VFFD :=
  mkVFFD (triangles self) (vweight self) v (M self) (fixval self) (parameters self).
Definition set_M (self : VFFD) (v : matrix) : VFFD :=
  mkVFFD (triangles self) (vweight self) (indices self) v (fixval self) (parameters self).
Definition set_fixval (self : VFFD) (v : Qc) : VFFD :=
  mkVFFD (triangles self) (vweight self) (indices self) (M self) v (parameters self).
Definition set_parameters (self : VFFD) (v : FFDParameters) : VFFD :=
  mkVFFD (triangles self) (vweight self) (indices self) (M self) (fixval self) v.

(** [x[i]] for a Python integer [i]: negative indices count from the end,
    and an index out of range raises. *)
Definition py_index {A : Type} (x : list A) (i : Z) : option A :=
  if (0 <=? i)%Z then x !! Z.to_nat i
  else if (- Z.of_nat (length x) <=? i)%Z
       then x !! Z.to_nat (Z.of_nat (length x) + i)
       else None.

(** [np.linalg.det] of the 3x3 matrix of rows [a], [b], [c]. *)
Definition det (a b c : Point3) : Qc :=
  px a * (py b * pz c - pz b * py c)
  - py a * (px b * pz c - pz b * px c)
  + pz a * (px b * py c - py b * px c).

(** [volume], lines 67-70, of an [(n, 3)] array [x]. *)
Definition volume (triangles : list (Z * Z * Z)) (x : PointCloud) : option Qc :=
  mesh ← mapM (fun t : Z * Z * Z =>
                 let '(a, b, c) := t in
                 pa ← py_index x a;
                 pb ← py_index x b;
                 pc ← py_index x c;
                 Some (pa, pb, pc)) triangles;
  Some (Qcsum ((fun t : Point3 * Point3 * Point3 =>
                  let '(pa, pb, pc) := t in det pa pb pc) <$> mesh)).

(** [np.eye(n)]. *)
Definition eye (n : nat) : matrix :=
  (fun i => (fun j => if decide (i = j) then 1 else 0) <$> seq 0 n) <$> seq 0 n.

(** [np.abs(v) / np.sum(np.abs(v))], line 75.  Division on [Qc] is
    total, with [x / 0 = 0], where numpy divides [0.] by [0.] and leaves
    NaN.  The rationals have no such value: the definition stands for
    line 75 where [Qcsum (Qcabs <$> v) <> 0] only, and every statement
    below on the weights, or on the targets computed from them, assumes
    it. *)
Definition normalize (v : list Qc) : list Qc :=
  let a := Qcabs <$> v in
  (fun x => x / Qcsum a) <$> a.

(** [indices[indices % 3 == c].tolist()]. *)
Definition channel (c : Z) (indices : list Z) : list Z :=
  filter (fun i => (i mod 3)%Z = c) indices.

Section Call.

(** [self.ffd], inherited from the base classes, which are not among the
    sources: the lattice deformer applied with the displacement arrays
    the object holds at the time of the call. *)
Variable ffd : FFDParameters -> PointCloud -> option PointCloud.

(** Modelled from the spec: [CFFD.__call__], the single-constraint
    corrector of [pygem/cffd.py], which is not among the sources.  The
    design asks of it: it reads the indices, the weight matrix and the
    target of the object, changes the shared displacement arrays and
    nothing else, and returns the resulting deformed points.  It gets
    the object as it stands at the call and returns the new
    displacement arrays with the points. *)
Variable CFFD_call : VFFD -> PointCloud -> option (FFDParameters * PointCloud).

(** [self.fun], set in [__init__], line 72. *)
Definition fun_ (self : VFFD) (x : PointCloud) : option Qc :=
  volume (triangles self) x.

(** [super().__call__(src_pts)], with its effect on the object. *)
Definition super_call (self : VFFD) (src_pts : PointCloud)
    : option (VFFD * PointCloud) :=
  r ← CFFD_call self src_pts;
  Some (set_parameters self r.1, r.2).

(** Lines 84-87: the object as the corrector of pass [i] finds it. *)
Definition axis_setup (indexes : list (list Z)) (diffvolume : Qc)
    (src_pts : PointCloud) (i : nat) (self : VFFD) : option VFFD :=
  indexes_i ← indexes !! i;
  let self := set_indices self indexes_i in
  let self := set_M self (eye (length (indices self))) in
  deformed ← ffd (parameters self) src_pts;
  current ← fun_ self deformed;
  vweight_i ← vweight self !! i;
  Some (set_fixval self (current + vweight_i * diffvolume)).

(** The body of the loop, lines 84-88. *)
Definition axis_pass (indexes : list (list Z)) (diffvolume : Qc)
    (src_pts : PointCloud) (i : nat) (self : VFFD) : option VFFD :=
  self ← axis_setup indexes diffvolume src_pts i self;
  r ← super_call self src_pts;
  Some r.1.

(** [VFFD.__call__] up to the end of the loop, lines 75-88: the object
    after the three passes. *)
Definition axis_passes (self : VFFD) (src_pts : PointCloud) : option VFFD :=
  let self := set_vweight self (normalize (vweight self)) in
  let indices_x := channel 0 (indices self) in
  let indices_y := channel 1 (indices self) in
  let indices_z := channel 2 (indices self) in
  let indexes := [indices_x; indices_y; indices_z] in
  deformed ← ffd (parameters self) src_pts;
  current ← fun_ self deformed;
  let diffvolume := fixval self - current in
  for_range 3 (axis_pass indexes diffvolume src_pts) self.

(** [VFFD.__call__], lines 74-91: the object at return and the points
    returned. *)
Definition call (self : VFFD) (src_pts : PointCloud)
    : option (VFFD * PointCloud) :=
  let indices_bak := indices self in
  self ← axis_passes self src_pts;
  r ← super_call self src_pts;
  let tmp := r.2 in
  let self := set_indices r.1 indices_bak in
  Some (self, tmp).

(** The three passes, unrolled: the objects [pre0], [pre1], [pre2] the
    corrector is called on and what it returns. *)
Definition pass_chain (indexes : list (list Z)) (diffvolume : Qc)
    (src_pts : PointCloud) (self pre0 pre1 pre2 self3 : VFFD)
    (r0 r1 r2 : FFDParameters * PointCloud) : Prop :=
  axis_setup indexes diffvolume src_pts 0 self = Some pre0
  /\ CFFD_call pre0 src_pts = Some r0
  /\ axis_setup indexes diffvolume src_pts 1 (set_parameters pre0 r0.1)
     = Some pre1
  /\ CFFD_call pre1 src_pts = Some r1
  /\ axis_setup indexes diffvolume src_pts 2 (set_parameters pre1 r1.1)
     = Some pre2
  /\ CFFD_call pre2 src_pts = Some r2
  /\ self3 = set_parameters pre2 r2.1.

(** What the design asks of the object the corrector finds in pass
    [i]: the indices of channel [i], the identity weight matrix of
    their number, and as target the volume of the deformed points at
    that moment plus the share [i] of [diffvolume]. *)
Definition axis_target (self : VFFD) (src_pts : PointCloud)
    (diffvolume : Qc) (i : nat) (pre : VFFD) : Prop :=
  triangles pre = triangles self
  /\ vweight pre = normalize (vweight self)
  /\ indices pre = channel (Z.of_nat i) (indices self)
  /\ M pre = eye (length (indices pre))
  /\ exists deformed current vweight_i,
      ffd (parameters pre) src_pts = Some deformed
      /\ volume (triangles self) deformed = Some current
      /\ normalize (vweight self) !! i = Some vweight_i
      /\ fixval pre = current + vweight_i * diffvolume.

End Call.

End VFFD.

(** ** The lattice deformer on a store of arrays

[perform] above works on values.  What the call does to the arrays it is
given (which it writes in place, which it allocates) is a matter of numpy
objects: here every array is an object in a store, a name bound to an array
is a location, arithmetic on arrays and [np.zeros] allocate a new object,
and [a[:, i] = v], [a[:, 0] += v] and [a[i, :] = 0] write in place into the
object named [a]. *)

Module Store.
Import FFD.

(** A numpy array, by its number of dimensions. *)
Inductive ndarray :=
| Points (a : PointCloud)
| Matrix (a : matrix)
| Vector (a : list Qc)
| Row (a : Point3)
| Cube (a : array3).

#[global] Instance ndarray_eq_dec : EqDecision ndarray.
Proof. solve_decision. Defined.

(** The store: location [l] is the [l]-th object allocated. *)
Abbreviation heap := (list ndarray).
Abbreviation loc := nat.

(** Computations on the store that may raise. *)
Definition ST (A : Type) : Type := heap -> option (A * heap).

Definition ret {A : Type} (a : A) : ST A := fun h => Some (a, h).
Definition bind {A B : Type} (k : A -> ST B) (m : ST A) : ST B :=
  fun h => match m h with
           | Some (a, h') => k a h'
           | None => None
           end.
#[global] Instance ST_ret : MRet ST := @ret.
#[global] Instance ST_bind : MBind ST := @bind.
Definition lift {A : Type} (o : option A) : ST A :=
  fun h => match o with
           | Some a => Some (a, h)
           | None => None
           end.

(** A new array object. *)
Definition alloc (v : ndarray) : ST loc :=
  fun h => Some (length h, h ++ [v]).
(** Reading through a name. *)
Definition load (l : loc) : ST ndarray :=
  fun h => match h !! l with
           | Some v => Some (v, h)
           | None => None
           end.
(** Writing in place into the object of a name. *)
Definition store (l : loc) (v : ndarray) : ST unit :=
  fun h => if decide (l < length h)%nat then Some (tt, <[l := v]> h) else None.

Definition load_points (l : loc) : ST PointCloud :=
  v ← load l; match v with Points a => ret a | _ => lift None end.
Definition load_matrix (l : loc) : ST matrix :=
  v ← load l; match v with Matrix a => ret a | _ => lift None end.
Definition load_vector (l : loc) : ST (list Qc) :=
  v ← load l; match v with Vector a => ret a | _ => lift None end.
Definition load_row (l : loc) : ST Point3 :=
  v ← load l; match v with Row a => ret a | _ => lift None end.
Definition load_cube (l : loc) : ST array3 :=
  v ← load l; match v with Cube a => ret a | _ => lift None end.

(** [for i in range: body(i)]. *)
Fixpoint for_st (range : list nat) (body : nat -> ST unit) : ST unit :=
  match range with
  | [] => ret tt
  | i :: range' => body i;; for_st range' body
  end.

(** The object [self.parameters] and the object [self], by the locations
    of the arrays they hold. *)
Record FFDParametersRef := {
  origin_box_ref : loc;
  position_vertex_1_ref : loc;
  position_vertex_2_ref : loc;
  position_vertex_3_ref : loc;
  array_mu_x_ref : loc;
  array_mu_y_ref : loc;
  array_mu_z_ref : loc
}.

Record FFDObject := {
  parameters_ref : FFDParametersRef;
  original_mesh_points_ref : loc
}.

(** [FFD._transform_points], lines 84-95: [original_points] is a name, the
    result is the name of the array allocated at line 89. *)
Definition _transform_points_st (original_points : loc)
    (transformation : Point3 -> Point3) : ST loc :=
  shape ← load_points original_points;
  let n_rows_mesh := length shape in
  modified_points ← alloc (Points (replicate n_rows_mesh pzero));
  for_st (seq 0 n_rows_mesh) (fun i =>
    points ← load_points original_points;
    let single_point := points !!! i in
    modified ← load_points modified_points;
    store modified_points (Points (<[i := transformation single_point]> modified)));;
  ret modified_points.

(** One of the three basis loops, lines 47-50, 52-55 and 57-60, for the
    column [axis] of the reference points. *)
Definition bernstein_loop_st (dim : nat) (axis : Point3 -> Qc)
    (reference_frame_mesh_points bernstein : loc) : ST unit :=
  for_st (seq 0 dim) (fun i =>
    reference ← load_points reference_frame_mesh_points;
    aux1 ← alloc (Vector (vpower (one_minus (axis <$> reference)) (dim - 1 - i)));
    reference ← load_points reference_frame_mesh_points;
    aux2 ← alloc (Vector (vpower (axis <$> reference) i));
    a1 ← load_vector aux1;
    a2 ← load_vector aux2;
    B ← load_matrix bernstein;
    store bernstein (Matrix (set_col B i (vscale_l (binom (dim - 1) i) (vmul a1 a2))))).

(** The accumulation loops, lines 62-71. *)
Definition accumulate_shift_st (parameters : FFDParametersRef)
    (dims : nat * nat * nat)
    (bernstein_x bernstein_y bernstein_z shift_mesh_points : loc) : ST unit :=
  let '(dim_n_mu, dim_m_mu, dim_t_mu) := dims in
  for_st (seq 0 dim_n_mu) (fun i =>
    for_st (seq 0 dim_m_mu) (fun j =>
      for_st (seq 0 dim_t_mu) (fun k =>
        Bx ← load_matrix bernstein_x;
        By ← load_matrix bernstein_y;
        Bz ← load_matrix bernstein_z;
        aux ← alloc (Vector (vmul (get_col Bx i)
                                   (vmul (get_col By j) (get_col Bz k))));
        a ← load_vector aux;
        mu_x ← load_cube (array_mu_x_ref parameters);
        mu_x_ijk ← lift (get3 mu_x i j k);
        aux_x ← alloc (Vector (vscale_r a mu_x_ijk));
        a ← load_vector aux;
        mu_y ← load_cube (array_mu_y_ref parameters);
        mu_y_ijk ← lift (get3 mu_y i j k);
        aux_y ← alloc (Vector (vscale_r a mu_y_ijk));
        a ← load_vector aux;
        mu_z ← load_cube (array_mu_z_ref parameters);
        mu_z_ijk ← lift (get3 mu_z i j k);
        aux_z ← alloc (Vector (vscale_r a mu_z_ijk));
        shift ← load_points shift_mesh_points;
        v ← load_vector aux_x;
        store shift_mesh_points (Points (add_col_x shift v));;
        shift ← load_points shift_mesh_points;
        v ← load_vector aux_y;
        store shift_mesh_points (Points (add_col_y shift v));;
        shift ← load_points shift_mesh_points;
        v ← load_vector aux_z;
        store shift_mesh_points (Points (add_col_z shift v))))).

(** The containment loop, lines 74-78. *)
Definition mask_outside_st (n_rows_mesh : nat)
    (reference_frame_mesh_points shift_mesh_points : loc) : ST unit :=
  for_st (seq 0 n_rows_mesh) (fun i =>
    reference ← load_points reference_frame_mesh_points;
    if outside (reference !!! i)
    then shift ← load_points shift_mesh_points;
         store shift_mesh_points (Points (<[i := pzero]> shift))
    else ret tt).

Section Perform.

Variable affine_points_fit :
  list Point3 -> list Point3 -> option (Point3 -> Point3).

(** [FFD.perform], lines 19-81, on the store: the result is the name of the
    array returned. *)
Definition perform_st (self : FFDObject) : ST loc :=
  let parameters := parameters_ref self in
  shape ← load_points (original_mesh_points_ref self);
  let n_rows_mesh := length shape in
  let translation := origin_box_ref parameters in
  v1 ← load_row (position_vertex_1_ref parameters);
  t ← load_row translation;
  row1 ← alloc (Row (psub v1 t));
  v2 ← load_row (position_vertex_2_ref parameters);
  t ← load_row translation;
  row2 ← alloc (Row (psub v2 t));
  v3 ← load_row (position_vertex_3_ref parameters);
  t ← load_row translation;
  row3 ← alloc (Row (psub v3 t));
  r1 ← load_row row1;
  r2 ← load_row row2;
  r3 ← load_row row3;
  fisical_frame ← alloc (Points [r1; r2; r3; P3 0 0 0]);
  reference_frame ← alloc (Points FFD.reference_frame);
  fisical ← load_points fisical_frame;
  reference ← load_points reference_frame;
  transformation ← lift (affine_points_fit fisical reference);
  reference ← load_points reference_frame;
  fisical ← load_points fisical_frame;
  inverse_transformation ← lift (affine_points_fit reference fisical);
  mu_x ← load_cube (array_mu_x_ref parameters);
  let '(dim_n_mu, dim_m_mu, dim_t_mu) := shape3 mu_x in
  bernstein_x ← alloc (Matrix (zeros n_rows_mesh dim_n_mu));
  bernstein_y ← alloc (Matrix (zeros n_rows_mesh dim_m_mu));
  bernstein_z ← alloc (Matrix (zeros n_rows_mesh dim_t_mu));
  shift_mesh_points ← alloc (Points (replicate n_rows_mesh pzero));
  points ← load_points (original_mesh_points_ref self);
  t ← load_row translation;
  translated ← alloc (Points (cloud_untranslate points t));
  reference_frame_mesh_points ← _transform_points_st translated transformation;
  bernstein_loop_st dim_n_mu px reference_frame_mesh_points bernstein_x;;
  bernstein_loop_st dim_m_mu py reference_frame_mesh_points bernstein_y;;
  bernstein_loop_st dim_t_mu pz reference_frame_mesh_points bernstein_z;;
  accumulate_shift_st parameters (dim_n_mu, dim_m_mu, dim_t_mu)
    bernstein_x bernstein_y bernstein_z shift_mesh_points;;
  mask_outside_st n_rows_mesh reference_frame_mesh_points shift_mesh_points;;
  shift ← load_points shift_mesh_points;
  reference ← load_points reference_frame_mesh_points;
  moved ← alloc (Points (cloud_add shift reference));
  back ← _transform_points_st moved inverse_transformation;
  b ← load_points back;
  t ← load_row translation;
  alloc (Points (cloud_translate b t)).

End Perform.

(** A computation does not touch the first [n] objects of the store, and
    what it returns, with the store it leaves, satisfies [Q]. *)
Definition frames {A : Type} (n : nat) (m : ST A) (Q : A -> heap -> Prop) : Prop :=
  forall h a h',
    (n <= length h)%nat ->
    m h = Some (a, h') ->
    Q a h' /\ (n <= length h')%nat /\ take n h' = take n h.

(** The store [h'] comes from [h] by allocations and by writes into
    objects allocated since [h] or into the object [w]. *)
Definition updates (w : loc) (h h' : heap) : Prop :=
  (length h <= length h')%nat
  /\ forall l, (l < length h)%nat -> l <> w -> h' !! l = h !! l.

(** The same with no object of [h] written. *)
Definition extends (h h' : heap) : Prop := updates (length h) h h'.

End Store.

(** ** More vocabulary for the statements below *)

Module Grid.
Import FFD.

(** The three reads of one iteration of lines 66-68 are in range. *)
Definition reads_ok (parameters : FFDParameters) (i j k : nat) : Prop :=
  is_Some (get3 (array_mu_x parameters) i j k)
  /\ is_Some (get3 (array_mu_y parameters) i j k)
  /\ is_Some (get3 (array_mu_z parameters) i j k).

(** Componentwise order on shapes, and a shape with no entry. *)
Definition shape_le (s s' : nat * nat * nat) : Prop :=
  (s.1.1 <= s'.1.1)%nat /\ (s.1.2 <= s'.1.2)%nat /\ (s.2 <= s'.2)%nat.
Definition empty_shape (s : nat * nat * nat) : Prop :=
  s.1.1 = 0%nat \/ s.1.2 = 0%nat \/ s.2 = 0%nat.

(** The control index an end of the unit interval selects. *)
Definition corner_index (dim : nat) (c : Qc) : nat :=
  if decide (c = 0) then 0%nat else (dim - 1)%nat.

(** The box and its control grid moved as a whole by [t]. *)
Definition translate_box (parameters : FFDParameters) (t : Point3)
    : FFDParameters := {|
  origin_box := padd (origin_box parameters) t;
  position_vertex_1 := padd (position_vertex_1 parameters) t;
  position_vertex_2 := padd (position_vertex_2 parameters) t;
  position_vertex_3 := padd (position_vertex_3 parameters) t;
  array_mu_x := array_mu_x parameters;
  array_mu_y := array_mu_y parameters;
  array_mu_z := array_mu_z parameters
|}.

(** The position of control index [i] along an axis of [dim] control
    points, as a fraction of the box: [i / (dim - 1)]. *)
Definition grade (dim i : nat) : Qc :=
  Qc_of_Z (Z.of_nat i) / Qc_of_Z (Z.of_nat (dim - 1)).

End Grid.

Module Mesh.
Import FFD VFFD.

(** An integer that indexes an array of [n] rows: [-n <= i < n]. *)
Definition in_range (n : nat) (i : Z) : Prop :=
  (- Z.of_nat n <= i < Z.of_nat n)%Z.

(** The three rows [x[t]] of one triangle, and their determinant. *)
Definition tri_rows (x : PointCloud) (t : Z * Z * Z)
    : option (Point3 * Point3 * Point3) :=
  let '(a, b, c) := t in
  pa ← py_index x a;
  pb ← py_index x b;
  pc ← py_index x c;
  Some (pa, pb, pc).
Definition tri_det (t : Point3 * Point3 * Point3) : Qc :=
  let '(pa, pb, pc) := t in det pa pb pc.

(** A triangle with the opposite orientation. *)
Definition flip (t : Z * Z * Z) : Z * Z * Z :=
  let '(a, b, c) := t in (a, c, b).

(** [c * x] on the rows of an [(n, 3)] array. *)
Definition cloud_scale (c : Qc) (x : PointCloud) : PointCloud :=
  (fun p => P3 (c * px p) (c * py p) (c * pz p)) <$> x.

(** [1 / 3]. *)
Definition third : Qc := 1 / Qc_of_Z 3.

(** [VFFD.__init__], lines 62-72.  [base] is the object as the
    initialiser of the base class leaves it; [self.fun] is [fun_], which
    reads [self.triangles]. *)
Definition __init__ (base : VFFD) (triangles : list (Z * Z * Z)) : VFFD :=
  mkVFFD triangles [third; third; third] (indices base) (M base)
         (fixval base) (parameters base).

End Mesh.
(** ** Facts on the numeric helpers *)

Module NumFacts.

Lemma Qcltb_lt x y : Qcltb x y = true <-> x < y.
Proof.
  unfold Qcltb, Qclt, Qlt, Qccompare, Qcompare.
  rewrite <- Z.compare_lt_iff.
  destruct (_ ?= _)%Z; split; congruence.
Qed.

Lemma Qcltb_ge x y : Qcltb x y = false <-> y <= x.
Proof.
  rewrite Qcle_ngt, <- Qcltb_lt. destruct (Qcltb x y); intuition congruence.
Qed.

Lemma Qcsum_cons x l : Qcsum (x :: l) = x + Qcsum l.
Proof. reflexivity. Qed.

Lemma Qcsum_app l1 l2 : Qcsum (l1 ++ l2) = Qcsum l1 + Qcsum l2.
Proof.
  induction l1 as [|x l1 IH]; cbn [app].
  - unfold Qcsum at 2. cbn. ring.
  - rewrite !Qcsum_cons, IH. ring.
Qed.

Lemma Qcsum_linear {I : Type} (a b : Qc) (g h : I -> Qc) (l : list I) :
  Qcsum ((fun i => a * g i + b * h i) <$> l)
  = a * Qcsum (g <$> l) + b * Qcsum (h <$> l).
Proof.
  induction l as [|i l IH]; cbn [fmap list_fmap].
  - unfold Qcsum. cbn. ring.
  - rewrite !Qcsum_cons, IH. ring.
Qed.

Lemma choose_gt n : forall k, (n < k)%nat -> choose n k = 0%nat.
Proof.
  induction n as [|n IH]; intros [|k] Hk; try lia; [done|].
  cbn [choose]. rewrite !IH by lia. done.
Qed.

Lemma binom_pascal n k : binom (S n) (S k) = binom n k + binom n (S k).
Proof.
  unfold binom. cbn [choose]. by rewrite Nat2Z.inj_add, Z2Qc_inj_add.
Qed.

Lemma binom_0_r n : binom n 0 = 1.
Proof. unfold binom. destruct n; cbn [choose]; apply Z2Qc_inj_1. Qed.

Lemma binom_gt n k : (n < k)%nat -> binom n k = 0.
Proof. intros H. unfold binom. rewrite choose_gt by done. apply Z2Qc_inj_0. Qed.

Lemma binomial_term_0 a b n :
  binomial_term a b (S n) 0 = a * binomial_term a b n 0.
Proof.
  unfold binomial_term. rewrite !binom_0_r, !Nat.sub_0_r. cbn [Qcpower]. ring.
Qed.

Lemma binomial_term_S a b n i :
  (i <= n)%nat ->
  binomial_term a b (S n) (S i)
  = a * binomial_term a b n (S i) + b * binomial_term a b n i.
Proof.
  intros Hi. unfold binomial_term. rewrite binom_pascal.
  replace (S n - S i)%nat with (n - i)%nat by lia.
  destruct (decide (i = n)) as [->|Hne].
  - rewrite (binom_gt n (S n)) by lia. cbn [Qcpower]. ring.
  - replace (n - i)%nat with (S (n - S i)) by lia. cbn [Qcpower]. ring.
Qed.

Lemma Qcsum_ext_in {I : Type} (f g : I -> Qc) (l : list I) :
  (forall i, i ∈ l -> f i = g i) -> Qcsum (f <$> l) = Qcsum (g <$> l).
Proof.
  induction l as [|i l IH]; intros Hfg; [done|].
  cbn [fmap list_fmap]. rewrite !Qcsum_cons, (Hfg i) by left. f_equal.
  apply IH. intros j Hj. apply Hfg. by right.
Qed.

Lemma seq_0_S (k : nat) : seq 0 (S k) = 0%nat :: (S <$> seq 0 k).
Proof. cbn [seq]. f_equal. symmetry. apply fmap_S_seq. Qed.

(** The binomial theorem on the rationals. *)
Lemma binomial_theorem (a b : Qc) (n : nat) :
  Qcsum (binomial_term a b n <$> seq 0 (S n)) = (a + b) ^ n.
Proof.
  induction n as [|n IH].
  - unfold Qcsum, binomial_term. cbn. rewrite binom_0_r. ring.
  - assert (Hshift :
      binomial_term a b n 0
      + Qcsum ((fun i => binomial_term a b n (S i)) <$> seq 0 (S n))
      = (a + b) ^ n).
    { assert (E1 : Qcsum ((fun i => binomial_term a b n (S i)) <$> seq 0 (S n))
                   = Qcsum ((fun i => binomial_term a b n (S i)) <$> seq 0 n)).
      { rewrite seq_S, fmap_app, Qcsum_app. cbn [fmap list_fmap Nat.add].
        unfold binomial_term at 2. rewrite (binom_gt n (S n)) by lia.
        unfold Qcsum at 2. cbn [foldr]. ring. }
      assert (E2 : Qcsum (binomial_term a b n <$> seq 0 (S n))
                   = binomial_term a b n 0
                     + Qcsum ((fun i => binomial_term a b n (S i)) <$> seq 0 n)).
      { rewrite seq_0_S. cbn [fmap list_fmap].
        by rewrite Qcsum_cons, <- list_fmap_compose. }
      by rewrite E1, <- IH, E2. }
    rewrite (seq_0_S (S n)). cbn [fmap list_fmap].
    rewrite Qcsum_cons, binomial_term_0, <- list_fmap_compose.
    rewrite (Qcsum_ext_in _
               (fun i => a * binomial_term a b n (S i) + b * binomial_term a b n i)).
    + rewrite Qcsum_linear, IH. cbn [Qcpower]. rewrite <- Hshift. ring.
    + intros i [_ Hi]%elem_of_seq. cbn. apply binomial_term_S. lia.
Qed.

End NumFacts.
Export NumFacts.

(** ** Loops over arrays *)

Module Loops.
Import FFD.

(** A loop [for i in range(n)] whose body touches entry [i] only acts on
    every entry below [n] once. *)
Lemma fold_left_indexed_lookup {A : Type} (step : list A -> nat -> list A)
    (upd : nat -> A -> A) :
  (forall l i j,
      step l i !! j = if decide (j = i) then upd i <$> l !! j else l !! j) ->
  forall n l j,
    fold_left step (seq 0 n) l !! j
    = if decide (j < n)%nat then upd j <$> l !! j else l !! j.
Proof.
  intros Hstep n. induction n as [|n IH]; intros l j.
  - cbn [seq fold_left]. destruct (decide (j < 0)%nat); [lia | done].
  - rewrite seq_S, fold_left_app. cbn [fold_left]. rewrite Hstep, IH.
    destruct (decide (j = 0 + n)%nat), (decide (j < n)%nat),
      (decide (j < S n)%nat); try lia; try done.
    by subst.
Qed.

(** A loop whose body acts on row [p] of an array without looking at the
    other rows acts on row [p] as the loop of that action. *)
Lemma fold_left_pointwise {A I : Type} (stepM : list A -> I -> list A)
    (stepP : A -> I -> A) (p : nat) :
  (forall M i, stepM M i !! p = (fun a => stepP a i) <$> M !! p) ->
  forall (range : list I) M,
    fold_left stepM range M !! p
    = (fun a => fold_left stepP range a) <$> M !! p.
Proof.
  intros Hstep range. induction range as [|i range IH]; intros M.
  - cbn [fold_left]. by destruct (M !! p).
  - cbn [fold_left]. rewrite IH, Hstep. by destruct (M !! p).
Qed.

(** *** Loops whose body may raise *)

Lemma for_loop_Some {S : Type} (body : nat -> S -> option S)
    (pure : S -> nat -> S) (range : list nat) :
  (forall i s s', body i s = Some s' -> s' = pure s i) ->
  forall s s', for_loop body range s = Some s' -> s' = fold_left pure range s.
Proof.
  intros Hbody. induction range as [|i range IH]; intros s s' Hrun.
  - cbn in Hrun. by inversion Hrun.
  - cbn [for_loop] in Hrun. destruct (body i s) as [s1|] eqn:H1; [|done].
    cbn in Hrun. apply IH in Hrun. cbn [fold_left].
    by rewrite <- (Hbody _ _ _ H1).
Qed.

Lemma for_loop_is_Some {S : Type} (body : nat -> S -> option S)
    (range : list nat) :
  (forall i s, i ∈ range -> is_Some (body i s)) ->
  forall s, is_Some (for_loop body range s).
Proof.
  induction range as [|i range IH]; intros Hbody s; [by eexists|].
  cbn [for_loop]. destruct (Hbody i s) as [s1 ->]; [left|].
  cbn. apply IH. intros j s2 Hj. apply Hbody. by right.
Qed.

(** Whether a loop raises does not depend on the state when whether its
    body raises does not. *)
Lemma for_loop_success_indep {S S' : Type} (body : nat -> S -> option S)
    (body' : nat -> S' -> option S') (range : list nat) :
  (forall i s s', is_Some (body i s) -> is_Some (body' i s')) ->
  forall s s', is_Some (for_loop body range s) -> is_Some (for_loop body' range s').
Proof.
  intros Hbody. induction range as [|i range IH]; intros s s' Hrun; [by eexists|].
  cbn [for_loop] in *. destruct (body i s) as [s1|] eqn:H1.
  - destruct (Hbody i s s') as [s1' ->]; [by rewrite H1|]. cbn in *. eauto.
  - cbn in Hrun. by destruct Hrun.
Qed.

End Loops.

(** ** Facts on the lattice deformer *)

Module FFDFacts.
Import FFD Loops.

(** *** [_transform_points] and the containment loop *)

Lemma _transform_points_fmap (original_points : PointCloud)
    (transformation : Point3 -> Point3) :
  _transform_points original_points transformation
  = transformation <$> original_points.
Proof.
  unfold _transform_points. apply list_eq; intros j.
  rewrite (fold_left_indexed_lookup _
             (fun i _ => transformation (original_points !!! i))).
  - rewrite list_lookup_fmap.
    destruct (decide (j < length original_points)%nat) as [Hj|Hj].
    + rewrite lookup_replicate_2 by done.
      apply lookup_lt_is_Some_2 in Hj as [p Hp].
      by rewrite (list_lookup_total_correct _ _ _ Hp), Hp.
    + rewrite (lookup_ge_None_2 original_points) by lia.
      apply lookup_ge_None_2. rewrite length_replicate. lia.
  - intros l i k. rewrite list_lookup_insert.
    destruct (decide (k = i)) as [->|Hne].
    + destruct (decide (i = i ∧ (i < length l)%nat)) as [[_ Hi]|Hi].
      * apply lookup_lt_is_Some_2 in Hi as [x Hx]. by rewrite Hx.
      * rewrite lookup_ge_None_2; [done | lia].
    + destruct (decide (i = k ∧ (i < length l)%nat)) as [[? _]|_];
        [congruence | done].
Qed.

Lemma mask_outside_lookup (n : nat) (reference shift : PointCloud) (p : nat)
    (r : Point3) :
  n = length reference ->
  reference !! p = Some r ->
  mask_outside n reference shift !! p
  = (fun s => if outside r then pzero else s) <$> shift !! p.
Proof.
  intros -> Hr. unfold mask_outside.
  rewrite (fold_left_indexed_lookup _
             (fun i s => if outside (reference !!! i) then pzero else s)).
  - rewrite (list_lookup_total_correct _ _ _ Hr).
    apply lookup_lt_Some in Hr.
    destruct (decide (p < length reference)%nat); [done | lia].
  - intros l i k. destruct (outside (reference !!! i)); cbv iota.
    + rewrite list_lookup_insert.
      destruct (decide (k = i)) as [->|Hne].
      * destruct (decide (i = i ∧ (i < length l)%nat)) as [[_ Hi]|Hi].
        -- apply lookup_lt_is_Some_2 in Hi as [x Hx]. by rewrite Hx.
        -- rewrite lookup_ge_None_2; [done | lia].
      * destruct (decide (i = k ∧ (i < length l)%nat)) as [[? _]|_];
          [congruence | done].
    + destruct (decide (k = i)); [|done]. by destruct (l !! k).
Qed.

Lemma mask_outside_length (n : nat) (reference shift : PointCloud) :
  length (mask_outside n reference shift) = length shift.
Proof.
  unfold mask_outside.
  generalize (seq 0 n). intros range. revert shift.
  induction range as [|i range IH]; intros shift; [done|].
  cbn [fold_left]. rewrite IH.
  destruct (outside _); [apply length_insert | done].
Qed.

(** *** The basis loops *)

Lemma basis_entry_poly dim i r : basis_entry dim i r = bernstein_poly dim i r.
Proof. unfold basis_entry, bernstein_poly. ring. Qed.

Lemma basis_column (dim i : nat) (coords : list Qc) :
  vscale_l (binom (dim - 1) i)
    (vmul (vpower (one_minus coords) (dim - 1 - i)) (vpower coords i))
  = basis_entry dim i <$> coords.
Proof.
  unfold vscale_l, vmul, vpower, one_minus, basis_entry.
  induction coords as [|r coords IH]; [done|].
  cbn [fmap list_fmap zip_with]. f_equal. apply IH.
Qed.

Lemma set_col_lookup (B : matrix) (i : nat) (f : Qc -> Qc) (coords : list Qc)
    (p : nat) (r : Qc) :
  coords !! p = Some r ->
  set_col B i (f <$> coords) !! p = (fun row => <[i := f r]> row) <$> B !! p.
Proof.
  intros Hr. unfold set_col.
  rewrite lookup_zip_with, list_lookup_fmap, Hr. by destruct (B !! p).
Qed.

Lemma fill_row (dim : nat) (f : nat -> Qc) (row : list Qc) :
  length row = dim ->
  fold_left (fun row i => <[i := f i]> row) (seq 0 dim) row = f <$> seq 0 dim.
Proof.
  intros Hlen. apply list_eq; intros j.
  rewrite (fold_left_indexed_lookup _ (fun i _ => f i)).
  - rewrite list_lookup_fmap.
    destruct (decide (j < dim)%nat) as [Hj|Hj].
    + rewrite (lookup_seq_lt _ _ _ Hj).
      destruct (lookup_lt_is_Some_2 row j) as [x Hx]; [lia|]. by rewrite Hx.
    + rewrite lookup_seq_ge by lia. apply lookup_ge_None_2. lia.
  - intros l i k. rewrite list_lookup_insert.
    destruct (decide (k = i)) as [->|Hne].
    + destruct (decide (i = i ∧ (i < length l)%nat)) as [[_ Hi]|Hi].
      * apply lookup_lt_is_Some_2 in Hi as [x Hx]. by rewrite Hx.
      * rewrite lookup_ge_None_2; [done | lia].
    + destruct (decide (i = k ∧ (i < length l)%nat)) as [[? _]|_];
        [congruence | done].
Qed.

(** The basis loop, one row at a time. *)
Lemma bernstein_loop_lookup (dim : nat) (coords : list Qc) (p : nat) (r : Qc) :
  coords !! p = Some r ->
  bernstein_loop dim coords (zeros (length coords) dim) !! p
  = Some ((fun i => basis_entry dim i r) <$> seq 0 dim).
Proof.
  intros Hr. unfold bernstein_loop.
  rewrite (fold_left_pointwise _
             (fun row i => <[i := basis_entry dim i r]> row) p).
  - unfold zeros. rewrite lookup_replicate_2 by (by eapply lookup_lt_Some).
    cbn [fmap option_fmap option_map]. f_equal.
    apply (fill_row dim (fun i => basis_entry dim i r)), length_replicate.
  - intros B i. rewrite basis_column. by apply set_col_lookup.
Qed.

Lemma bernstein_loop_length (dim : nat) (coords : list Qc) (B : matrix) :
  length B = length coords ->
  length (bernstein_loop dim coords B) = length coords.
Proof.
  unfold bernstein_loop. generalize (seq 0 dim). intros range. revert B.
  induction range as [|i range IH]; intros B HB; [done|].
  cbn [fold_left]. apply IH. unfold set_col.
  rewrite length_zip_with. unfold vscale_l, vmul, vpower, one_minus.
  rewrite length_fmap, length_zip_with, !length_fmap. lia.
Qed.

(** *** The accumulation loops *)

Lemma get3_is_Some (a : array3) (n m t i j k : nat) :
  wf_array3 a -> shape3 a = (n, m, t) ->
  (i < n)%nat -> (j < m)%nat -> (k < t)%nat ->
  is_Some (get3 a i j k).
Proof.
  unfold wf_array3, get3. intros Hwf Hs Hi Hj Hk. rewrite Hs in *.
  destruct (Nat.ltb_spec i n), (Nat.ltb_spec j m), (Nat.ltb_spec k t);
    try lia.
  cbn [andb]. apply lookup_lt_is_Some_2. rewrite Hwf.
  pose proof (Nat.mul_le_mono_r (S i) n (m * t)).
  pose proof (Nat.mul_le_mono_r (S j) m t). lia.
Qed.

Lemma accumulate_shift_Some parameters Bx By Bz shift shift' :
  accumulate_shift parameters Bx By Bz shift = Some shift' ->
  shift' = accumulate_pure parameters Bx By Bz shift.
Proof.
  unfold accumulate_shift, accumulate_pure, for_range.
  destruct (shape3 (array_mu_x parameters)) as [[n m] t].
  apply for_loop_Some. intros i. apply for_loop_Some. intros j.
  apply for_loop_Some. intros k s s' Hbody.
  unfold accumulate_step, mu_entry.
  destruct (get3 (array_mu_x parameters) i j k); [|done].
  destruct (get3 (array_mu_y parameters) i j k); [|done].
  destruct (get3 (array_mu_z parameters) i j k); [|done].
  cbn in Hbody. by inversion Hbody.
Qed.

Lemma accumulate_shift_is_Some parameters Bx By Bz shift :
  wf_parameters parameters ->
  is_Some (accumulate_shift parameters Bx By Bz shift).
Proof.
  intros (Hx & Hy & Hz & Hsy & Hsz).
  unfold accumulate_shift, for_range.
  destruct (shape3 (array_mu_x parameters)) as [[n m] t] eqn:Hshape.
  apply for_loop_is_Some. intros i s1 [_ Hi]%elem_of_seq.
  apply for_loop_is_Some. intros j s2 [_ Hj]%elem_of_seq.
  apply for_loop_is_Some. intros k s3 [_ Hk]%elem_of_seq.
  destruct (get3_is_Some (array_mu_x parameters) n m t i j k) as [? ->];
    [done..|].
  destruct (get3_is_Some (array_mu_y parameters) n m t i j k) as [? ->];
    [done..|].
  destruct (get3_is_Some (array_mu_z parameters) n m t i j k) as [? ->];
    [done..|].
  by eexists.
Qed.

(** Whether the loops raise depends on the displacement arrays only. *)
Lemma accumulate_shift_success_indep parameters Bx By Bz shift Bx' By' Bz' shift' :
  is_Some (accumulate_shift parameters Bx By Bz shift) ->
  is_Some (accumulate_shift parameters Bx' By' Bz' shift').
Proof.
  unfold accumulate_shift, for_range.
  destruct (shape3 (array_mu_x parameters)) as [[n m] t].
  apply for_loop_success_indep. intros i.
  apply for_loop_success_indep. intros j.
  apply for_loop_success_indep. intros k s s'.
  destruct (get3 (array_mu_x parameters) i j k); [|done].
  destruct (get3 (array_mu_y parameters) i j k); [|done].
  destruct (get3 (array_mu_z parameters) i j k); [|done].
  by eexists.
Qed.

Lemma accumulate_step_lookup parameters Bx By Bz rx ry rz i j k shift p :
  Bx !! p = Some rx -> By !! p = Some ry -> Bz !! p = Some rz ->
  accumulate_step parameters Bx By Bz i j k shift !! p
  = point_step parameters rx ry rz i j k <$> shift !! p.
Proof.
  intros Hx Hy Hz.
  unfold accumulate_step, add_col_x, add_col_y, add_col_z, vscale_r, vmul,
    get_col, point_step.
  rewrite !lookup_zip_with, !list_lookup_fmap, !lookup_zip_with,
    !list_lookup_fmap, Hx, Hy, Hz.
  by destruct (shift !! p).
Qed.

Lemma accumulate_pure_lookup parameters n m t Bx By Bz rx ry rz shift p :
  shape3 (array_mu_x parameters) = (n, m, t) ->
  Bx !! p = Some rx -> By !! p = Some ry -> Bz !! p = Some rz ->
  accumulate_pure parameters Bx By Bz shift !! p
  = (fun s =>
       fold_left (fun s i =>
         fold_left (fun s j =>
           fold_left (fun s k => point_step parameters rx ry rz i j k s)
             (seq 0 t) s) (seq 0 m) s) (seq 0 n) s) <$> shift !! p.
Proof.
  intros Hshape Hx Hy Hz. unfold accumulate_pure. rewrite Hshape.
  apply (fold_left_pointwise _ (fun s i =>
           fold_left (fun s j =>
             fold_left (fun s k => point_step parameters rx ry rz i j k s)
               (seq 0 t) s) (seq 0 m) s)).
  intros M1 i.
  apply (fold_left_pointwise _ (fun s j =>
           fold_left (fun s k => point_step parameters rx ry rz i j k s)
             (seq 0 t) s)).
  intros M2 j.
  apply (fold_left_pointwise _ (fun s k => point_step parameters rx ry rz i j k s)).
  intros M3 k. by apply accumulate_step_lookup.
Qed.

(** A loop that adds a term to each coordinate adds their sums. *)
Lemma fold_left_add3 {I : Type} (step : Point3 -> I -> Point3)
    (tx ty tz : I -> Qc) :
  (forall a i, step a i = P3 (px a + tx i) (py a + ty i) (pz a + tz i)) ->
  forall range a,
    fold_left step range a
    = P3 (px a + Qcsum (tx <$> range)) (py a + Qcsum (ty <$> range))
         (pz a + Qcsum (tz <$> range)).
Proof.
  intros Hstep range. induction range as [|i range IH]; intros a.
  - destruct a as [x y z]. cbn. f_equal; ring.
  - cbn [fold_left]. rewrite IH, Hstep. unfold Qcsum. cbn. f_equal; ring.
Qed.

Lemma Qcsum_zero {I : Type} (l : list I) : Qcsum ((fun _ => 0) <$> l) = 0.
Proof.
  induction l as [|i l IH]; [done|]. unfold Qcsum in *. cbn. rewrite IH. ring.
Qed.

Lemma point_loops_sum parameters rx ry rz n m t s :
  fold_left (fun s i =>
    fold_left (fun s j =>
      fold_left (fun s k => point_step parameters rx ry rz i j k s)
        (seq 0 t) s) (seq 0 m) s) (seq 0 n) s
  = P3 (px s + rows_sum (array_mu_x parameters) rx ry rz n m t)
       (py s + rows_sum (array_mu_y parameters) rx ry rz n m t)
       (pz s + rows_sum (array_mu_z parameters) rx ry rz n m t).
Proof.
  unfold rows_sum.
  apply (fold_left_add3 _
    (fun i => Qcsum ((fun j => Qcsum ((fun k =>
       point_term (array_mu_x parameters) rx ry rz i j k) <$> seq 0 t)) <$> seq 0 m))
    (fun i => Qcsum ((fun j => Qcsum ((fun k =>
       point_term (array_mu_y parameters) rx ry rz i j k) <$> seq 0 t)) <$> seq 0 m))
    (fun i => Qcsum ((fun j => Qcsum ((fun k =>
       point_term (array_mu_z parameters) rx ry rz i j k) <$> seq 0 t)) <$> seq 0 m))).
  intros a i.
  apply (fold_left_add3 _
    (fun j => Qcsum ((fun k =>
       point_term (array_mu_x parameters) rx ry rz i j k) <$> seq 0 t))
    (fun j => Qcsum ((fun k =>
       point_term (array_mu_y parameters) rx ry rz i j k) <$> seq 0 t))
    (fun j => Qcsum ((fun k =>
       point_term (array_mu_z parameters) rx ry rz i j k) <$> seq 0 t))).
  intros b j.
  apply (fold_left_add3 _
    (fun k => point_term (array_mu_x parameters) rx ry rz i j k)
    (fun k => point_term (array_mu_y parameters) rx ry rz i j k)
    (fun k => point_term (array_mu_z parameters) rx ry rz i j k)).
  intros c k. reflexivity.
Qed.

Lemma basis_row_total (dim i : nat) (r : Qc) :
  (i < dim)%nat ->
  ((fun i => basis_entry dim i r) <$> seq 0 dim) !!! i = bernstein_poly dim i r.
Proof.
  intros Hi. apply list_lookup_total_correct.
  rewrite list_lookup_fmap, (lookup_seq_lt _ _ _ Hi). cbn.
  by rewrite basis_entry_poly.
Qed.

Lemma tensor_sum_rows (a : array3) (n m t : nat) (r : Point3) :
  rows_sum a ((fun i => basis_entry n i (px r)) <$> seq 0 n)
             ((fun i => basis_entry m i (py r)) <$> seq 0 m)
             ((fun i => basis_entry t i (pz r)) <$> seq 0 t) n m t
  = tensor_sum (n, m, t) a r.
Proof.
  unfold tensor_sum, rows_sum.
  apply Qcsum_ext_in. intros i [_ Hi]%elem_of_seq.
  apply Qcsum_ext_in. intros j [_ Hj]%elem_of_seq.
  apply Qcsum_ext_in. intros k [_ Hk]%elem_of_seq.
  unfold point_term. rewrite !basis_row_total by lia. ring.
Qed.

(** The accumulated shift of the point of reference coordinates [r] is
    the tensor-product sum of the design. *)
Lemma shift_lookup parameters n m t (reference : PointCloud) (p : nat)
    (r : Point3) :
  shape3 (array_mu_x parameters) = (n, m, t) ->
  reference !! p = Some r ->
  accumulate_pure parameters
    (bernstein_loop n (px <$> reference) (zeros (length reference) n))
    (bernstein_loop m (py <$> reference) (zeros (length reference) m))
    (bernstein_loop t (pz <$> reference) (zeros (length reference) t))
    (replicate (length reference) pzero) !! p
  = Some (bernstein_shift parameters r).
Proof.
  intros Hshape Hr.
  assert (Hlen : forall f : Point3 -> Qc, length reference = length (f <$> reference))
    by (intros f; by rewrite length_fmap).
  rewrite (accumulate_pure_lookup parameters n m t _ _ _
             ((fun i => basis_entry n i (px r)) <$> seq 0 n)
             ((fun i => basis_entry m i (py r)) <$> seq 0 m)
             ((fun i => basis_entry t i (pz r)) <$> seq 0 t)); [|done|..].
  - rewrite lookup_replicate_2 by (by eapply lookup_lt_Some).
    cbn [fmap option_fmap option_map]. f_equal.
    rewrite point_loops_sum, !tensor_sum_rows.
    unfold bernstein_shift. rewrite Hshape.
    cbn [px py pz pzero]. f_equal; ring.
  - rewrite (Hlen px) at 1. apply bernstein_loop_lookup.
    by rewrite list_lookup_fmap, Hr.
  - rewrite (Hlen py) at 1. apply bernstein_loop_lookup.
    by rewrite list_lookup_fmap, Hr.
  - rewrite (Hlen pz) at 1. apply bernstein_loop_lookup.
    by rewrite list_lookup_fmap, Hr.
Qed.

Section PerformFacts.

Variable affine_points_fit :
  list Point3 -> list Point3 -> option (Point3 -> Point3).

(** The vectorised loops of [perform] deform every point on its own:
    when [perform] returns, it returns [deform_point] of every input
    point, in the order of the input. *)
Lemma perform_Some parameters (original_mesh_points out : PointCloud) :
  perform affine_points_fit parameters original_mesh_points = Some out ->
  exists transformation inverse_transformation,
    affine_points_fit (fisical_frame parameters) reference_frame
    = Some transformation
    /\ affine_points_fit reference_frame (fisical_frame parameters)
      = Some inverse_transformation
    /\ out = deform_point transformation inverse_transformation parameters
            <$> original_mesh_points.
Proof.
  unfold perform. intros Hrun.
  destruct (affine_points_fit (fisical_frame parameters) reference_frame)
    as [T|]; [|done].
  destruct (affine_points_fit reference_frame (fisical_frame parameters))
    as [Tinv|]; [|done].
  cbn [mbind option_bind] in Hrun.
  exists T, Tinv. split; [done|]. split; [done|].
  rewrite !_transform_points_fmap in Hrun.
  set (reference := T <$> cloud_untranslate original_mesh_points
                             (origin_box parameters)) in *.
  assert (Hlen : length original_mesh_points = length reference)
    by (unfold reference, cloud_untranslate; by rewrite !length_fmap).
  rewrite Hlen in Hrun.
  destruct (shape3 (array_mu_x parameters)) as [[n m] t] eqn:Hshape.
  pose proof (shift_lookup parameters n m t reference) as Hshift.
  destruct (accumulate_shift parameters _ _ _ _) as [shift|] eqn:Hacc;
    [|done].
  cbn [mbind option_bind] in Hrun. inversion Hrun as [Hout]. clear Hrun Hout.
  apply accumulate_shift_Some in Hacc. rewrite <- Hacc in Hshift.
  apply list_eq. intros q. unfold cloud_translate, cloud_add.
  rewrite _transform_points_fmap, !list_lookup_fmap, lookup_zip_with.
  destruct (original_mesh_points !! q) as [p|] eqn:Hp.
  - assert (Hr : reference !! q
                 = Some (T (psub p (origin_box parameters)))).
    { unfold reference, cloud_untranslate.
      by rewrite !list_lookup_fmap, Hp. }
    rewrite (mask_outside_lookup _ _ _ _ _ eq_refl Hr), (Hshift _ _ Hshape Hr), Hr.
    reflexivity.
  - assert (Hr : reference !! q = None).
    { unfold reference, cloud_untranslate.
      by rewrite !list_lookup_fmap, Hp. }
    rewrite Hr. by destruct (mask_outside _ reference shift !! q).
Qed.

(** With a box that can be fitted and displacement arrays of one shape,
    [perform] returns. *)
Lemma perform_is_Some parameters (original_mesh_points : PointCloud)
    transformation inverse_transformation :
  affine_points_fit (fisical_frame parameters) reference_frame
  = Some transformation ->
  affine_points_fit reference_frame (fisical_frame parameters)
  = Some inverse_transformation ->
  wf_parameters parameters ->
  perform affine_points_fit parameters original_mesh_points
  = Some (deform_point transformation inverse_transformation parameters
          <$> original_mesh_points).
Proof.
  intros HT HTinv Hwf.
  destruct (perform affine_points_fit parameters original_mesh_points)
    as [out|] eqn:Hrun.
  - apply perform_Some in Hrun as (T & Tinv & HT' & HTinv' & ->).
    congruence.
  - exfalso. unfold perform in Hrun. rewrite HT, HTinv in Hrun.
    cbn [mbind option_bind] in Hrun.
    destruct (shape3 (array_mu_x parameters)) as [[n m] t].
    match type of Hrun with
    | context [accumulate_shift ?a ?b ?c ?d ?e] =>
        destruct (accumulate_shift_is_Some a b c d e Hwf) as [shift Hacc]
    end.
    rewrite Hacc in Hrun. done.
Qed.

(** Whether [perform] raises does not depend on the points. *)
Lemma perform_success_indep parameters (pts pts' : PointCloud) :
  is_Some (perform affine_points_fit parameters pts) ->
  is_Some (perform affine_points_fit parameters pts').
Proof.
  unfold perform. intros Hrun.
  destruct (affine_points_fit (fisical_frame parameters) reference_frame)
    as [T|]; [|by destruct Hrun].
  destruct (affine_points_fit reference_frame (fisical_frame parameters))
    as [Tinv|]; [|by destruct Hrun].
  cbn [mbind option_bind] in *.
  destruct (shape3 (array_mu_x parameters)) as [[n m] t].
  match type of Hrun with
  | context [accumulate_shift ?a ?b ?c ?d ?e] =>
      destruct (accumulate_shift a b c d e) as [shift|] eqn:Hacc;
      [|by destruct Hrun]
  end.
  match goal with
  | |- context [accumulate_shift ?a ?b ?c ?d ?e] =>
      destruct (accumulate_shift_success_indep a _ _ _ _ b c d e
                  (mk_is_Some _ _ Hacc)) as [shift' ->]
  end.
  by eexists.
Qed.

(** When [perform] returns on some points, it returns on any points,
    with the same deformation of each. *)
Lemma perform_is_Some_fit parameters (pts pts' : PointCloud)
    transformation inverse_transformation :
  affine_points_fit (fisical_frame parameters) reference_frame
  = Some transformation ->
  affine_points_fit reference_frame (fisical_frame parameters)
  = Some inverse_transformation ->
  is_Some (perform affine_points_fit parameters pts) ->
  perform affine_points_fit parameters pts'
  = Some (deform_point transformation inverse_transformation parameters
          <$> pts').
Proof.
  intros HT HTinv Hsome.
  destruct (perform_success_indep parameters pts pts' Hsome) as [out Hrun].
  rewrite Hrun.
  apply perform_Some in Hrun as (T & Tinv & HT' & HTinv' & ->).
  congruence.
Qed.

End PerformFacts.

(** *** Points and the box *)

Lemma padd_pzero_l (r : Point3) : padd pzero r = r.
Proof. destruct r as [x y z]. unfold padd, pzero. cbn. f_equal; ring. Qed.

Lemma padd_psub (p t : Point3) : padd (psub p t) t = p.
Proof. destruct p, t. unfold padd, psub. cbn. f_equal; ring. Qed.

Lemma outside_true (r : Point3) :
  outside r = true
  <-> px r < 0 \/ py r < 0 \/ pz r < 0 \/ 1 < px r \/ 1 < py r \/ 1 < pz r.
Proof.
  unfold outside, Qcgtb. rewrite !orb_true_iff, !Qcltb_lt. tauto.
Qed.

Lemma outside_false (r : Point3) :
  outside r = false
  <-> (0 <= px r /\ px r <= 1) /\ (0 <= py r /\ py r <= 1)
      /\ (0 <= pz r /\ pz r <= 1).
Proof.
  unfold outside, Qcgtb. rewrite !orb_false_iff, !Qcltb_ge. tauto.
Qed.

Lemma mu_entry_zero (a : array3) (i j k : nat) :
  Forall (fun x => x = 0) (data3 a) -> mu_entry a i j k = 0.
Proof.
  intros Hzero. unfold mu_entry, get3.
  destruct (shape3 a) as [[n m] t].
  destruct (_ && _); [|done].
  destruct (data3 a !! _) as [x|] eqn:Hx; [|done].
  cbn. by eapply (Forall_lookup_1 _ _ _ _ Hzero).
Qed.

Lemma tensor_sum_zero dims (a : array3) (r : Point3) :
  Forall (fun x => x = 0) (data3 a) -> tensor_sum dims a r = 0.
Proof.
  intros Hzero. unfold tensor_sum. destruct dims as [[n m] t].
  rewrite <- (Qcsum_zero (seq 0 n)). apply Qcsum_ext_in. intros i _.
  rewrite <- (Qcsum_zero (seq 0 m)). apply Qcsum_ext_in. intros j _.
  rewrite <- (Qcsum_zero (seq 0 t)). apply Qcsum_ext_in. intros k _.
  rewrite mu_entry_zero by done. ring.
Qed.

End FFDFacts.

(** ** The lattice deformer: the properties of the design *)

Module FFDTheorems.
Import FFD FFDFacts.



Section Perform.

Variable affine_points_fit :
  list Point3 -> list Point3 -> option (Point3 -> Point3).

(** C3.  Containment cutoff: when [FFD.perform] returns, a point whose
    reference coordinate is below [0] or above [1] on some axis comes
    back as the affine round trip of its input position, whatever the
    displacement arrays hold; it comes back unchanged when the inverse
    fit undoes the fit. *)
Theorem perform_containment_cutoff parameters
    (original_mesh_points out : PointCloud)
    (transformation inverse_transformation : Point3 -> Point3)
    (i : nat) (p : Point3) :
  perform affine_points_fit parameters original_mesh_points = Some out ->
  affine_points_fit (fisical_frame parameters) reference_frame
  = Some transformation ->
  affine_points_fit reference_frame (fisical_frame parameters)
  = Some inverse_transformation ->
  original_mesh_points !! i = Some p ->
  let r := transformation (psub p (origin_box parameters)) in
  px r < 0 \/ py r < 0 \/ pz r < 0 \/ 1 < px r \/ 1 < py r \/ 1 < pz r ->
  out !! i = Some (padd (inverse_transformation r) (origin_box parameters))
  /\ ((forall x, inverse_transformation (transformation x) = x) ->
      out !! i = Some p).
Proof.
  intros Hrun HT HTinv Hp r Hout.
  apply perform_Some in Hrun as (T & Tinv & HT' & HTinv' & ->).
  assert (T = transformation) as -> by congruence.
  assert (Tinv = inverse_transformation) as -> by congruence.
  assert (Hq : (deform_point transformation inverse_transformation parameters
                <$> original_mesh_points) !! i
               = Some (padd (inverse_transformation r) (origin_box parameters))).
  { rewrite list_lookup_fmap, Hp. cbn. unfold deform_point. fold r.
    apply outside_true in Hout. by rewrite Hout, padd_pzero_l. }
  split; [done|]. intros Hinv. rewrite Hq. unfold r.
  by rewrite Hinv, padd_psub.
Qed.

(** C9.  The cutoff is boundary-inclusive: when [FFD.perform] returns,
    a point whose three reference coordinates lie in the closed
    interval [[0, 1]], the ends [0] and [1] included, is moved by its
    full tensor-product Bernstein shift. *)
Theorem perform_boundary_inclusive parameters
    (original_mesh_points out : PointCloud)
    (transformation inverse_transformation : Point3 -> Point3)
    (i : nat) (p : Point3) :
  perform affine_points_fit parameters original_mesh_points = Some out ->
  affine_points_fit (fisical_frame parameters) reference_frame
  = Some transformation ->
  affine_points_fit reference_frame (fisical_frame parameters)
  = Some inverse_transformation ->
  original_mesh_points !! i = Some p ->
  let r := transformation (psub p (origin_box parameters)) in
  0 <= px r <= 1 -> 0 <= py r <= 1 -> 0 <= pz r <= 1 ->
  out !! i
  = Some (padd (inverse_transformation (padd (bernstein_shift parameters r) r))
               (origin_box parameters)).
Proof.
  intros Hrun HT HTinv Hp r Hx Hy Hz.
  apply perform_Some in Hrun as (T & Tinv & HT' & HTinv' & ->).
  assert (T = transformation) as -> by congruence.
  assert (Tinv = inverse_transformation) as -> by congruence.
  rewrite list_lookup_fmap, Hp. cbn. unfold deform_point. fold r.
  assert (Hin : outside r = false) by (by apply outside_false).
  by rewrite Hin.
Qed.

(** C4.  Identity deformation: for a box that can be fitted both ways,
    with the two fitted maps mutual inverses, and displacement arrays
    of one shape whose entries are all zero, [FFD.perform] returns the
    input points. *)
Theorem perform_identity parameters (original_mesh_points : PointCloud)
    (transformation inverse_transformation : Point3 -> Point3) :
  affine_points_fit (fisical_frame parameters) reference_frame
  = Some transformation ->
  affine_points_fit reference_frame (fisical_frame parameters)
  = Some inverse_transformation ->
  (forall x, inverse_transformation (transformation x) = x) ->
  wf_parameters parameters ->
  Forall (fun x => x = 0) (data3 (array_mu_x parameters)) ->
  Forall (fun x => x = 0) (data3 (array_mu_y parameters)) ->
  Forall (fun x => x = 0) (data3 (array_mu_z parameters)) ->
  perform affine_points_fit parameters original_mesh_points
  = Some original_mesh_points.
Proof.
  intros HT HTinv Hinv Hwf Hzx Hzy Hzz.
  rewrite (perform_is_Some _ _ _ _ _ HT HTinv Hwf). f_equal.
  rewrite <- (list_fmap_id original_mesh_points) at 2.
  apply list_fmap_ext. intros _ p _. unfold deform_point, bernstein_shift.
  rewrite !tensor_sum_zero by done. fold pzero.
  destruct (outside _); by rewrite padd_pzero_l, Hinv, padd_psub.
Qed.

(** C7.  Order and length: when [FFD.perform] returns, the output has as
    many points as the input, and its [i]-th point is what
    [FFD.perform] makes of the [i]-th input point taken alone. *)
Theorem perform_preserves_order parameters
    (original_mesh_points out : PointCloud) :
  perform affine_points_fit parameters original_mesh_points = Some out ->
  length out = length original_mesh_points
  /\ forall i p,
      original_mesh_points !! i = Some p ->
      exists q,
        out !! i = Some q
        /\ perform affine_points_fit parameters [p] = Some [q].
Proof.
  intros Hrun.
  pose proof (mk_is_Some _ _ Hrun) as Hsome.
  apply perform_Some in Hrun as (T & Tinv & HT & HTinv & ->).
  split; [by rewrite length_fmap|].
  intros i p Hp. exists (deform_point T Tinv parameters p). split.
  - by rewrite list_lookup_fmap, Hp.
  - by rewrite (perform_is_Some_fit _ _ _ [p] _ _ HT HTinv Hsome).
Qed.

End Perform.

End FFDTheorems.

(** ** Facts on the volume-constrained deformer *)

Module VFFDFacts.
Import FFD VFFD.

(** One step through a [x ← m; k] that returned. *)
Ltac bind_inv H x Hx :=
  match type of H with
  | mbind _ ?m = Some _ =>
      destruct m as [x|] eqn:Hx;
      [cbn [mbind option_bind] in H | discriminate H]
  end.

Section CallFacts.

Variable ffd : FFDParameters -> PointCloud -> option PointCloud.
Variable CFFD_call : VFFD -> PointCloud -> option (FFDParameters * PointCloud).

(** What lines 84-87 leave in the object, field by field. *)
Lemma axis_setup_inv indexes diffvolume src_pts i self pre :
  axis_setup ffd indexes diffvolume src_pts i self = Some pre ->
  exists indexes_i deformed current vweight_i,
    indexes !! i = Some indexes_i
    /\ ffd (parameters self) src_pts = Some deformed
    /\ volume (triangles self) deformed = Some current
    /\ vweight self !! i = Some vweight_i
    /\ pre = mkVFFD (triangles self) (vweight self) indexes_i
                    (eye (length indexes_i))
                    (current + vweight_i * diffvolume) (parameters self).
Proof.
  unfold axis_setup, fun_. intros Hrun.
  bind_inv Hrun indexes_i Hi.
  cbn [parameters triangles vweight set_M set_indices] in Hrun.
  bind_inv Hrun deformed Hd.
  bind_inv Hrun current Hc.
  bind_inv Hrun vweight_i Hw.
  inversion Hrun.
  by exists indexes_i, deformed, current, vweight_i.
Qed.

Lemma axis_pass_inv indexes diffvolume src_pts i self self' :
  axis_pass ffd CFFD_call indexes diffvolume src_pts i self = Some self' ->
  exists pre r,
    axis_setup ffd indexes diffvolume src_pts i self = Some pre
    /\ CFFD_call pre src_pts = Some r
    /\ self' = set_parameters pre r.1.
Proof.
  unfold axis_pass, super_call. intros Hrun.
  bind_inv Hrun pre Hpre.
  destruct (CFFD_call pre src_pts) as [r|] eqn:Hr; simplify_eq/=.
  by exists pre, r.
Qed.

Lemma for_range_3_inv indexes diffvolume src_pts self self3 :
  for_range 3 (axis_pass ffd CFFD_call indexes diffvolume src_pts) self
  = Some self3 ->
  exists pre0 pre1 pre2 r0 r1 r2,
    pass_chain ffd CFFD_call indexes diffvolume src_pts self pre0 pre1 pre2 self3 r0 r1 r2.
Proof.
  unfold for_range. cbn [seq for_loop]. intros Hrun.
  bind_inv Hrun s1 H0. bind_inv Hrun s2 H1. bind_inv Hrun s3 H2.
  inversion Hrun. subst s3.
  apply axis_pass_inv in H0 as (pre0 & r0 & S0 & C0 & ->).
  apply axis_pass_inv in H1 as (pre1 & r1 & S1 & C1 & ->).
  apply axis_pass_inv in H2 as (pre2 & r2 & S2 & C2 & ->).
  exists pre0, pre1, pre2, r0, r1, r2. by repeat split.
Qed.

Lemma axis_passes_inv self src_pts self3 :
  axis_passes ffd CFFD_call self src_pts = Some self3 ->
  exists deformed current pre0 pre1 pre2 r0 r1 r2,
    ffd (parameters self) src_pts = Some deformed
    /\ volume (triangles self) deformed = Some current
    /\ pass_chain ffd CFFD_call
         [channel 0 (indices self); channel 1 (indices self);
          channel 2 (indices self)]
         (fixval self - current) src_pts
         (set_vweight self (normalize (vweight self)))
         pre0 pre1 pre2 self3 r0 r1 r2.
Proof.
  unfold axis_passes, fun_. cbn [parameters set_vweight triangles indices fixval].
  intros Hrun.
  bind_inv Hrun deformed Hd. bind_inv Hrun current Hc.
  apply for_range_3_inv in Hrun as (pre0 & pre1 & pre2 & r0 & r1 & r2 & Hch).
  by exists deformed, current, pre0, pre1, pre2, r0, r1, r2.
Qed.

Lemma call_inv self src_pts self' out :
  call ffd CFFD_call self src_pts = Some (self', out) ->
  exists self3 r,
    axis_passes ffd CFFD_call self src_pts = Some self3
    /\ CFFD_call self3 src_pts = Some r
    /\ self' = set_indices (set_parameters self3 r.1) (indices self)
    /\ out = r.2.
Proof.
  unfold call, super_call. intros Hrun.
  bind_inv Hrun self3 H3.
  destruct (CFFD_call self3 src_pts) as [r|] eqn:Hr; simplify_eq/=.
  by exists self3, r.
Qed.

(** Lines 84-87 in pass [i] build the object the design describes. *)
Lemma axis_setup_target self src_pts diffvolume i s pre :
  axis_setup ffd
    [channel 0 (indices self); channel 1 (indices self);
     channel 2 (indices self)] diffvolume src_pts i s = Some pre ->
  triangles s = triangles self ->
  vweight s = normalize (vweight self) ->
  axis_target ffd self src_pts diffvolume i pre
  /\ parameters pre = parameters s.
Proof.
  intros Hrun Ht Hw.
  apply axis_setup_inv in Hrun
    as (indexes_i & deformed & current & vweight_i & Hi & Hd & Hc & Hwi & ->).
  split; [|done]. unfold axis_target.
  cbn [triangles vweight indices M fixval parameters].
  assert (indexes_i = channel (Z.of_nat i) (indices self)) as ->.
  { destruct i as [|[|[|i]]]; cbn in Hi; by simplify_eq. }
  repeat split; try done.
  exists deformed, current, vweight_i. rewrite <- Ht, <- Hw. by repeat split.
Qed.

Lemma pass_chain_targets self src_pts diffvolume pre0 pre1 pre2 self3 r0 r1 r2 :
  pass_chain ffd CFFD_call
    [channel 0 (indices self); channel 1 (indices self);
     channel 2 (indices self)] diffvolume src_pts
    (set_vweight self (normalize (vweight self)))
    pre0 pre1 pre2 self3 r0 r1 r2 ->
  (axis_target ffd self src_pts diffvolume 0 pre0
   /\ parameters pre0 = parameters self)
  /\ (axis_target ffd self src_pts diffvolume 1 pre1
      /\ parameters pre1 = r0.1)
  /\ (axis_target ffd self src_pts diffvolume 2 pre2
      /\ parameters pre2 = r1.1).
Proof.
  intros (S0 & C0 & S1 & C1 & S2 & C2 & ->).
  apply axis_setup_target in S0 as [T0 P0]; [|done..].
  pose proof T0 as (Ht0 & Hw0 & _).
  apply axis_setup_target in S1 as [T1 P1]; [|done..].
  pose proof T1 as (Ht1 & Hw1 & _).
  apply axis_setup_target in S2 as [T2 P2]; [|done..].
  done.
Qed.

End CallFacts.

End VFFDFacts.

(** ** Facts on the store *)

Module StoreFacts.
Import FFD Store FFDFacts.

Lemma frames_weaken {A : Type} (n : nat) (m : ST A) (Q R : A -> heap -> Prop) :
  frames n m Q -> (forall a h, Q a h -> R a h) -> frames n m R.
Proof.
  intros Hm HQR h a h' Hn Hrun.
  destruct (Hm h a h' Hn Hrun) as (HQ & Hn' & Ht). auto.
Qed.

Lemma frames_ret {A : Type} (n : nat) (a : A) :
  frames n (ret a) (fun _ _ => True).
Proof. intros h b h' Hn Hrun. inversion Hrun. by subst. Qed.

Lemma frames_ret_eq {A : Type} (n : nat) (a : A) :
  frames n (ret a) (fun b _ => b = a).
Proof. intros h b h' Hn Hrun. inversion Hrun. by subst. Qed.

Lemma frames_lift {A : Type} (n : nat) (o : option A) :
  frames n (lift o) (fun _ _ => True).
Proof.
  intros h b h' Hn Hrun. unfold lift in Hrun.
  destruct o; inversion Hrun. by subst.
Qed.

Lemma frames_bind {A B : Type} (n : nat) (m : ST A) (k : A -> ST B)
    (Q : A -> Prop) (R : B -> heap -> Prop) :
  frames n m (fun a _ => Q a) ->
  (forall a, Q a -> frames n (k a) R) ->
  frames n (m ≫= k) R.
Proof.
  intros Hm Hk h b h' Hn Hrun.
  unfold mbind, ST_bind, bind in Hrun.
  destruct (m h) as [[a h1]|] eqn:E; [|done].
  destruct (Hm _ _ _ Hn E) as (HQ & Hn1 & Ht1).
  destruct (Hk a HQ _ _ _ Hn1 Hrun) as (HR & Hn2 & Ht2).
  split; [done|]. split; [done|]. congruence.
Qed.

(** A new object is none of the first [n]. *)
Lemma frames_alloc (n : nat) (v : ndarray) :
  frames n (alloc v) (fun l h => (n <= l)%nat /\ h !! l = Some v).
Proof.
  intros h l h' Hn Hrun. unfold alloc in Hrun. inversion Hrun. subst.
  split; [split; [done|]|].
  - by rewrite lookup_app_r, Nat.sub_diag.
  - split; [rewrite length_app; lia|]. by rewrite take_app_le.
Qed.

Lemma frames_alloc_fresh (n : nat) (v : ndarray) :
  frames n (alloc v) (fun l _ => (n <= l)%nat).
Proof. eapply frames_weaken; [apply frames_alloc|]. by intros l h [? _]. Qed.

Lemma frames_load (n : nat) (l : loc) :
  frames n (load l) (fun _ _ => True).
Proof.
  intros h v h' Hn Hrun. unfold load in Hrun.
  destruct (h !! l); inversion Hrun. by subst.
Qed.

(** Writing into an object that is none of the first [n] leaves them as
    they are. *)
Lemma frames_store (n : nat) (l : loc) (v : ndarray) :
  (n <= l)%nat -> frames n (store l v) (fun _ _ => True).
Proof.
  intros Hl h u h' Hn Hrun. unfold store in Hrun.
  destruct (decide (l < length h)%nat); inversion Hrun. subst.
  split; [done|]. split; [by rewrite length_insert|].
  by rewrite take_insert_ge.
Qed.

Lemma frames_for_st (n : nat) (range : list nat) (body : nat -> ST unit) :
  (forall i, frames n (body i) (fun _ _ => True)) ->
  frames n (for_st range body) (fun _ _ => True).
Proof.
  intros Hbody. induction range as [|i range IH]; cbn [for_st].
  - apply frames_ret.
  - eapply frames_bind with (Q := fun _ => True); [apply Hbody | by intros _ _].
Qed.

Lemma frames_load_points (n : nat) (l : loc) :
  frames n (load_points l) (fun _ _ => True).
Proof.
  unfold load_points.
  eapply frames_bind with (Q := fun _ => True); [apply frames_load|].
  intros [] _; first [apply frames_ret | apply frames_lift].
Qed.

Lemma frames_load_matrix (n : nat) (l : loc) :
  frames n (load_matrix l) (fun _ _ => True).
Proof.
  unfold load_matrix.
  eapply frames_bind with (Q := fun _ => True); [apply frames_load|].
  intros [] _; first [apply frames_ret | apply frames_lift].
Qed.

Lemma frames_load_vector (n : nat) (l : loc) :
  frames n (load_vector l) (fun _ _ => True).
Proof.
  unfold load_vector.
  eapply frames_bind with (Q := fun _ => True); [apply frames_load|].
  intros [] _; first [apply frames_ret | apply frames_lift].
Qed.

Lemma frames_load_row (n : nat) (l : loc) :
  frames n (load_row l) (fun _ _ => True).
Proof.
  unfold load_row.
  eapply frames_bind with (Q := fun _ => True); [apply frames_load|].
  intros [] _; first [apply frames_ret | apply frames_lift].
Qed.

Lemma frames_load_cube (n : nat) (l : loc) :
  frames n (load_cube l) (fun _ _ => True).
Proof.
  unfold load_cube.
  eapply frames_bind with (Q := fun _ => True); [apply frames_load|].
  intros [] _; first [apply frames_ret | apply frames_lift].
Qed.

Create HintDb frames discriminated.
#[export] Hint Resolve frames_ret frames_lift frames_load_points
  frames_load_matrix frames_load_vector frames_load_row frames_load_cube
  : frames.

(** One statement of a computation: an allocation gives a name that is
    none of the first [n]; a write needs its target to be such a name;
    anything else is a read. *)
Ltac frames_step :=
  lazymatch goal with
  | |- frames ?n (mbind _ (alloc _)) _ =>
      eapply (frames_bind n _ _ (fun l => (n <= l)%nat));
      [apply frames_alloc_fresh | intros ? ?]
  | |- frames ?n (mbind _ (store _ _)) _ =>
      eapply (frames_bind n _ _ (fun _ => True));
      [by apply frames_store | intros _ _]
  | |- frames ?n (mbind _ _) _ =>
      eapply (frames_bind n _ _ (fun _ => True));
      [solve [auto with frames] | intros ? _]
  | |- frames ?n (store _ _) _ => by apply frames_store
  | |- frames ?n (ret _) _ => apply frames_ret
  end.

Lemma frames_transform_points (n : nat) (original_points : loc)
    (transformation : Point3 -> Point3) :
  frames n (_transform_points_st original_points transformation)
         (fun l _ => (n <= l)%nat).
Proof.
  unfold _transform_points_st. frames_step. frames_step.
  eapply (frames_bind n _ _ (fun _ => True)).
  - apply frames_for_st. intros i. repeat frames_step.
  - intros _ _. eapply frames_weaken; [apply frames_ret_eq|].
    by intros l h ->.
Qed.

Lemma frames_bernstein_loop (n dim : nat) (axis : Point3 -> Qc)
    (reference bernstein : loc) :
  (n <= bernstein)%nat ->
  frames n (bernstein_loop_st dim axis reference bernstein) (fun _ _ => True).
Proof.
  intros Hb. unfold bernstein_loop_st. apply frames_for_st. intros i.
  repeat frames_step.
Qed.

Lemma frames_accumulate_shift (n : nat) (parameters : FFDParametersRef)
    (dims : nat * nat * nat) (bx by_ bz shift : loc) :
  (n <= shift)%nat ->
  frames n (accumulate_shift_st parameters dims bx by_ bz shift)
         (fun _ _ => True).
Proof.
  intros Hs. unfold accumulate_shift_st. destruct dims as [[dn dm] dt].
  apply frames_for_st. intros i. apply frames_for_st. intros j.
  apply frames_for_st. intros k. repeat frames_step.
Qed.

Lemma frames_mask_outside (n n_rows : nat) (reference shift : loc) :
  (n <= shift)%nat ->
  frames n (mask_outside_st n_rows reference shift) (fun _ _ => True).
Proof.
  intros Hs. unfold mask_outside_st. apply frames_for_st. intros i.
  frames_step. destruct (outside _); repeat frames_step.
Qed.

#[export] Hint Resolve frames_bernstein_loop frames_accumulate_shift
  frames_mask_outside : frames.

(** [perform] on the store touches none of the objects that exist at the
    call, and returns the name of a new object, an array of points. *)
Lemma frames_perform
    (affine_points_fit : list Point3 -> list Point3 -> option (Point3 -> Point3))
    (n : nat) (self : FFDObject) :
  frames n (perform_st affine_points_fit self)
         (fun l h => (n <= l)%nat /\ exists a, h !! l = Some (Points a)).
Proof.
  unfold perform_st. repeat frames_step.
  destruct (shape3 _) as [[dim_n_mu dim_m_mu] dim_t_mu].
  repeat frames_step.
  eapply (frames_bind n _ _ (fun l => (n <= l)%nat));
    [apply frames_transform_points | intros reference Href].
  repeat frames_step.
  eapply (frames_bind n _ _ (fun l => (n <= l)%nat));
    [apply frames_transform_points | intros back Hback].
  repeat frames_step.
  eapply frames_weaken; [apply frames_alloc|].
  intros l h [Hl Hv]. eauto.
Qed.

(** *** What a computation that returned did, statement by statement *)

Lemma updates_refl (w : loc) (h : heap) : updates w h h.
Proof. by split. Qed.

Lemma updates_trans (w w2 : loc) (h0 h h1 : heap) :
  updates w h0 h -> updates w2 h h1 ->
  w2 = w \/ (length h0 <= w2)%nat ->
  updates w h0 h1.
Proof.
  intros [Hlen0 H0] [Hlen1 H1] Hw. split; [lia|].
  intros l Hl Hne. rewrite H1, H0; [done..|lia|lia].
Qed.

Lemma updates_lookup (w : loc) (h h' : heap) (x : loc) (v : ndarray) :
  updates w h h' -> h !! x = Some v -> x <> w -> h' !! x = Some v.
Proof.
  intros [_ H] Hx Hne. rewrite H; [done| |done]. by eapply lookup_lt_Some.
Qed.

Lemma extends_updates (w : loc) (h h' : heap) :
  extends h h' -> updates w h h'.
Proof. intros [Hlen H]. split; [done|]. intros l Hl _. apply H; lia. Qed.

Lemma extends_lookup (h h' : heap) (x : loc) (v : ndarray) :
  extends h h' -> h !! x = Some v -> h' !! x = Some v.
Proof.
  intros He Hx. eapply updates_lookup; [exact He | exact Hx |].
  apply lookup_lt_Some in Hx. lia.
Qed.

Lemma updates_extends (w : loc) (h h' : heap) :
  updates w h h' -> (length h <= w)%nat -> extends h h'.
Proof. intros [Hlen H] Hw. split; [done|]. intros l Hl _. apply H; lia. Qed.

Lemma run_bind {A B : Type} (m : ST A) (k : A -> ST B) (h : heap)
    (r : B * heap) :
  (m ≫= k) h = Some r -> exists a h1, m h = Some (a, h1) /\ k a h1 = Some r.
Proof.
  unfold mbind, ST_bind, bind. destruct (m h) as [[a h1]|]; [|done].
  intros Hk. by exists a, h1.
Qed.

Lemma run_ret {A : Type} (a b : A) (h h1 : heap) :
  ret a h = Some (b, h1) -> b = a /\ h1 = h.
Proof. unfold ret. intros H. by inversion H. Qed.

Lemma run_lift {A : Type} (o : option A) (a : A) (h h1 : heap) :
  lift o h = Some (a, h1) -> o = Some a /\ h1 = h.
Proof. unfold lift. destruct o; intros H; by inversion H. Qed.

Lemma run_alloc (v : ndarray) (h h1 : heap) (l : loc) :
  alloc v h = Some (l, h1) ->
  l = length h /\ h1 !! l = Some v /\ extends h h1.
Proof.
  unfold alloc. intros H. inversion H. subst. split; [done|]. split.
  - by rewrite lookup_app_r, Nat.sub_diag.
  - split; [rewrite length_app; lia|]. intros l Hl _. by rewrite lookup_app_l.
Qed.

Lemma run_store (l : loc) (v : ndarray) (u : unit) (h h1 : heap) :
  store l v h = Some (u, h1) -> h1 !! l = Some v /\ updates l h h1.
Proof.
  unfold store. destruct (decide (l < length h)%nat) as [Hl|]; [|done].
  intros H. inversion H. subst. split; [by apply list_lookup_insert_eq|].
  split; [by rewrite length_insert|].
  intros x _ Hne. by apply list_lookup_insert_ne.
Qed.

Lemma run_load_points (l : loc) (a : PointCloud) (h h1 : heap) :
  load_points l h = Some (a, h1) -> h1 = h /\ h !! l = Some (Points a).
Proof.
  unfold load_points, load, mbind, ST_bind, bind.
  destruct (h !! l) as [[]|]; intros H; by inversion H.
Qed.

Lemma run_load_matrix (l : loc) (a : matrix) (h h1 : heap) :
  load_matrix l h = Some (a, h1) -> h1 = h /\ h !! l = Some (Matrix a).
Proof.
  unfold load_matrix, load, mbind, ST_bind, bind.
  destruct (h !! l) as [[]|]; intros H; by inversion H.
Qed.

Lemma run_load_vector (l : loc) (a : list Qc) (h h1 : heap) :
  load_vector l h = Some (a, h1) -> h1 = h /\ h !! l = Some (Vector a).
Proof.
  unfold load_vector, load, mbind, ST_bind, bind.
  destruct (h !! l) as [[]|]; intros H; by inversion H.
Qed.

Lemma run_load_row (l : loc) (a : Point3) (h h1 : heap) :
  load_row l h = Some (a, h1) -> h1 = h /\ h !! l = Some (Row a).
Proof.
  unfold load_row, load, mbind, ST_bind, bind.
  destruct (h !! l) as [[]|]; intros H; by inversion H.
Qed.

Lemma run_load_cube (l : loc) (a : array3) (h h1 : heap) :
  load_cube l h = Some (a, h1) -> h1 = h /\ h !! l = Some (Cube a).
Proof.
  unfold load_cube, load, mbind, ST_bind, bind.
  destruct (h !! l) as [[]|]; intros H; by inversion H.
Qed.

(** A loop on the store against the same loop on values, when each
    iteration keeps the relation [R] between the store and the value. *)
Lemma for_st_fold {S : Type} (R : heap -> S -> Prop) (step : S -> nat -> S)
    (body : nat -> ST unit) (range : list nat) :
  (forall i h h' s u, R h s -> body i h = Some (u, h') -> R h' (step s i)) ->
  forall h h' s u,
    R h s -> for_st range body h = Some (u, h') ->
    R h' (fold_left step range s).
Proof.
  intros Hbody. induction range as [|i range IH]; intros h h' s u HR Hrun.
  - apply run_ret in Hrun as [_ ->]. done.
  - cbn [for_st] in Hrun. apply run_bind in Hrun as (u1 & h1 & H1 & Hrun).
    cbn [fold_left]. eapply IH; [|exact Hrun]. by eapply Hbody.
Qed.

Lemma for_st_for_loop {S : Type} (R : heap -> S -> Prop)
    (pure_body : nat -> S -> option S) (body : nat -> ST unit)
    (range : list nat) :
  (forall i h h' s u,
      R h s -> body i h = Some (u, h') ->
      exists s', pure_body i s = Some s' /\ R h' s') ->
  forall h h' s u,
    R h s -> for_st range body h = Some (u, h') ->
    exists s', for_loop pure_body range s = Some s' /\ R h' s'.
Proof.
  intros Hbody. induction range as [|i range IH]; intros h h' s u HR Hrun.
  - apply run_ret in Hrun as [_ ->]. by exists s.
  - cbn [for_st] in Hrun. apply run_bind in Hrun as (u1 & h1 & H1 & Hrun).
    destruct (Hbody _ _ _ _ _ HR H1) as (s1 & Hs1 & HR1).
    destruct (IH _ _ _ _ HR1 Hrun) as (s' & Hs' & HR').
    exists s'. split; [|done]. cbn [for_loop]. by rewrite Hs1.
Qed.

(** *** The run on the store against the run on values

A run that returned is taken apart statement by statement.  Along the way
the context holds what is known of the current store (the array at each
name in use), which names were allocated before which, and
[Hacc : updates w h0 h], what the run did so far to the store [h0] it
started from. *)

(** Carry what is known of the store [h] over to [h1]. *)
Ltac carry_extends h h1 Hext :=
  repeat match goal with
  | H : h !! ?x = Some ?v |- _ =>
      let H' := fresh "Hlook" in
      pose proof (extends_lookup h h1 x v Hext H) as H'; clear H
  end.

Ltac carry_updates h h1 Hupd :=
  repeat match goal with
  | H : h !! ?x = Some ?v |- _ =>
      first [ let H' := fresh "Hlook" in
              assert (H' : h1 !! x = Some v)
                by (apply (updates_lookup _ h h1 x v Hupd H); first [assumption | lia]);
              clear H
            | clear H ]
  end.

Ltac below_new h l Hl :=
  repeat match goal with
  | H : h !! ?x = Some _ |- _ =>
      lazymatch goal with
      | _ : (x < l)%nat |- _ => fail
      | _ => let Hlt := fresh "Hlt" in
             assert (Hlt : (x < l)%nat)
               by (rewrite Hl; exact (lookup_lt_Some _ _ _ H))
      end
  end.

(** Use the value already known at a location that has just been read
    into [a]. *)
Ltac known_value Hm a :=
  try match type of Hm with
      | ?h !! ?l = Some _ =>
          match goal with
          | H : h !! l = Some _ |- _ =>
              tryif constr_eq H Hm then fail
              else (rewrite H in Hm; injection Hm as Hm; subst a)
          end
      end.

(** What one primitive statement did: [Hm] is its run from a store to the
    store [h1], with result [a]; [Hacc : updates w h0 h] is what the run
    did before it. *)
Ltac st_prim Hm Hacc a h1 :=
  lazymatch type of Hm with
  | load_points _ _ = _ => apply run_load_points in Hm as [-> Hm]; known_value Hm a
  | load_matrix _ _ = _ => apply run_load_matrix in Hm as [-> Hm]; known_value Hm a
  | load_vector _ _ = _ => apply run_load_vector in Hm as [-> Hm]; known_value Hm a
  | load_row _ _ = _ => apply run_load_row in Hm as [-> Hm]; known_value Hm a
  | load_cube _ _ = _ => apply run_load_cube in Hm as [-> Hm]; known_value Hm a
  | lift _ _ = _ => apply run_lift in Hm as [Hm ->]
  | ret _ _ = _ => apply run_ret in Hm as [-> ->]
  | alloc _ ?h = _ =>
      let Hl := fresh "Hl" in
      let Hext := fresh "Hext" in
      let Hge := fresh "Hge" in
      apply run_alloc in Hm as (Hl & Hm & Hext);
      below_new h a Hl;
      lazymatch type of Hacc with
      | updates _ ?h0 _ =>
          assert (Hge : (length h0 <= a)%nat) by (rewrite Hl; exact (proj1 Hacc))
      end;
      apply (fun U => updates_trans _ _ _ _ _ U Hext (or_intror (proj1 U))) in Hacc;
      carry_extends h h1 Hext; clear Hext Hl
  | store _ _ ?h = _ =>
      let Hupd := fresh "Hupd" in
      apply run_store in Hm as (Hm & Hupd);
      apply (fun U => updates_trans _ _ _ _ _ U Hupd) in Hacc;
        [| first [by left | right; first [assumption | lia]]];
      carry_updates h h1 Hupd; clear Hupd
  end.

(** The first statement of the rest [H] of a run that returned. *)
Ltac st_step H Hacc :=
  let a := fresh "a" in
  let h1 := fresh "h" in
  let Hm := fresh "Hm" in
  apply run_bind in H as (a & h1 & Hm & H);
  st_prim Hm Hacc a h1.

(** The last statement. *)
Ltac st_last H Hacc :=
  lazymatch type of H with
  | _ _ = Some (?a, ?h1) => st_prim H Hacc a h1
  end.

Ltac st_run H Hacc := repeat st_step H Hacc; try st_last H Hacc.

(** Each loop on the store computes in place what the loop on values
    computes, and writes into its target only. *)
Lemma bernstein_loop_st_spec (dim : nat) (axis : Point3 -> Qc)
    (ref bx : loc) (R : PointCloud) (B : matrix) (h h' : heap) (u : unit) :
  h !! ref = Some (Points R) ->
  h !! bx = Some (Matrix B) ->
  ref <> bx ->
  bernstein_loop_st dim axis ref bx h = Some (u, h') ->
  h' !! bx = Some (Matrix (bernstein_loop dim (axis <$> R) B))
  /\ h' !! ref = Some (Points R)
  /\ updates bx h h'.
Proof.
  intros Href Hbx Hne Hrun. unfold bernstein_loop_st in Hrun.
  set (Rel := fun (hc : heap) (Bc : matrix) =>
                hc !! bx = Some (Matrix Bc)
                /\ hc !! ref = Some (Points R) /\ updates bx h hc).
  set (step := fun (bernstein : matrix) (i : nat) =>
                 set_col bernstein i
                   (vscale_l (binom (dim - 1) i)
                      (vmul (vpower (one_minus (axis <$> R)) (dim - 1 - i))
                            (vpower (axis <$> R) i)))).
  match type of Hrun with
  | for_st _ ?body _ = _ =>
      assert (Hbody : forall i hc hc' Bc v,
                 Rel hc Bc -> body i hc = Some (v, hc') -> Rel hc' (step Bc i))
  end.
  { clear Href Hbx Hrun. intros i hc hc' Bc v (Hbx & Href & Hacc) Hrun.
    st_run Hrun Hacc. unfold Rel, step. auto. }
  exact (for_st_fold Rel step _ _ Hbody h h' B u
           (conj Hbx (conj Href (updates_refl _ _))) Hrun).
Qed.

(** What is known of the store [h] is known of [hc] away from [w]. *)
Ltac bring_facts h hc Hacc :=
  repeat match goal with
  | H : h !! ?x = Some ?v |- _ =>
      lazymatch goal with
      | _ : hc !! x = Some _ |- _ => fail
      | _ => let H' := fresh "Hlook" in
             assert (H' : hc !! x = Some v)
               by (apply (updates_lookup _ h hc x v Hacc H); first [assumption | lia])
      end
  end.

Lemma _transform_points_st_spec (src : loc) (T : Point3 -> Point3)
    (P : PointCloud) (h h' : heap) (out : loc) :
  h !! src = Some (Points P) ->
  _transform_points_st src T h = Some (out, h') ->
  h' !! out = Some (Points (_transform_points P T))
  /\ (length h <= out)%nat
  /\ extends h h'.
Proof.
  intros Hsrc Hrun. unfold _transform_points_st in Hrun.
  pose proof (updates_refl (length h) h) as Hacc.
  st_step Hrun Hacc. st_step Hrun Hacc.
  match goal with
  | H : ?hh !! ?l = Some (Points (replicate _ pzero)) |- _ =>
      rename l into modified; rename H into Hmod; rename hh into h1
  end.
  match goal with
  | H : h1 !! src = Some _ |- _ => rename H into Hsrc1
  end.
  apply run_bind in Hrun as (u & h2 & Hloop & Hrun).
  apply run_ret in Hrun as [-> ->].
  set (Rel := fun (hc : heap) (Mc : PointCloud) =>
                hc !! modified = Some (Points Mc)
                /\ hc !! src = Some (Points P) /\ updates modified h1 hc).
  set (step := fun (modified_points : PointCloud) (i : nat) =>
                 <[i := T (P !!! i)]> modified_points).
  match type of Hloop with
  | for_st _ ?body _ = _ =>
      assert (Hbody : forall i hc hc' Mc v,
                 Rel hc Mc -> body i hc = Some (v, hc') -> Rel hc' (step Mc i))
  end.
  { clear Hloop Hacc Hmod Hsrc1. intros i hc hc' Mc v (Hmod & Hsrc & Hacc) Hrun.
    st_run Hrun Hacc. unfold Rel, step. auto. }
  destruct (for_st_fold Rel step _ _ Hbody h1 h2 _ u
              (conj Hmod (conj Hsrc1 (updates_refl _ _))) Hloop)
    as (Hout & _ & Hupd).
  split; [exact Hout|]. split; [done|].
  unfold extends. eapply updates_trans; [exact Hacc | exact Hupd | by right].
Qed.

Lemma mask_outside_st_spec (n : nat) (ref shift : loc) (R S : PointCloud)
    (h h' : heap) (u : unit) :
  h !! ref = Some (Points R) ->
  h !! shift = Some (Points S) ->
  ref <> shift ->
  mask_outside_st n ref shift h = Some (u, h') ->
  h' !! shift = Some (Points (mask_outside n R S))
  /\ updates shift h h'.
Proof.
  intros Href Hshift Hne Hrun. unfold mask_outside_st in Hrun.
  set (Rel := fun (hc : heap) (Sc : PointCloud) =>
                hc !! shift = Some (Points Sc)
                /\ hc !! ref = Some (Points R) /\ updates shift h hc).
  set (step := fun (shift_mesh_points : PointCloud) (i : nat) =>
                 if outside (R !!! i)
                 then <[i := pzero]> shift_mesh_points
                 else shift_mesh_points).
  match type of Hrun with
  | for_st _ ?body _ = _ =>
      assert (Hbody : forall i hc hc' Sc v,
                 Rel hc Sc -> body i hc = Some (v, hc') -> Rel hc' (step Sc i))
  end.
  { clear Href Hshift Hrun. intros i hc hc' Sc v (Hshift & Href & Hacc) Hrun.
    st_step Hrun Hacc. unfold Rel, step.
    destruct (outside (R !!! i)); st_run Hrun Hacc; auto. }
  destruct (for_st_fold Rel step _ _ Hbody h h' S u
              (conj Hshift (conj Href (updates_refl _ _))) Hrun)
    as (Hout & _ & Hupd).
  done.
Qed.

Lemma accumulate_shift_st_spec (refs : FFDParametersRef)
    (parameters : FFDParameters) (bx by_ bz shift : loc)
    (Bx By Bz : matrix) (S : PointCloud) (h h' : heap) (u : unit) :
  h !! array_mu_x_ref refs = Some (Cube (array_mu_x parameters)) ->
  h !! array_mu_y_ref refs = Some (Cube (array_mu_y parameters)) ->
  h !! array_mu_z_ref refs = Some (Cube (array_mu_z parameters)) ->
  h !! bx = Some (Matrix Bx) ->
  h !! by_ = Some (Matrix By) ->
  h !! bz = Some (Matrix Bz) ->
  h !! shift = Some (Points S) ->
  array_mu_x_ref refs <> shift -> array_mu_y_ref refs <> shift ->
  array_mu_z_ref refs <> shift ->
  bx <> shift -> by_ <> shift -> bz <> shift ->
  accumulate_shift_st refs (shape3 (array_mu_x parameters)) bx by_ bz shift h
  = Some (u, h') ->
  exists S',
    accumulate_shift parameters Bx By Bz S = Some S'
    /\ h' !! shift = Some (Points S')
    /\ updates shift h h'.
Proof.
  intros Hmx Hmy Hmz Hbx Hby Hbz Hshift Nmx Nmy Nmz Nbx Nby Nbz Hrun.
  unfold accumulate_shift_st in Hrun. unfold accumulate_shift, for_range.
  destruct (shape3 (array_mu_x parameters)) as [[dn dm] dt].
  set (Rel := fun (hc : heap) (Sc : PointCloud) =>
                hc !! shift = Some (Points Sc) /\ updates shift h hc).
  enough (exists S', _ = Some S' /\ Rel h' S') as (S' & HS' & Hs & Hu)
    by (by exists S').
  eapply (for_st_for_loop Rel); [| |exact Hrun]; [|by split; [|apply updates_refl]].
  intros i h1 h1' S1 u1 HR1 Hrun1.
  eapply (for_st_for_loop Rel); [| |exact Hrun1]; [|done].
  intros j h2 h2' S2 u2 HR2 Hrun2.
  eapply (for_st_for_loop Rel); [| |exact Hrun2]; [|done].
  clear Hshift Hrun Hrun1 Hrun2 HR1 HR2.
  intros k hc hc' Sc v (Hshift & Hacc) Hrun3.
  bring_facts h hc Hacc.
  clear Hmx Hmy Hmz Hbx Hby Hbz.
  st_run Hrun3 Hacc.
  repeat match goal with
         | H : get3 _ _ _ _ = Some _ |- _ => rewrite H; clear H
         end.
  cbn [mbind option_bind]. eexists. split; [reflexivity|]. by split.
Qed.

(** After a call that returned the new name [a] and left the store [h1]
    with [Hext : extends h h1] and [Hge : length h <= a]. *)
Ltac after_call h h1 a Hge Hext Hacc :=
  repeat match goal with
  | H : h !! ?x = Some _ |- _ =>
      lazymatch goal with
      | _ : (x < a)%nat |- _ => fail
      | _ => let Hlt := fresh "Hlt" in
             assert (Hlt : (x < a)%nat)
               by (pose proof (lookup_lt_Some _ _ _ H); lia)
      end
  end;
  lazymatch type of Hacc with
  | updates _ ?h0 _ =>
      let Hge0 := fresh "Hge" in
      assert (Hge0 : (length h0 <= a)%nat) by (pose proof (proj1 Hacc); lia)
  end;
  apply (fun U => updates_trans _ _ _ _ _ U Hext (or_intror (proj1 U))) in Hacc;
  carry_extends h h1 Hext; clear Hext.

Ltac st_call H Hacc :=
  let a := fresh "a" in
  let h1 := fresh "h" in
  let Hm := fresh "Hm" in
  apply run_bind in H as (a & h1 & Hm & H);
  lazymatch type of Hm with
  | _transform_points_st ?src _ ?h = _ =>
      lazymatch goal with
      | Hsrc : h !! src = Some (Points ?P) |- _ =>
          let Hge := fresh "Hge" in
          let Hext := fresh "Hext" in
          apply (_transform_points_st_spec src _ P h _ _ Hsrc) in Hm
            as (Hm & Hge & Hext);
          after_call h h1 a Hge Hext Hacc
      end
  | bernstein_loop_st _ _ ?ref ?bx ?h = _ =>
      lazymatch goal with
      | Href : h !! ref = Some (Points ?R), Hbx : h !! bx = Some (Matrix ?B) |- _ =>
          let Hupd := fresh "Hupd" in
          apply (bernstein_loop_st_spec _ _ ref bx R B h _ _ Href Hbx) in Hm
            as (Hm & _ & Hupd); [|lia];
          apply (fun U => updates_trans _ _ _ _ _ U Hupd) in Hacc;
            [|right; first [assumption | lia]];
          carry_updates h h1 Hupd; clear Hupd
      end
  | mask_outside_st _ ?ref ?shift ?h = _ =>
      lazymatch goal with
      | Href : h !! ref = Some (Points ?R), Hs : h !! shift = Some (Points ?S) |- _ =>
          let Hupd := fresh "Hupd" in
          apply (mask_outside_st_spec _ ref shift R S h _ _ Href Hs) in Hm
            as (Hm & Hupd); [|lia];
          apply (fun U => updates_trans _ _ _ _ _ U Hupd) in Hacc;
            [|right; first [assumption | lia]];
          carry_updates h h1 Hupd; clear Hupd
      end
  | accumulate_shift_st ?refs _ ?bx ?by_ ?bz ?shift ?h = _ =>
      lazymatch goal with
      | Hmx : h !! array_mu_x_ref refs = Some (Cube (array_mu_x ?p)),
        Hmy : h !! array_mu_y_ref refs = Some (Cube (array_mu_y ?p)),
        Hmz : h !! array_mu_z_ref refs = Some (Cube (array_mu_z ?p)),
        Hbx : h !! bx = Some (Matrix ?Bx),
        Hby : h !! by_ = Some (Matrix ?By),
        Hbz : h !! bz = Some (Matrix ?Bz),
        Hs : h !! shift = Some (Points ?S),
        Hshape : shape3 (array_mu_x ?p) = _ |- _ =>
          let Hupd := fresh "Hupd" in
          let S' := fresh "S" in
          let Hpure := fresh "Hpure" in
          rewrite <- Hshape in Hm;
          apply (accumulate_shift_st_spec refs p bx by_ bz shift Bx By Bz S h
                   _ _ Hmx Hmy Hmz Hbx Hby Hbz Hs) in Hm
            as (S' & Hpure & Hm & Hupd); [|lia..];
          apply (fun U => updates_trans _ _ _ _ _ U Hupd) in Hacc;
            [|right; first [assumption | lia]];
          carry_updates h h1 Hupd; clear Hupd
      end
  end.

(** The run on the store computes what [perform] computes: when it
    returns from a store that holds the mesh points and the arrays of
    [parameters] at the names of the object, [perform] returns on those
    values, and the array returned holds its result. *)
Lemma perform_st_refines
    (affine_points_fit : list Point3 -> list Point3 -> option (Point3 -> Point3))
    (self : FFDObject) (parameters : FFDParameters) (pts : PointCloud)
    (h h' : heap) (out : loc) :
  h !! original_mesh_points_ref self = Some (Points pts) ->
  h !! origin_box_ref (parameters_ref self) = Some (Row (origin_box parameters)) ->
  h !! position_vertex_1_ref (parameters_ref self)
  = Some (Row (position_vertex_1 parameters)) ->
  h !! position_vertex_2_ref (parameters_ref self)
  = Some (Row (position_vertex_2 parameters)) ->
  h !! position_vertex_3_ref (parameters_ref self)
  = Some (Row (position_vertex_3 parameters)) ->
  h !! array_mu_x_ref (parameters_ref self) = Some (Cube (array_mu_x parameters)) ->
  h !! array_mu_y_ref (parameters_ref self) = Some (Cube (array_mu_y parameters)) ->
  h !! array_mu_z_ref (parameters_ref self) = Some (Cube (array_mu_z parameters)) ->
  perform_st affine_points_fit self h = Some (out, h') ->
  exists res,
    perform affine_points_fit parameters pts = Some res
    /\ h' !! out = Some (Points res).
Proof.
  intros Hpts Ho H1 H2 H3 Hmx Hmy Hmz Hrun. unfold perform_st in Hrun.
  pose proof (updates_refl (length h) h) as Hacc.
  repeat st_step Hrun Hacc.
  destruct (shape3 (array_mu_x parameters)) as [[dn dm] dt] eqn:Hshape.
  repeat st_step Hrun Hacc.
  st_call Hrun Hacc.
  st_call Hrun Hacc. st_call Hrun Hacc. st_call Hrun Hacc.
  st_call Hrun Hacc. st_call Hrun Hacc.
  repeat st_step Hrun Hacc. st_call Hrun Hacc.
  repeat st_step Hrun Hacc. st_last Hrun Hacc.
  eexists. split; [|exact Hrun].
  unfold perform.
  match goal with
  | H : affine_points_fit ?f reference_frame = Some _ |- _ =>
      change f with (fisical_frame parameters) in H; rewrite H; clear H
  end.
  match goal with
  | H : affine_points_fit reference_frame ?f = Some _ |- _ =>
      change f with (fisical_frame parameters) in H; rewrite H; clear H
  end.
  cbn [mbind option_bind]. rewrite Hshape, Hpure. reflexivity.
Qed.

End StoreFacts.

(** ** The volume-constrained deformer: the properties of the design *)

Module VFFDTheorems.
Import FFD VFFD VFFDFacts.

Section Call.

Variable ffd : FFDParameters -> PointCloud -> option PointCloud.
Variable CFFD_call : VFFD -> PointCloud -> option (FFDParameters * PointCloud).

(** C1, as the code has it.  When [VFFD.__call__] returns, the corrector
    has been called one last time after the three passes, on the object
    as the third pass left it: its indices are still those of the [z]
    channel, not the original set, and its weight matrix is the identity
    of their number.  The points of that last call are the points
    returned, and the indices of the object are back to the original set
    at return, after that call. *)
Theorem call_final_invocation self src_pts self' out :
  call ffd CFFD_call self src_pts = Some (self', out) ->
  exists self3 r,
    axis_passes ffd CFFD_call self src_pts = Some self3
    /\ indices self3 = channel 2 (indices self)
    /\ M self3 = eye (length (indices self3))
    /\ CFFD_call self3 src_pts = Some r
    /\ out = r.2
    /\ indices self' = indices self.
Proof.
  intros Hrun.
  apply call_inv in Hrun as (self3 & r & Hpass & Hcall & -> & ->).
  exists self3, r.
  pose proof Hpass as Hinv.
  apply axis_passes_inv in Hinv
    as (d & c & pre0 & pre1 & pre2 & r0 & r1 & r2 & _ & _ & Hchain).
  pose proof Hchain as (_ & _ & _ & _ & _ & _ & ->).
  apply pass_chain_targets in Hchain as (_ & _ & (_ & _ & Hi & HM & _) & _).
  cbn [indices M set_parameters set_indices] in *.
  by repeat split.
Qed.

(** C2.  When [VFFD.__call__] returns on weights that are not all zero
    (so that line 75 divides by a sum that is not zero), the volume
    deficit [diffvolume = fixval - volume(ffd(src_pts))] has been taken
    once, from the displacement arrays as they were at entry; and in
    each of the passes [x], [y], [z], in that order, the corrector has
    found as target the volume of [ffd(src_pts)] under the displacement
    arrays left by the passes before it, plus its normalised weight
    times that same [diffvolume]. *)
Theorem call_axis_targets self src_pts self' out :
  call ffd CFFD_call self src_pts = Some (self', out) ->
  Qcsum (Qcabs <$> vweight self) <> 0 ->
  exists deformed current,
    ffd (parameters self) src_pts = Some deformed
    /\ volume (triangles self) deformed = Some current
    /\ exists pre0 pre1 pre2 r0 r1 r2,
        CFFD_call pre0 src_pts = Some r0
        /\ CFFD_call pre1 src_pts = Some r1
        /\ CFFD_call pre2 src_pts = Some r2
        /\ parameters pre0 = parameters self
        /\ parameters pre1 = r0.1
        /\ parameters pre2 = r1.1
        /\ axis_target ffd self src_pts (fixval self - current) 0 pre0
        /\ axis_target ffd self src_pts (fixval self - current) 1 pre1
        /\ axis_target ffd self src_pts (fixval self - current) 2 pre2.
Proof.
  intros Hrun _.
  apply call_inv in Hrun as (self3 & r & Hpass & _).
  apply axis_passes_inv in Hpass
    as (d & c & pre0 & pre1 & pre2 & r0 & r1 & r2 & Hd & Hc & Hchain).
  exists d, c. split; [done|]. split; [done|].
  exists pre0, pre1, pre2, r0, r1, r2.
  pose proof Hchain as (_ & C0 & _ & C1 & _ & C2 & _).
  apply pass_chain_targets in Hchain as ((T0 & P0) & (T1 & P1) & (T2 & P2)).
  exact (conj C0 (conj C1 (conj C2 (conj P0 (conj P1 (conj P2
           (conj T0 (conj T1 T2)))))))).
Qed.

(** C8.  When [VFFD.__call__] returns on weights that are not all zero,
    the indices of the object are those it had at entry; the axis
    weights are the normalised ones, absolute values over their sum; and
    the weight matrix and the target are those of the third pass, not
    those at entry: the identity of the size of the [z] channel, and the
    target the corrector found in the pass [z], which is the volume of
    [ffd(src_pts)] under the displacement arrays the passes [x] and [y]
    left, plus the share of [z] in the deficit taken at entry. *)
Theorem call_frame self src_pts self' out :
  call ffd CFFD_call self src_pts = Some (self', out) ->
  Qcsum (Qcabs <$> vweight self) <> 0 ->
  indices self' = indices self
  /\ vweight self' = (fun x => Qcabs x / Qcsum (Qcabs <$> vweight self))
                     <$> vweight self
  /\ M self' = eye (length (channel 2 (indices self)))
  /\ exists deformed current pre0 pre1 pre2 r0 r1 r2,
      ffd (parameters self) src_pts = Some deformed
      /\ volume (triangles self) deformed = Some current
      /\ CFFD_call pre0 src_pts = Some r0
      /\ CFFD_call pre1 src_pts = Some r1
      /\ CFFD_call pre2 src_pts = Some r2
      /\ parameters pre0 = parameters self
      /\ parameters pre1 = r0.1
      /\ parameters pre2 = r1.1
      /\ axis_target ffd self src_pts (fixval self - current) 0 pre0
      /\ axis_target ffd self src_pts (fixval self - current) 1 pre1
      /\ axis_target ffd self src_pts (fixval self - current) 2 pre2
      /\ M self' = M pre2
      /\ fixval self' = fixval pre2.
Proof.
  intros Hrun _.
  apply call_inv in Hrun as (self3 & r & Hpass & _ & -> & _).
  apply axis_passes_inv in Hpass
    as (d & c & pre0 & pre1 & pre2 & r0 & r1 & r2 & Hd & Hc & Hchain).
  pose proof Hchain as (_ & C0 & _ & C1 & _ & C2 & ->).
  apply pass_chain_targets in Hchain as ((T0 & P0) & (T1 & P1) & (T2 & P2)).
  pose proof T2 as (_ & Hw & Hi & HM & _).
  cbn [indices vweight M fixval set_indices set_parameters].
  split; [done|]. split.
  { rewrite Hw. unfold normalize. by rewrite <- list_fmap_compose. }
  split; [by rewrite HM, Hi|].
  exists d, c, pre0, pre1, pre2, r0, r1, r2.
  exact (conj Hd (conj Hc (conj C0 (conj C1 (conj C2 (conj P0 (conj P1
           (conj P2 (conj T0 (conj T1 (conj T2 (conj eq_refl eq_refl)))))))))))).
Qed.

End Call.

End VFFDTheorems.

(** ** The lattice deformer on the store: the property of the design *)

Module StoreTheorems.
Import FFD Store StoreFacts.

(** C10.  [FFD.perform] has no side effect on its inputs: when it returns,
    every array object that existed at the call, the stored mesh points and
    the origin, the vertices and the three displacement arrays of the
    parameters among them, holds what it held; and the array returned is an
    object allocated during the call, so none of those. *)
Theorem perform_st_no_side_effect
    (affine_points_fit : list Point3 -> list Point3 -> option (Point3 -> Point3))
    (self : FFDObject) (h h' : heap) (out : loc) :
  perform_st affine_points_fit self h = Some (out, h') ->
  (forall l v, h !! l = Some v -> h' !! l = Some v)
  /\ h !! out = None
  /\ exists a, h' !! out = Some (Points a).
Proof.
  intros Hrun.
  destruct (frames_perform affine_points_fit (length h) self h out h'
              (le_n _) Hrun) as ((Hfresh & Hout) & Hlen & Htake).
  rewrite (take_ge h) in Htake by lia.
  split; [|split; [by apply lookup_ge_None_2 | done]].
  intros l v Hl. rewrite <- Htake in Hl.
  by apply lookup_take_Some in Hl as [Hl _].
Qed.

End StoreTheorems.

(** ** Facts for the further properties *)

Module GridFacts.
Import FFD Grid Loops FFDFacts.

Lemma for_loop_is_Some_iff {S : Type} (body : nat -> S -> option S)
    (range : list nat) (g : nat -> Prop) :
  (forall i s, is_Some (body i s) <-> g i) ->
  forall s, is_Some (for_loop body range s) <-> forall i, i ∈ range -> g i.
Proof.
  intros Hbody. induction range as [|i range IH]; intros s.
  - split; [intros _ i Hi; by apply elem_of_nil in Hi | by eexists].
  - cbn [for_loop]. split.
    + intros Hrun j Hj. destruct (body i s) as [s1|] eqn:H1;
        [|by destruct Hrun].
      apply elem_of_cons in Hj as [->|Hj].
      * apply (Hbody i s). by rewrite H1.
      * cbn in Hrun. by apply (IH s1).
    + intros Hall. destruct (proj2 (Hbody i s)) as [s1 ->]; [apply Hall; left|].
      cbn. apply IH. intros j Hj. apply Hall. by right.
Qed.

Lemma accumulate_shift_is_Some_iff parameters Bx By Bz shift :
  is_Some (accumulate_shift parameters Bx By Bz shift)
  <-> forall i j k,
      (i < (shape3 (array_mu_x parameters)).1.1)%nat ->
      (j < (shape3 (array_mu_x parameters)).1.2)%nat ->
      (k < (shape3 (array_mu_x parameters)).2)%nat ->
      reads_ok parameters i j k.
Proof.
  unfold accumulate_shift, for_range.
  destruct (shape3 (array_mu_x parameters)) as [[n m] t]. cbn [fst snd].
  rewrite (for_loop_is_Some_iff _ _
             (fun i => forall j, j ∈ seq 0 m ->
                forall k, k ∈ seq 0 t -> reads_ok parameters i j k)).
  - setoid_rewrite elem_of_seq. split.
    + intros H i j k Hi Hj Hk. apply H; lia.
    + intros H i Hi j Hj k Hk. apply H; lia.
  - intros i s.
    apply (for_loop_is_Some_iff _ _
             (fun j => forall k, k ∈ seq 0 t -> reads_ok parameters i j k)).
    intros j s'.
    apply (for_loop_is_Some_iff _ _ (fun k => reads_ok parameters i j k)).
    intros k s''. unfold reads_ok.
    destruct (get3 (array_mu_x parameters) i j k),
      (get3 (array_mu_y parameters) i j k),
      (get3 (array_mu_z parameters) i j k); cbn;
      split; intros H; try (by eexists);
      try (by destruct H as (? & ? & ?); by destruct H as [? ?]).
Qed.

Section ReturnFacts.

Variable affine_points_fit :
  list Point3 -> list Point3 -> option (Point3 -> Point3).

Lemma perform_is_Some_iff parameters (pts : PointCloud) :
  is_Some (perform affine_points_fit parameters pts)
  <-> is_Some (affine_points_fit (fisical_frame parameters) reference_frame)
      /\ is_Some (affine_points_fit reference_frame (fisical_frame parameters))
      /\ forall i j k,
          (i < (shape3 (array_mu_x parameters)).1.1)%nat ->
          (j < (shape3 (array_mu_x parameters)).1.2)%nat ->
          (k < (shape3 (array_mu_x parameters)).2)%nat ->
          reads_ok parameters i j k.
Proof.
  unfold perform.
  destruct (affine_points_fit (fisical_frame parameters) reference_frame)
    as [T|]; cbn [mbind option_bind];
    [|split; [intros [] | intros ([] & _)]; done].
  destruct (affine_points_fit reference_frame (fisical_frame parameters))
    as [Tinv|]; cbn [mbind option_bind];
    [|split; [intros [] | intros (_ & [] & _)]; done].
  rewrite <- (accumulate_shift_is_Some_iff parameters [] [] [] []).
  destruct (shape3 (array_mu_x parameters)) as [[n m] t].
  match goal with
  | |- context [accumulate_shift ?a ?b ?c ?d ?e ≫= _] =>
      pose proof (accumulate_shift_success_indep a b c d e [] [] [] []) as H1;
      pose proof (accumulate_shift_success_indep a [] [] [] [] b c d e) as H2;
      destruct (accumulate_shift a b c d e) as [shift|]
  end; cbn [mbind option_bind].
  - split; [intros _|by eexists]. split; [by eexists|]. split; [by eexists|].
    apply H1. by eexists.
  - split; [intros []; done|]. intros (_ & _ & H). by apply H2.
Qed.

End ReturnFacts.

(** *** More on sums and on the basis polynomials *)

Lemma choose_diag (n : nat) : choose n n = 1%nat.
Proof.
  induction n as [|n IH]; [done|]. cbn [choose].
  by rewrite IH, choose_gt by lia.
Qed.

Lemma binom_diag (n : nat) : binom n n = 1.
Proof. unfold binom. rewrite choose_diag. apply Z2Qc_inj_1. Qed.

Lemma binom_nonneg (n k : nat) : 0 <= binom n k.
Proof.
  unfold binom. rewrite <- Z2Qc_inj_0. apply (proj1 (Z2Qc_inj_le _ _)). lia.
Qed.

Lemma Qcsum_scale {I : Type} (c : Qc) (f : I -> Qc) (l : list I) :
  Qcsum ((fun i => f i * c) <$> l) = Qcsum (f <$> l) * c.
Proof.
  induction l as [|i l IH]; cbn [fmap list_fmap].
  - unfold Qcsum. cbn. ring.
  - rewrite !Qcsum_cons, IH. ring.
Qed.

(** A sum that picks one index. *)
Lemma Qcsum_delta (f : nat -> Qc) (k n : nat) :
  (k < n)%nat ->
  Qcsum ((fun i => (if decide (i = k) then 1 else 0) * f i) <$> seq 0 n) = f k.
Proof.
  intros Hk. induction n as [|n IH]; [lia|].
  rewrite seq_S, fmap_app, Qcsum_app. cbn [fmap list_fmap Nat.add].
  rewrite Qcsum_cons. destruct (decide (n = k)) as [->|Hne].
  - rewrite (Qcsum_ext_in _ (fun _ => 0)).
    + rewrite FFDFacts.Qcsum_zero. unfold Qcsum. cbn. ring.
    + intros i [_ Hi]%elem_of_seq. destruct (decide (i = k)); [lia | ring].
  - rewrite IH by lia. unfold Qcsum. cbn. ring.
Qed.

Lemma Qcsum_nonneg (l : list Qc) : Forall (fun x => 0 <= x) l -> 0 <= Qcsum l.
Proof.
  induction 1 as [|x l Hx Hl IH]; [done|]. rewrite Qcsum_cons.
  replace 0 with (0 + 0) by ring. by apply Qcplus_le_compat.
Qed.

Lemma Qcsum_ge_elem (l : list Qc) (x : Qc) :
  Forall (fun x => 0 <= x) l -> x ∈ l -> x <= Qcsum l.
Proof.
  induction 1 as [|y l Hy Hl IH]; intros Hx; [by apply elem_of_nil in Hx|].
  rewrite Qcsum_cons. apply elem_of_cons in Hx as [->|Hx].
  - replace y with (y + 0) at 1 by ring.
    apply Qcplus_le_compat; [apply Qcle_refl | by apply Qcsum_nonneg].
  - replace x with (0 + x) by ring. apply Qcplus_le_compat; auto.
Qed.

Lemma bernstein_poly_sum (d : nat) (r : Qc) :
  (1 <= d)%nat -> Qcsum ((fun i => bernstein_poly d i r) <$> seq 0 d) = 1.
Proof.
  intros Hd. destruct d as [|n]; [lia|].
  rewrite (Qcsum_ext_in _ (binomial_term (1 - r) r n)).
  - rewrite binomial_theorem. replace (1 - r + r) with 1 by ring.
    apply Qcpower_1.
  - intros i _. unfold bernstein_poly, binomial_term.
    replace (S n - 1)%nat with n by lia. ring.
Qed.

Lemma bernstein_poly_nonneg (d i : nat) (r : Qc) :
  0 <= r -> r <= 1 -> 0 <= bernstein_poly d i r.
Proof.
  intros H0 H1. unfold bernstein_poly.
  repeat apply Qcmult_nonneg_nonneg.
  - apply binom_nonneg.
  - apply Qcpower_pos. unfold Qcminus.
    replace 0 with (r + - r) by ring. by apply Qcplus_le_compat.
  - by apply Qcpower_pos.
Qed.

Lemma bernstein_poly_at_0 (d i : nat) :
  (i < d)%nat -> bernstein_poly d i 0 = if decide (i = 0%nat) then 1 else 0.
Proof.
  intros Hi. unfold bernstein_poly. replace (1 - 0) with 1 by ring.
  rewrite Qcpower_1. destruct (decide (i = 0%nat)) as [->|Hne].
  - rewrite binom_0_r. cbn [Qcpower]. ring.
  - rewrite Qcpower_0 by done. ring.
Qed.

Lemma bernstein_poly_at_1 (d i : nat) :
  (i < d)%nat ->
  bernstein_poly d i 1 = if decide (i = (d - 1)%nat) then 1 else 0.
Proof.
  intros Hi. unfold bernstein_poly. replace (1 - 1) with 0 by ring.
  rewrite Qcpower_1. destruct (decide (i = (d - 1)%nat)) as [->|Hne].
  - rewrite binom_diag, Nat.sub_diag. cbn [Qcpower]. ring.
  - rewrite Qcpower_0 by lia. ring.
Qed.

Lemma Qcsum_delta_scaled (c : Qc) (f g : nat -> Qc) (k n : nat) :
  (k < n)%nat ->
  (forall i, (i < n)%nat ->
     g i = c * ((if decide (i = k) then 1 else 0) * f i)) ->
  Qcsum (g <$> seq 0 n) = c * f k.
Proof.
  intros Hk Hg.
  rewrite (Qcsum_ext_in g (fun i => (if decide (i = k) then 1 else 0) * f i * c)).
  - rewrite Qcsum_scale, Qcsum_delta by done. ring.
  - intros i [_ Hi]%elem_of_seq. rewrite Hg by lia. ring.
Qed.

(** Where each basis picks one index, the tensor-product sum picks one
    entry of the displacement array. *)
Lemma tensor_sum_delta (n m t : nat) (a : array3) (r : Point3) (i0 j0 k0 : nat) :
  (i0 < n)%nat -> (j0 < m)%nat -> (k0 < t)%nat ->
  (forall i, (i < n)%nat ->
     bernstein_poly n i (px r) = if decide (i = i0) then 1 else 0) ->
  (forall j, (j < m)%nat ->
     bernstein_poly m j (py r) = if decide (j = j0) then 1 else 0) ->
  (forall k, (k < t)%nat ->
     bernstein_poly t k (pz r) = if decide (k = k0) then 1 else 0) ->
  tensor_sum (n, m, t) a r = mu_entry a i0 j0 k0.
Proof.
  intros Hi0 Hj0 Hk0 Hx Hy Hz. unfold tensor_sum.
  transitivity (1 * mu_entry a i0 j0 k0); [|ring].
  apply (Qcsum_delta_scaled 1 (fun i => mu_entry a i j0 k0)); [done|].
  intros i Hi. cbv beta.
  transitivity ((if decide (i = i0) then 1 else 0) * mu_entry a i j0 k0); [|ring].
  apply (Qcsum_delta_scaled _ (fun j => mu_entry a i j k0)); [done|].
  intros j Hj. cbv beta.
  transitivity ((if decide (i = i0) then 1 else 0)
                * (if decide (j = j0) then 1 else 0) * mu_entry a i j k0); [|ring].
  apply (Qcsum_delta_scaled _ (fun k => mu_entry a i j k)); [done|].
  intros k Hk. cbv beta. rewrite Hx, Hy, Hz by done. ring.
Qed.

Lemma get3_is_Some_iff (a : array3) (i j k : nat) :
  wf_array3 a ->
  is_Some (get3 a i j k)
  <-> (i < (shape3 a).1.1)%nat /\ (j < (shape3 a).1.2)%nat
      /\ (k < (shape3 a).2)%nat.
Proof.
  intros Hwf. split.
  - unfold get3. destruct (shape3 a) as [[n m] t]. cbn [fst snd].
    destruct (Nat.ltb_spec i n), (Nat.ltb_spec j m), (Nat.ltb_spec k t);
      cbn [andb]; try (by intros []); done.
  - destruct (shape3 a) as [[n m] t] eqn:Hs. cbn [fst snd].
    intros (Hi & Hj & Hk). by eapply get3_is_Some.
Qed.

Lemma get3_elem_of (a : array3) (i j k : nat) (x : Qc) :
  get3 a i j k = Some x -> x ∈ data3 a.
Proof.
  unfold get3. destruct (shape3 a) as [[n m] t].
  destruct (_ && _); [|done]. apply list_elem_of_lookup_2.
Qed.

Lemma Qcsum_le {I : Type} (f g : I -> Qc) (l : list I) :
  (forall i, i ∈ l -> f i <= g i) -> Qcsum (f <$> l) <= Qcsum (g <$> l).
Proof.
  induction l as [|i l IH]; intros Hfg; cbn [fmap list_fmap].
  - apply Qcle_refl.
  - rewrite !Qcsum_cons. apply Qcplus_le_compat.
    + apply Hfg. by left.
    + apply IH. intros i' Hi'. apply Hfg. by right.
Qed.

(** The tensor weights of a point are the products of three basis
    entries; with every grid size at least one they sum to one. *)
Lemma tensor_weights_total (n m t : nat) (r : Point3) (c : Qc) :
  (1 <= n)%nat -> (1 <= m)%nat -> (1 <= t)%nat ->
  Qcsum ((fun i =>
    Qcsum ((fun j =>
      Qcsum ((fun k =>
        bernstein_poly n i (px r) * bernstein_poly m j (py r)
        * bernstein_poly t k (pz r) * c) <$> seq 0 t))
      <$> seq 0 m))
    <$> seq 0 n) = c.
Proof.
  intros Hn Hm Ht.
  rewrite (Qcsum_ext_in _ (fun i => bernstein_poly n i (px r) * c)).
  - by rewrite Qcsum_scale, bernstein_poly_sum, Qcmult_1_l.
  - intros i _.
    rewrite (Qcsum_ext_in _ (fun j =>
               bernstein_poly m j (py r) * (bernstein_poly n i (px r) * c))).
    + rewrite Qcsum_scale, bernstein_poly_sum by done. ring.
    + intros j _.
      rewrite (Qcsum_ext_in _ (fun k =>
                 bernstein_poly t k (pz r)
                 * (bernstein_poly n i (px r) * bernstein_poly m j (py r) * c))).
      * rewrite Qcsum_scale, bernstein_poly_sum by done. ring.
      * intros k _. ring.
Qed.

Lemma tensor_sum_le (n m t : nat) (a b : nat -> nat -> nat -> Qc) (r : Point3) :
  0 <= px r <= 1 -> 0 <= py r <= 1 -> 0 <= pz r <= 1 ->
  (forall i j k, (i < n)%nat -> (j < m)%nat -> (k < t)%nat ->
     a i j k <= b i j k) ->
  Qcsum ((fun i =>
    Qcsum ((fun j =>
      Qcsum ((fun k =>
        bernstein_poly n i (px r) * bernstein_poly m j (py r)
        * bernstein_poly t k (pz r) * a i j k) <$> seq 0 t))
      <$> seq 0 m))
    <$> seq 0 n)
  <= Qcsum ((fun i =>
    Qcsum ((fun j =>
      Qcsum ((fun k =>
        bernstein_poly n i (px r) * bernstein_poly m j (py r)
        * bernstein_poly t k (pz r) * b i j k) <$> seq 0 t))
      <$> seq 0 m))
    <$> seq 0 n).
Proof.
  intros [Hx0 Hx1] [Hy0 Hy1] [Hz0 Hz1] Hab.
  apply Qcsum_le. intros i [_ Hi]%elem_of_seq.
  apply Qcsum_le. intros j [_ Hj]%elem_of_seq.
  apply Qcsum_le. intros k [_ Hk]%elem_of_seq.
  rewrite !(Qcmult_comm _ (a i j k)), !(Qcmult_comm _ (b i j k)).
  apply Qcmult_le_compat_r.
  - apply Hab; lia.
  - apply Qcmult_nonneg_nonneg; [apply Qcmult_nonneg_nonneg|];
      by apply bernstein_poly_nonneg.
Qed.

(** A tensor-product sum of a point inside the box lies between any
    two bounds of the entries it reads. *)
Lemma tensor_sum_bounds (n m t : nat) (a : array3) (r : Point3) (lo hi : Qc) :
  (1 <= n)%nat -> (1 <= m)%nat -> (1 <= t)%nat ->
  0 <= px r <= 1 -> 0 <= py r <= 1 -> 0 <= pz r <= 1 ->
  (forall i j k, (i < n)%nat -> (j < m)%nat -> (k < t)%nat ->
     lo <= mu_entry a i j k <= hi) ->
  lo <= tensor_sum (n, m, t) a r <= hi.
Proof.
  intros Hn Hm Ht Hx Hy Hz Hb. unfold tensor_sum. split.
  - rewrite <- (tensor_weights_total n m t r lo) at 1 by done.
    apply (tensor_sum_le n m t (fun _ _ _ => lo) (mu_entry a)); try done.
    intros i j k Hi Hj Hk. by apply Hb.
  - rewrite <- (tensor_weights_total n m t r hi) at 1 by done.
    apply (tensor_sum_le n m t (mu_entry a) (fun _ _ _ => hi)); try done.
    intros i j k Hi Hj Hk. by apply Hb.
Qed.

Lemma tensor_sum_empty (dims : nat * nat * nat) (a : array3) (r : Point3) :
  empty_shape dims -> tensor_sum dims a r = 0.
Proof.
  destruct dims as [[n m] t]. unfold empty_shape, tensor_sum. cbn [fst snd].
  intros [-> | [-> | ->]].
  - done.
  - rewrite <- (FFDFacts.Qcsum_zero (seq 0 n)). by apply Qcsum_ext_in.
  - rewrite <- (FFDFacts.Qcsum_zero (seq 0 n)). apply Qcsum_ext_in. intros i _.
    rewrite <- (FFDFacts.Qcsum_zero (seq 0 m)). by apply Qcsum_ext_in.
Qed.

Lemma corner_basis (dim i : nat) (c : Qc) :
  c = 0 \/ c = 1 -> (i < dim)%nat ->
  bernstein_poly dim i c = if decide (i = corner_index dim c) then 1 else 0.
Proof.
  unfold corner_index. intros [-> | ->] Hi.
  - rewrite bernstein_poly_at_0 by done.
    by destruct (decide ((0 : Qc) = 0)).
  - rewrite bernstein_poly_at_1 by done.
    by destruct (decide ((1 : Qc) = 0)) as [H|_]; [discriminate H|].
Qed.

Lemma corner_index_lt (dim : nat) (c : Qc) :
  (1 <= dim)%nat -> (corner_index dim c < dim)%nat.
Proof. unfold corner_index. destruct (decide _); lia. Qed.

Lemma _transform_points_length (original_points : PointCloud)
    (transformation : Point3 -> Point3) :
  length (_transform_points original_points transformation)
  = length original_points.
Proof. by rewrite _transform_points_fmap, length_fmap. Qed.

Section PointFacts.

Variable affine_points_fit :
  list Point3 -> list Point3 -> option (Point3 -> Point3).

(** What [perform] makes of a point inside the box, when it returns. *)
Lemma perform_inside parameters (pts out : PointCloud)
    (T Tinv : Point3 -> Point3) (q : nat) (p : Point3) :
  perform affine_points_fit parameters pts = Some out ->
  affine_points_fit (fisical_frame parameters) reference_frame = Some T ->
  affine_points_fit reference_frame (fisical_frame parameters) = Some Tinv ->
  pts !! q = Some p ->
  outside (T (psub p (origin_box parameters))) = false ->
  out !! q
  = Some (padd (Tinv (padd (bernstein_shift parameters
                              (T (psub p (origin_box parameters))))
                           (T (psub p (origin_box parameters)))))
               (origin_box parameters)).
Proof.
  intros Hrun HT HTinv Hp Hin.
  apply perform_Some in Hrun as (T' & Tinv' & HT' & HTinv' & ->).
  assert (T' = T) as -> by congruence.
  assert (Tinv' = Tinv) as -> by congruence.
  rewrite list_lookup_fmap, Hp. cbn. unfold deform_point. by rewrite Hin.
Qed.

(** When [perform] returns, every entry within the shape of
    [array_mu_x] has been read in the three arrays. *)
Lemma perform_reads parameters (pts out : PointCloud) (i j k : nat) :
  perform affine_points_fit parameters pts = Some out ->
  (i < (shape3 (array_mu_x parameters)).1.1)%nat ->
  (j < (shape3 (array_mu_x parameters)).1.2)%nat ->
  (k < (shape3 (array_mu_x parameters)).2)%nat ->
  reads_ok parameters i j k.
Proof.
  intros Hrun. 
  assert (Hsome : is_Some (perform affine_points_fit parameters pts))
    by (by eexists).
  apply perform_is_Some_iff in Hsome as (_ & _ & Hreads). apply Hreads.
Qed.

End PointFacts.

Lemma choose_absorb (n k : nat) :
  (S k * choose (S n) (S k) = S n * choose n k)%nat.
Proof.
  assert (H0 : forall n', choose n' 0 = 1%nat) by (by intros []).
  revert k. induction n as [|n IH]; intros k.
  - destruct k as [|k]; cbn [choose]; [lia|].
    destruct k; cbn [choose]; lia.
  - destruct k as [|k].
    + specialize (IH 0%nat). cbn [choose] in *. rewrite !H0 in *. lia.
    + pose proof (IH k) as IHk. pose proof (IH (S k)) as IHSk.
      assert (E1 : choose (S (S n)) (S (S k))
                   = (choose (S n) (S k) + choose (S n) (S (S k)))%nat)
        by reflexivity.
      assert (E2 : choose (S n) (S k) = (choose n k + choose n (S k))%nat)
        by reflexivity.
      rewrite E1. nia.
Qed.

Lemma binom_absorb (n k : nat) :
  Qc_of_Z (Z.of_nat (S k)) * binom (S n) (S k)
  = Qc_of_Z (Z.of_nat (S n)) * binom n k.
Proof.
  unfold binom. rewrite <- !Z2Qc_inj_mul, <- !Nat2Z.inj_mul.
  by rewrite choose_absorb.
Qed.

(** The mean of the binomial distribution. *)
Lemma binomial_mean (a b : Qc) (n : nat) :
  Qcsum ((fun i => Qc_of_Z (Z.of_nat i) * binomial_term a b (S n) i)
         <$> seq 0 (S (S n)))
  = Qc_of_Z (Z.of_nat (S n)) * b * (a + b) ^ n.
Proof.
  rewrite seq_0_S. cbn [fmap list_fmap]. rewrite Qcsum_cons, <- list_fmap_compose.
  rewrite (Qcsum_ext_in _ (fun j => binomial_term a b n j
                                    * (Qc_of_Z (Z.of_nat (S n)) * b))).
  - rewrite Qcsum_scale, binomial_theorem.
    replace (Qc_of_Z (Z.of_nat 0)) with 0 by (symmetry; apply Z2Qc_inj_0).
    ring.
  - intros j [_ Hj]%elem_of_seq. cbn [compose]. unfold binomial_term.
    rewrite Qcmult_assoc, binom_absorb.
    replace (S n - S j)%nat with (n - j)%nat by lia.
    cbn [Qcpower]. ring.
Qed.

(** Linear precision of the basis: the basis entries, weighted by the
    positions of their control points, give back the coordinate. *)
Lemma bernstein_poly_mean (d : nat) (r : Qc) :
  (2 <= d)%nat ->
  Qcsum ((fun i => bernstein_poly d i r * grade d i) <$> seq 0 d) = r.
Proof.
  intros Hd. destruct d as [|[|n]]; [lia..|].
  unfold grade. replace (S (S n) - 1)%nat with (S n) by lia.
  assert (Hne : Qc_of_Z (Z.of_nat (S n)) <> 0).
  { rewrite <- Z2Qc_inj_0. intros H%Z2Qc_inj. lia. }
  rewrite (Qcsum_ext_in _ (fun i =>
             Qc_of_Z (Z.of_nat i) * binomial_term (1 - r) r (S n) i
             * / Qc_of_Z (Z.of_nat (S n)))).
  - rewrite Qcsum_scale, binomial_mean.
    replace (1 - r + r) with 1 by ring. rewrite Qcpower_1. field. done.
  - intros i _. unfold bernstein_poly, binomial_term, Qcdiv.
    replace (S (S n) - 1)%nat with (S n) by lia. ring.
Qed.

(** A displacement array that is a product of one factor per axis gives
    a tensor-product sum that is the product of three sums. *)
Lemma tensor_sum_separable (n m t : nat) (a : array3) (r : Point3)
    (f g h : nat -> Qc) :
  (forall i j k, (i < n)%nat -> (j < m)%nat -> (k < t)%nat ->
     mu_entry a i j k = f i * g j * h k) ->
  tensor_sum (n, m, t) a r
  = Qcsum ((fun i => bernstein_poly n i (px r) * f i) <$> seq 0 n)
    * Qcsum ((fun j => bernstein_poly m j (py r) * g j) <$> seq 0 m)
    * Qcsum ((fun k => bernstein_poly t k (pz r) * h k) <$> seq 0 t).
Proof.
  intros Ha. unfold tensor_sum.
  set (SY := Qcsum ((fun j => bernstein_poly m j (py r) * g j) <$> seq 0 m)).
  set (SZ := Qcsum ((fun k => bernstein_poly t k (pz r) * h k) <$> seq 0 t)).
  rewrite <- Qcmult_assoc, <- Qcsum_scale.
  apply Qcsum_ext_in. intros i [_ Hi]%elem_of_seq. cbv beta.
  transitivity (SY * (bernstein_poly n i (px r) * f i * SZ)); [|ring].
  unfold SY. rewrite <- Qcsum_scale.
  apply Qcsum_ext_in. intros j [_ Hj]%elem_of_seq. cbv beta.
  transitivity (SZ * (bernstein_poly n i (px r) * f i
                      * (bernstein_poly m j (py r) * g j))); [|ring].
  unfold SZ. rewrite <- Qcsum_scale.
  apply Qcsum_ext_in. intros k [_ Hk]%elem_of_seq. cbv beta.
  rewrite Ha by lia. ring.
Qed.

Lemma bernstein_poly_sum_1 (d : nat) (r : Qc) :
  (1 <= d)%nat -> Qcsum ((fun i => bernstein_poly d i r * 1) <$> seq 0 d) = 1.
Proof.
  intros Hd.
  transitivity (Qcsum ((fun i => bernstein_poly d i r) <$> seq 0 d));
    [|by apply bernstein_poly_sum].
  apply Qcsum_ext_in. intros i _. ring.
Qed.

Lemma bernstein_poly_mean_scaled (d : nat) (r c : Qc) :
  (2 <= d)%nat ->
  Qcsum ((fun i => bernstein_poly d i r * (c * grade d i)) <$> seq 0 d)
  = c * r.
Proof.
  intros Hd.
  transitivity (Qcsum ((fun i => bernstein_poly d i r * grade d i) <$> seq 0 d)
                * c); [|rewrite bernstein_poly_mean by done; ring].
  rewrite <- Qcsum_scale. apply Qcsum_ext_in. intros i _. ring.
Qed.

Lemma fisical_frame_translate (parameters : FFDParameters) (t : Point3) :
  fisical_frame (translate_box parameters t) = fisical_frame parameters.
Proof.
  unfold fisical_frame, translate_box. cbn [origin_box position_vertex_1
    position_vertex_2 position_vertex_3].
  assert (H : forall v o, psub (padd v t) (padd o t) = psub v o).
  { intros v o. unfold psub, padd. cbn [px py pz]. f_equal; ring. }
  by rewrite !H.
Qed.

End GridFacts.

Module MeshFacts.
Import FFD VFFD Mesh GridFacts.

Lemma Qcabs_nonneg (x : Qc) : 0 <= Qcabs x.
Proof.
  unfold Qcabs. destruct (Qcltb x 0) eqn:Hx.
  - apply Qcltb_lt in Hx. apply Qclt_le_weak in Hx.
    apply Qcopp_le_compat in Hx. by replace (- 0) with 0 in Hx by ring.
  - by apply Qcltb_ge in Hx.
Qed.

Lemma Qcabs_of_nonneg (x : Qc) : 0 <= x -> Qcabs x = x.
Proof.
  intros Hx. unfold Qcabs. destruct (Qcltb x 0) eqn:Hlt; [|done].
  apply Qcltb_lt in Hlt. exfalso. by apply (Qcle_not_lt _ _ Hx).
Qed.

Lemma Qcdiv_1_r (x : Qc) : x / 1 = x.
Proof. field. intros H; discriminate H. Qed.

Lemma normalize_length (v : list Qc) : length (normalize v) = length v.
Proof. unfold normalize. by rewrite !length_fmap. Qed.

Lemma normalize_sum (v : list Qc) :
  Qcsum (Qcabs <$> v) <> 0 -> Qcsum (normalize v) = 1.
Proof.
  intros Hs. unfold normalize.
  pose proof (Qcsum_scale (/ Qcsum (Qcabs <$> v)) id (Qcabs <$> v)) as H.
  unfold Qcdiv. cbn [id] in H.
  rewrite (list_fmap_id (Qcabs <$> v)) in H.
  change (fun i : Qc => id i * / Qcsum (Qcabs <$> v))
    with (fun x : Qc => x * / Qcsum (Qcabs <$> v)) in H.
  rewrite H. by apply Qcmult_inv_r.
Qed.

Lemma Qcsum_abs_nonneg (v : list Qc) : 0 <= Qcsum (Qcabs <$> v).
Proof.
  apply Qcsum_nonneg, Forall_fmap, Forall_true. intros x. apply Qcabs_nonneg.
Qed.

Lemma normalize_nonneg (v : list Qc) : Forall (fun x => 0 <= x) (normalize v).
Proof.
  unfold normalize. apply Forall_fmap, Forall_fmap, Forall_true. intros x.
  cbn. unfold Qcdiv. apply Qcmult_nonneg_nonneg; [apply Qcabs_nonneg|].
  pose proof (Qcsum_abs_nonneg v) as Hs.
  destruct (decide (Qcsum (Qcabs <$> v) = 0)) as [->|Hne]; [done|].
  apply Qclt_le_weak, Qcinv_pos. apply Qcle_lt_or_eq in Hs as [Hs|Hs]; [done|].
  by destruct Hne.
Qed.

Lemma normalize_fixed (v : list Qc) :
  Forall (fun x => 0 <= x) v -> Qcsum v = 1 -> normalize v = v.
Proof.
  intros Hv Hs. unfold normalize.
  assert (Qcabs <$> v = v) as ->.
  { rewrite <- (list_fmap_id v) at 2. apply Forall_fmap_ext.
    eapply list.Forall_impl; [exact Hv|]. intros x Hx. by apply Qcabs_of_nonneg. }
  rewrite Hs. rewrite <- (list_fmap_id v) at 2. apply list_fmap_ext.
  intros _ x _. apply Qcdiv_1_r.
Qed.

(** *** Indexing and the volume functional *)

Lemma py_index_is_Some {A : Type} (x : list A) (i : Z) :
  is_Some (py_index x i) <-> in_range (length x) i.
Proof.
  unfold py_index, in_range.
  destruct (Z.leb_spec 0 i) as [Hi|Hi].
  - rewrite lookup_lt_is_Some. lia.
  - destruct (Z.leb_spec (- Z.of_nat (length x)) i) as [Hn|Hn].
    + rewrite lookup_lt_is_Some. lia.
    + split; [by intros []|lia].
Qed.

Lemma py_index_fmap {A B : Type} (f : A -> B) (x : list A) (i : Z) :
  py_index (f <$> x) i = f <$> py_index x i.
Proof.
  unfold py_index. rewrite length_fmap, !list_lookup_fmap.
  by repeat destruct (_ <=? _)%Z.
Qed.

Lemma volume_nil (x : PointCloud) : volume [] x = Some 0.
Proof. reflexivity. Qed.

Lemma volume_cons (t : Z * Z * Z) (triangles : list (Z * Z * Z))
    (x : PointCloud) :
  volume (t :: triangles) x
  = r ← tri_rows x t; v ← volume triangles x; Some (tri_det r + v).
Proof.
  unfold volume, tri_rows. destruct t as [[a b] c]. cbn [mapM].
  destruct (py_index x a) as [pa|]; [|done].
  destruct (py_index x b) as [pb|]; [|done].
  destruct (py_index x c) as [pc|]; [|done].
  cbn [mbind option_bind mret option_ret].
  destruct (mapM _ triangles) as [mesh|]; [|done].
  cbn [mbind option_bind mret option_ret fmap list_fmap].
  by rewrite Qcsum_cons.
Qed.

Lemma tri_rows_is_Some (x : PointCloud) (t : Z * Z * Z) :
  is_Some (tri_rows x t)
  <-> in_range (length x) t.1.1 /\ in_range (length x) t.1.2
      /\ in_range (length x) t.2.
Proof.
  destruct t as [[a b] c]. cbn [fst snd]. unfold tri_rows.
  rewrite <- !py_index_is_Some.
  destruct (py_index x a), (py_index x b), (py_index x c);
    cbn [mbind option_bind]; split;
    first [by intros [] | by intros ([] & [] & []) | by intros _; eauto
          | by intros (_ & _ & _); eauto].
Qed.

Lemma tri_rows_fmap (f : Point3 -> Point3) (x : PointCloud) (t : Z * Z * Z) :
  tri_rows (f <$> x) t
  = (fun r : Point3 * Point3 * Point3 => (f r.1.1, f r.1.2, f r.2))
    <$> tri_rows x t.
Proof.
  destruct t as [[a b] c]. unfold tri_rows. rewrite !py_index_fmap.
  by destruct (py_index x a), (py_index x b), (py_index x c).
Qed.

(** A map of the rows that multiplies every determinant by [k]
    multiplies the volume functional by [k]. *)
Lemma volume_fmap (f : Point3 -> Point3) (k : Qc)
    (triangles : list (Z * Z * Z)) (x : PointCloud) :
  (forall a b c, det (f a) (f b) (f c) = k * det a b c) ->
  volume triangles (f <$> x) = Qcmult k <$> volume triangles x.
Proof.
  intros Hdet. induction triangles as [|t triangles IH].
  - rewrite !volume_nil. cbn. f_equal. ring.
  - rewrite !volume_cons, tri_rows_fmap, IH.
    destruct (tri_rows x t) as [[[pa pb] pc]|]; [|done].
    destruct (volume triangles x) as [v|]; [|done].
    cbn. f_equal. rewrite Hdet. ring.
Qed.

(** Three weights, normalised, are three shares that sum to one. *)
Lemma normalize_three (v : list Qc) :
  length v = 3%nat -> Qcsum (Qcabs <$> v) <> 0 ->
  exists w0 w1 w2, normalize v = [w0; w1; w2] /\ w0 + w1 + w2 = 1.
Proof.
  intros Hlen Hs. pose proof (normalize_sum v Hs) as Hsum.
  pose proof (normalize_length v) as Hl. rewrite Hlen in Hl.
  destruct (normalize v) as [|w0 [|w1 [|w2 [|w3 l]]]]; try done.
  exists w0, w1, w2. split; [done|]. rewrite <- Hsum. unfold Qcsum. cbn. ring.
Qed.

End MeshFacts.

Module RunFacts.
Import FFD Store StoreFacts.

(** A loop on the store that runs: each iteration returns and keeps the
    relation [R] between the store and the value of the same loop on
    values. *)
Lemma for_st_runs {S : Type} (R : heap -> S -> Prop) (step : S -> nat -> S)
    (body : nat -> ST unit) (range : list nat) :
  (forall i h s, i ∈ range -> R h s ->
     exists h', body i h = Some (tt, h') /\ R h' (step s i)) ->
  forall h s,
    R h s ->
    exists h', for_st range body h = Some (tt, h')
               /\ R h' (fold_left step range s).
Proof.
  induction range as [|i range IH]; intros Hbody h s HR.
  - by exists h.
  - destruct (Hbody i h s) as (h1 & H1 & HR1); [by left | done |].
    destruct (IH (fun j h s Hj => Hbody j h s (list_elem_of_further _ _ _ Hj))
                h1 (step s i) HR1) as (h' & Hrun & HR').
    exists h'. split; [|done].
    cbn [for_st]. unfold mbind, ST_bind, bind. by rewrite H1.
Qed.

Lemma bind_runs {A B : Type} (m : ST A) (k : A -> ST B) (h h1 : heap) (a : A) :
  m h = Some (a, h1) -> (m ≫= k) h = k a h1.
Proof. unfold mbind, ST_bind, bind. by intros ->. Qed.

Lemma load_points_runs (l : loc) (a : PointCloud) (h : heap) :
  h !! l = Some (Points a) -> load_points l h = Some (a, h).
Proof. unfold load_points, load, mbind, ST_bind, bind. by intros ->. Qed.

Lemma store_runs (l : loc) (v : ndarray) (h : heap) :
  (l < length h)%nat -> store l v h = Some (tt, <[l := v]> h).
Proof. intros Hl. unfold store. by rewrite decide_True. Qed.

End RunFacts.

(** ** Further properties of the lattice deformer *)

Module FFDProperties.
Import FFD Grid Loops FFDFacts GridFacts.

Section Perform.

Variable affine_points_fit :
  list Point3 -> list Point3 -> option (Point3 -> Point3).

(** X1.  When [FFD.perform] raises.  For displacement arrays that are
    numpy arrays (as many entries as their shape says), [perform]
    returns exactly when both affine fits return and either the shape
    of [array_mu_x] has a zero dimension, so that the accumulation
    loops do not run, or the shapes of [array_mu_y] and [array_mu_z]
    are at least that of [array_mu_x] in every dimension.  Otherwise an
    index of lines 67-68 is out of range and the call raises.  The
    points play no part in it. *)
Theorem perform_returns_iff parameters (pts : PointCloud) :
  wf_array3 (array_mu_x parameters) ->
  wf_array3 (array_mu_y parameters) ->
  wf_array3 (array_mu_z parameters) ->
  is_Some (perform affine_points_fit parameters pts)
  <-> is_Some (affine_points_fit (fisical_frame parameters) reference_frame)
      /\ is_Some (affine_points_fit reference_frame (fisical_frame parameters))
      /\ (empty_shape (shape3 (array_mu_x parameters))
          \/ (shape_le (shape3 (array_mu_x parameters))
                       (shape3 (array_mu_y parameters))
              /\ shape_le (shape3 (array_mu_x parameters))
                          (shape3 (array_mu_z parameters)))).
Proof.
  intros Hx Hy Hz. rewrite perform_is_Some_iff.
  apply and_iff_compat_l, and_iff_compat_l.
  unfold reads_ok, empty_shape, shape_le.
  setoid_rewrite (get3_is_Some_iff _ _ _ _ Hx).
  setoid_rewrite (get3_is_Some_iff _ _ _ _ Hy).
  setoid_rewrite (get3_is_Some_iff _ _ _ _ Hz).
  destruct (shape3 (array_mu_x parameters)) as [[n m] t].
  destruct (shape3 (array_mu_y parameters)) as [[ny my] ty].
  destruct (shape3 (array_mu_z parameters)) as [[nz mz] tz].
  cbn [fst snd]. split.
  - intros H.
    destruct n as [|n]; [by do 2 left|].
    destruct m as [|m]; [left; right; by left|].
    destruct t as [|t]; [left; by do 2 right|]. right.
    specialize (H n m t). lia.
  - intros H i j k Hi Hj Hk. lia.
Qed.

(** X2.  Batches.  [FFD.perform] on two arrays of points one after the
    other gives the rows of what it gives on the two arrays stacked:
    a mesh can be deformed in pieces. *)
Theorem perform_app parameters (pts1 pts2 out1 out2 : PointCloud) :
  perform affine_points_fit parameters pts1 = Some out1 ->
  perform affine_points_fit parameters pts2 = Some out2 ->
  perform affine_points_fit parameters (pts1 ++ pts2) = Some (out1 ++ out2).
Proof.
  intros H1 H2.
  assert (Hsome : is_Some (perform affine_points_fit parameters pts1))
    by (by eexists).
  apply perform_Some in H1 as (T & Tinv & HT & HTinv & ->).
  apply perform_Some in H2 as (T' & Tinv' & HT' & HTinv' & ->).
  assert (T' = T) as -> by congruence.
  assert (Tinv' = Tinv) as -> by congruence.
  rewrite <- fmap_app.
  by apply (perform_is_Some_fit affine_points_fit parameters pts1).
Qed.

(** X3.  An empty control grid.  When the shape of [array_mu_x] has a
    zero dimension and the box can be fitted, [FFD.perform] returns,
    reads no entry of the three arrays (whatever [array_mu_y] and
    [array_mu_z] are), and sends every point, inside the box or not, to
    the affine round trip of its position. *)
Theorem perform_empty_grid parameters (pts : PointCloud)
    (transformation inverse_transformation : Point3 -> Point3) :
  affine_points_fit (fisical_frame parameters) reference_frame
  = Some transformation ->
  affine_points_fit reference_frame (fisical_frame parameters)
  = Some inverse_transformation ->
  empty_shape (shape3 (array_mu_x parameters)) ->
  perform affine_points_fit parameters pts
  = Some ((fun p =>
             padd (inverse_transformation
                     (transformation (psub p (origin_box parameters))))
                  (origin_box parameters)) <$> pts).
Proof.
  intros HT HTinv Hempty.
  assert (Hsome : is_Some (perform affine_points_fit parameters pts)).
  { apply perform_is_Some_iff. split; [by eexists|]. split; [by eexists|].
    intros i j k Hi Hj Hk. destruct Hempty as [H|[H|H]]; lia. }
  rewrite (perform_is_Some_fit affine_points_fit parameters pts pts _ _
             HT HTinv Hsome).
  f_equal. apply list_fmap_ext. intros _ p _. unfold deform_point.
  assert (bernstein_shift parameters
            (transformation (psub p (origin_box parameters))) = pzero) as ->.
  { unfold bernstein_shift. by rewrite !tensor_sum_empty. }
  destruct (outside _); by rewrite padd_pzero_l.
Qed.

(** X4.  The corners of the box follow the corner control points.  When
    [FFD.perform] returns, a point whose three reference coordinates
    are each [0] or [1] is moved by exactly the displacement stored at
    the control point of that corner: index [0] along an axis where
    the coordinate is [0], the last index where it is [1]. *)
Theorem perform_corner parameters (pts out : PointCloud)
    (transformation inverse_transformation : Point3 -> Point3)
    (q : nat) (p : Point3) :
  perform affine_points_fit parameters pts = Some out ->
  affine_points_fit (fisical_frame parameters) reference_frame
  = Some transformation ->
  affine_points_fit reference_frame (fisical_frame parameters)
  = Some inverse_transformation ->
  pts !! q = Some p ->
  let r := transformation (psub p (origin_box parameters)) in
  let '(n, m, t) := shape3 (array_mu_x parameters) in
  (1 <= n)%nat -> (1 <= m)%nat -> (1 <= t)%nat ->
  px r = 0 \/ px r = 1 -> py r = 0 \/ py r = 1 -> pz r = 0 \/ pz r = 1 ->
  exists mu_x mu_y mu_z,
    get3 (array_mu_x parameters) (corner_index n (px r))
         (corner_index m (py r)) (corner_index t (pz r)) = Some mu_x
    /\ get3 (array_mu_y parameters) (corner_index n (px r))
            (corner_index m (py r)) (corner_index t (pz r)) = Some mu_y
    /\ get3 (array_mu_z parameters) (corner_index n (px r))
            (corner_index m (py r)) (corner_index t (pz r)) = Some mu_z
    /\ out !! q
       = Some (padd (inverse_transformation (padd (P3 mu_x mu_y mu_z) r))
                    (origin_box parameters)).
Proof.
  intros Hrun HT HTinv Hp r.
  destruct (shape3 (array_mu_x parameters)) as [[n m] t] eqn:Hshape.
  intros Hn Hm Ht Hx Hy Hz.
  pose proof (corner_index_lt n (px r) Hn) as Hi.
  pose proof (corner_index_lt m (py r) Hm) as Hj.
  pose proof (corner_index_lt t (pz r) Ht) as Hk.
  destruct (perform_reads affine_points_fit parameters pts out
              (corner_index n (px r)) (corner_index m (py r))
              (corner_index t (pz r)) Hrun)
    as ([mu_x Hmx] & [mu_y Hmy] & [mu_z Hmz]);
    [by rewrite Hshape..|].
  exists mu_x, mu_y, mu_z. split; [done|]. split; [done|]. split; [done|].
  assert (Hin : outside r = false).
  { apply outside_false.
    assert (forall c : Qc, c = 0 \/ c = 1 -> 0 <= c /\ c <= 1) as Hc
      by (by intros c [-> | ->]).
    auto. }
  rewrite (perform_inside affine_points_fit parameters pts out _ _ q p Hrun HT HTinv Hp Hin).
  fold r. do 3 f_equal. unfold bernstein_shift. rewrite Hshape.
  rewrite !(tensor_sum_delta n m t _ r (corner_index n (px r))
              (corner_index m (py r)) (corner_index t (pz r)));
    try done; try (intros; by apply corner_basis).
  unfold mu_entry. by rewrite Hmx, Hmy, Hmz.
Qed.

(** X5.  The shift stays within the control displacements.  When
    [FFD.perform] returns on a control grid with no zero dimension, a
    point inside the box (reference coordinates in [[0, 1]]) is moved,
    in the reference frame, by a shift that lies on each axis between
    any lower and upper bound of the entries of the displacement array
    of that axis. *)
Theorem perform_shift_bounds parameters (pts out : PointCloud)
    (transformation inverse_transformation : Point3 -> Point3)
    (q : nat) (p : Point3) (lo hi : Point3) :
  perform affine_points_fit parameters pts = Some out ->
  affine_points_fit (fisical_frame parameters) reference_frame
  = Some transformation ->
  affine_points_fit reference_frame (fisical_frame parameters)
  = Some inverse_transformation ->
  pts !! q = Some p ->
  let r := transformation (psub p (origin_box parameters)) in
  ~ empty_shape (shape3 (array_mu_x parameters)) ->
  0 <= px r <= 1 -> 0 <= py r <= 1 -> 0 <= pz r <= 1 ->
  Forall (fun x => px lo <= x <= px hi) (data3 (array_mu_x parameters)) ->
  Forall (fun x => py lo <= x <= py hi) (data3 (array_mu_y parameters)) ->
  Forall (fun x => pz lo <= x <= pz hi) (data3 (array_mu_z parameters)) ->
  exists shift,
    out !! q
    = Some (padd (inverse_transformation (padd shift r))
                 (origin_box parameters))
    /\ px lo <= px shift <= px hi
    /\ py lo <= py shift <= py hi
    /\ pz lo <= pz shift <= pz hi.
Proof.
  intros Hrun HT HTinv Hp r Hne Hx Hy Hz Hbx Hby Hbz.
  assert (Hin : outside r = false) by (by apply outside_false).
  exists (bernstein_shift parameters r).
  split; [exact (perform_inside affine_points_fit parameters pts out _ _ q p Hrun HT HTinv Hp Hin)|].
  pose proof (perform_reads affine_points_fit parameters pts out) as Hreads.
  specialize (fun i j k => Hreads i j k Hrun).
  unfold bernstein_shift. cbn [px py pz].
  destruct (shape3 (array_mu_x parameters)) as [[n m] t].
  unfold empty_shape in Hne. cbn [fst snd] in *.
  assert (Hb : forall (a : array3) (lo' hi' : Qc) i j k,
             is_Some (get3 a i j k) ->
             Forall (fun x => lo' <= x <= hi') (data3 a) ->
             lo' <= mu_entry a i j k <= hi').
  { intros a lo' hi' i j k [x Hx'] Hall. unfold mu_entry. rewrite Hx'. cbn.
    apply get3_elem_of in Hx'.
    by apply (proj1 (list.Forall_forall _ _) Hall). }
  split; [|split]; apply tensor_sum_bounds; try lia; try done;
    intros i j k Hi Hj Hk; destruct (Hreads i j k Hi Hj Hk) as (Rx & Ry & Rz);
    by apply Hb.
Qed.

(** X6.  Uniform displacements translate.  When the three displacement
    arrays are constant, of values [c_x], [c_y] and [c_z], and the
    control grid has no zero dimension, [FFD.perform] moves every
    point inside the box by [(c_x, c_y, c_z)] in the reference frame. *)
Theorem perform_uniform_shift parameters (pts out : PointCloud)
    (transformation inverse_transformation : Point3 -> Point3)
    (q : nat) (p : Point3) (c : Point3) :
  perform affine_points_fit parameters pts = Some out ->
  affine_points_fit (fisical_frame parameters) reference_frame
  = Some transformation ->
  affine_points_fit reference_frame (fisical_frame parameters)
  = Some inverse_transformation ->
  pts !! q = Some p ->
  let r := transformation (psub p (origin_box parameters)) in
  ~ empty_shape (shape3 (array_mu_x parameters)) ->
  0 <= px r <= 1 -> 0 <= py r <= 1 -> 0 <= pz r <= 1 ->
  Forall (fun x => x = px c) (data3 (array_mu_x parameters)) ->
  Forall (fun x => x = py c) (data3 (array_mu_y parameters)) ->
  Forall (fun x => x = pz c) (data3 (array_mu_z parameters)) ->
  out !! q
  = Some (padd (inverse_transformation (padd c r)) (origin_box parameters)).
Proof.
  intros Hrun HT HTinv Hp r Hne Hx Hy Hz Hcx Hcy Hcz.
  assert (Hin : outside r = false) by (by apply outside_false).
  rewrite (perform_inside affine_points_fit parameters pts out _ _ q p Hrun HT HTinv Hp Hin).
  fold r. do 3 f_equal.
  pose proof (perform_reads affine_points_fit parameters pts out) as Hreads.
  specialize (fun i j k => Hreads i j k Hrun).
  unfold bernstein_shift.
  destruct (shape3 (array_mu_x parameters)) as [[n m] t].
  unfold empty_shape in Hne. cbn [fst snd] in *.
  assert (Hb : forall (a : array3) (v : Qc) i j k,
             is_Some (get3 a i j k) ->
             Forall (fun x => x = v) (data3 a) ->
             mu_entry a i j k = v).
  { intros a v i j k [x Hx'] Hall. unfold mu_entry. rewrite Hx'. cbn.
    apply get3_elem_of in Hx'.
    by apply (proj1 (list.Forall_forall _ _) Hall). }
  assert (Hsum : forall (a : array3) (v : Qc),
             (forall i j k, (i < n)%nat -> (j < m)%nat -> (k < t)%nat ->
                is_Some (get3 a i j k)) ->
             Forall (fun x => x = v) (data3 a) ->
             tensor_sum (n, m, t) a r = v).
  { intros a v Ha Hall.
    rewrite <- (tensor_weights_total n m t r v) by lia. unfold tensor_sum.
    apply Qcsum_ext_in. intros i [_ Hi]%elem_of_seq.
    apply Qcsum_ext_in. intros j [_ Hj]%elem_of_seq.
    apply Qcsum_ext_in. intros k [_ Hk]%elem_of_seq.
    rewrite (Hb a v) by (try done; apply Ha; lia). done. }
  destruct c as [cx cy cz]. cbn [px py pz] in *.
  rewrite (Hsum _ cx), (Hsum _ cy), (Hsum _ cz); try done;
    intros i j k Hi Hj Hk; by destruct (Hreads i j k Hi Hj Hk) as (Rx & Ry & Rz).
Qed.

(** X21.  The deformation is attached to the box.  Moving the box (its
    origin and its three vertices) and the points by the same vector
    moves what [FFD.perform] returns by that vector. *)
Theorem perform_translate parameters (pts out : PointCloud) (t : Point3) :
  perform affine_points_fit parameters pts = Some out ->
  perform affine_points_fit (translate_box parameters t)
          (cloud_translate pts t)
  = Some (cloud_translate out t).
Proof.
  intros Hrun.
  assert (Hsome : is_Some (perform affine_points_fit parameters pts))
    by (by eexists).
  pose proof Hsome as Hsome'.
  apply perform_is_Some_iff in Hsome' as ([T HT] & [Tinv HTinv] & Hreads).
  assert (Hsome2 : is_Some (perform affine_points_fit
                              (translate_box parameters t)
                              (cloud_translate pts t))).
  { apply perform_is_Some_iff. rewrite fisical_frame_translate.
    split; [by eexists|]. split; [by eexists|]. exact Hreads. }
  rewrite (perform_is_Some_fit affine_points_fit (translate_box parameters t)
             (cloud_translate pts t) (cloud_translate pts t) T Tinv);
    [| by rewrite fisical_frame_translate..| exact Hsome2].
  rewrite (perform_is_Some_fit affine_points_fit parameters pts pts T Tinv
             HT HTinv Hsome) in Hrun.
  inversion Hrun as [Hout]. f_equal. unfold cloud_translate.
  rewrite <- !list_fmap_compose. apply list_fmap_ext. intros _ p _.
  cbn [compose]. unfold deform_point.
  cbn [origin_box translate_box].
  assert (Hp : psub (padd p t) (padd (origin_box parameters) t)
               = psub p (origin_box parameters)).
  { unfold psub, padd. cbn [px py pz]. f_equal; ring. }
  rewrite Hp.
  assert (Hs : bernstein_shift (translate_box parameters t)
               = bernstein_shift parameters) by reflexivity.
  rewrite Hs. unfold padd. cbn [px py pz]. f_equal; ring.
Qed.

(** X22.  Graded control points stretch the box.  When the displacement
    of every control point is proportional, on each axis, to its
    position along that axis ([array_mu_x[i, j, k] = a_x * i / (n - 1)]
    and likewise in [y] and [z], on a grid of at least two control
    points per axis), [FFD.perform] maps a point inside the box, of
    reference coordinates [(r_x, r_y, r_z)], to the point of reference
    coordinates [((1 + a_x) r_x, (1 + a_y) r_y, (1 + a_z) r_z)]: the
    lattice deformer reproduces an axis-aligned stretch exactly. *)
Theorem perform_graded_stretch parameters (pts out : PointCloud)
    (transformation inverse_transformation : Point3 -> Point3)
    (q : nat) (p : Point3) (a : Point3) :
  perform affine_points_fit parameters pts = Some out ->
  affine_points_fit (fisical_frame parameters) reference_frame
  = Some transformation ->
  affine_points_fit reference_frame (fisical_frame parameters)
  = Some inverse_transformation ->
  pts !! q = Some p ->
  let r := transformation (psub p (origin_box parameters)) in
  let '(n, m, t) := shape3 (array_mu_x parameters) in
  (2 <= n)%nat -> (2 <= m)%nat -> (2 <= t)%nat ->
  0 <= px r <= 1 -> 0 <= py r <= 1 -> 0 <= pz r <= 1 ->
  (forall i j k, (i < n)%nat -> (j < m)%nat -> (k < t)%nat ->
     get3 (array_mu_x parameters) i j k = Some (px a * grade n i)
     /\ get3 (array_mu_y parameters) i j k = Some (py a * grade m j)
     /\ get3 (array_mu_z parameters) i j k = Some (pz a * grade t k)) ->
  out !! q
  = Some (padd (inverse_transformation
                  (P3 ((1 + px a) * px r) ((1 + py a) * py r)
                      ((1 + pz a) * pz r)))
               (origin_box parameters)).
Proof.
  intros Hrun HT HTinv Hp r.
  destruct (shape3 (array_mu_x parameters)) as [[n m] t] eqn:Hshape.
  intros Hn Hm Ht Hx Hy Hz Hgrid.
  assert (Hin : outside r = false) by (by apply outside_false).
  rewrite (perform_inside affine_points_fit parameters pts out _ _ q p
             Hrun HT HTinv Hp Hin).
  fold r. do 3 f_equal. unfold bernstein_shift, padd. rewrite Hshape.
  cbn [px py pz].
  rewrite (tensor_sum_separable n m t (array_mu_x parameters) r
             (fun i => px a * grade n i) (fun _ => 1) (fun _ => 1)).
  2:{ intros i j k Hi Hj Hk. destruct (Hgrid i j k Hi Hj Hk) as (G & _ & _).
      unfold mu_entry. rewrite G. cbn. ring. }
  rewrite (tensor_sum_separable n m t (array_mu_y parameters) r
             (fun _ => 1) (fun j => py a * grade m j) (fun _ => 1)).
  2:{ intros i j k Hi Hj Hk. destruct (Hgrid i j k Hi Hj Hk) as (_ & G & _).
      unfold mu_entry. rewrite G. cbn. ring. }
  rewrite (tensor_sum_separable n m t (array_mu_z parameters) r
             (fun _ => 1) (fun _ => 1) (fun k => pz a * grade t k)).
  2:{ intros i j k Hi Hj Hk. destruct (Hgrid i j k Hi Hj Hk) as (_ & _ & G).
      unfold mu_entry. rewrite G. cbn. ring. }
  rewrite !bernstein_poly_sum_1, !bernstein_poly_mean_scaled by lia.
  f_equal; ring.
Qed.

End Perform.

(** X7.  [FFD._transform_points] returns as many rows as it is given,
    row [i] being the transformation of row [i]; so transforming with
    [f] and then with [g] is transforming once with their
    composition. *)
Theorem _transform_points_compose (original_points : PointCloud)
    (f g : Point3 -> Point3) :
  length (_transform_points original_points f) = length original_points
  /\ (forall i p, original_points !! i = Some p ->
        _transform_points original_points f !! i = Some (f p))
  /\ _transform_points (_transform_points original_points f) g
     = _transform_points original_points (fun p => g (f p)).
Proof.
  rewrite !_transform_points_fmap. split; [by rewrite length_fmap|]. split.
  - intros i p Hp. by rewrite list_lookup_fmap, Hp.
  - by rewrite <- list_fmap_compose.
Qed.

End FFDProperties.

(** ** Further properties of the volume-constrained deformer *)

Module VFFDProperties.
Import FFD VFFD Mesh VFFDFacts GridFacts MeshFacts.

(** X8.  The normalisation of line 75.  For weights that are not all
    zero, the normalised weights are as many as before, each lies in
    [[0, 1]], and they sum to one. *)
Theorem normalize_simplex (v : list Qc) :
  Qcsum (Qcabs <$> v) <> 0 ->
  length (normalize v) = length v
  /\ Forall (fun x => 0 <= x <= 1) (normalize v)
  /\ Qcsum (normalize v) = 1.
Proof.
  intros Hs. split; [apply normalize_length|].
  split; [|by apply normalize_sum].
  pose proof (normalize_nonneg v) as Hn.
  apply list.Forall_forall. intros x Hx. split.
  - by apply (proj1 (list.Forall_forall _ _) Hn).
  - rewrite <- (normalize_sum v Hs). by apply Qcsum_ge_elem.
Qed.

(** X9.  Normalising twice is normalising once: a second
    [VFFD.__call__] on the same object finds weights that line 75
    leaves as they are. *)
Theorem normalize_idempotent (v : list Qc) :
  Qcsum (Qcabs <$> v) <> 0 -> normalize (normalize v) = normalize v.
Proof.
  intros Hs. apply normalize_fixed; [apply normalize_nonneg|].
  by apply normalize_sum.
Qed.

(** X10.  The three index channels of lines 78-80 split the indices:
    taken together they hold every index as often as [self.indices]
    does, negative ones included, and no index lies in two of them. *)
Theorem channel_partition (indices : list Z) :
  channel 0 indices ++ channel 1 indices ++ channel 2 indices ≡ₚ indices
  /\ forall i c c',
      i ∈ channel c indices -> i ∈ channel c' indices -> c = c'.
Proof.
  split.
  - unfold channel. induction indices as [|i l IH]; [done|].
    pose proof (Z.mod_pos_bound i 3) as Hb. rewrite !filter_cons.
    destruct (decide (i mod 3 = 0)%Z), (decide (i mod 3 = 1)%Z),
      (decide (i mod 3 = 2)%Z); try lia.
    + cbn. by f_equiv.
    + rewrite <- app_comm_cons, <- Permutation_middle. by f_equiv.
    + rewrite app_assoc, <- Permutation_middle, <- app_assoc. by f_equiv.
  - unfold channel. intros i c c' [Hc _]%list_elem_of_filter
      [Hc' _]%list_elem_of_filter. congruence.
Qed.

(** X11.  When the volume functional raises.  [volume] returns exactly
    when every vertex index [i] of every triangle satisfies
    [-n <= i < n], for [n] the number of points. *)
Theorem volume_returns_iff (triangles : list (Z * Z * Z)) (x : PointCloud) :
  is_Some (volume triangles x)
  <-> Forall (fun t : Z * Z * Z =>
                in_range (length x) t.1.1 /\ in_range (length x) t.1.2
                /\ in_range (length x) t.2) triangles.
Proof.
  induction triangles as [|t triangles IH].
  - rewrite volume_nil. split; [by constructor | by eexists].
  - split.
    + rewrite volume_cons. intros Hsome. constructor.
      * apply tri_rows_is_Some.
        destruct (tri_rows x t); [by eexists | by destruct Hsome].
      * apply IH. destruct (tri_rows x t); [|by destruct Hsome].
        destruct (volume triangles x); [by eexists | by destruct Hsome].
    + intros Hall. inversion Hall as [|? ? Ht Hrest]; subst.
      apply tri_rows_is_Some in Ht as [r Hr].
      apply IH in Hrest as [v Hv]. rewrite volume_cons, Hr, Hv. by eexists.
Qed.

(** X12.  The volume functional is additive over the triangles: on two
    lists of triangles put together it is the sum of its values on the
    two, and it raises as soon as one of them raises. *)
Theorem volume_app (triangles1 triangles2 : list (Z * Z * Z))
    (x : PointCloud) :
  volume (triangles1 ++ triangles2) x
  = v1 ← volume triangles1 x; v2 ← volume triangles2 x; Some (v1 + v2).
Proof.
  induction triangles1 as [|t triangles1 IH].
  - rewrite volume_nil. cbn [app mbind option_bind].
    destruct (volume triangles2 x) as [v2|]; [|done].
    cbn. f_equal. ring.
  - cbn [app]. rewrite !volume_cons, IH.
    destruct (tri_rows x t) as [r|]; [|done].
    destruct (volume triangles1 x) as [v1|]; [|done].
    destruct (volume triangles2 x) as [v2|]; [|done].
    cbn. f_equal. ring.
Qed.

(** X13.  Orientation.  Swapping the last two vertices of every
    triangle negates the volume functional. *)
Theorem volume_flip (triangles : list (Z * Z * Z)) (x : PointCloud) :
  volume (flip <$> triangles) x = Qcopp <$> volume triangles x.
Proof.
  induction triangles as [|t triangles IH].
  - cbn [fmap list_fmap]. rewrite volume_nil. cbn. f_equal; ring.
  - cbn [fmap list_fmap]. rewrite !volume_cons, IH.
    destruct t as [[a b] c]. unfold tri_rows, flip.
    destruct (py_index x a) as [pa|]; [|done].
    destruct (py_index x b) as [pb|], (py_index x c) as [pc|];
      cbn [mbind option_bind]; try done.
    destruct (volume triangles x) as [v|]; [|done].
    cbn. f_equal. unfold det. ring.
Qed.

(** X14.  Scale.  Multiplying every point by [c] multiplies the volume
    functional by [c ^ 3]. *)
Theorem volume_scale (triangles : list (Z * Z * Z)) (x : PointCloud) (c : Qc) :
  volume triangles (cloud_scale c x)
  = (fun v => c ^ 3 * v) <$> volume triangles x.
Proof.
  unfold cloud_scale.
  rewrite (volume_fmap _ (c ^ 3)); [done|].
  intros a b d. unfold det. cbn [px py pz Qcpower]. ring.
Qed.

Section Call.

Variable ffd : FFDParameters -> PointCloud -> option PointCloud.
Variable CFFD_call : VFFD -> PointCloud -> option (FFDParameters * PointCloud).

(** X15.  With fewer than three weights, [VFFD.__call__] raises,
    whatever the deformer and the corrector do: pass [i] reads
    [self.vweight[i]] at line 87. *)
Theorem call_short_vweight (self : VFFD) (src_pts : PointCloud) :
  (length (vweight self) < 3)%nat ->
  call ffd CFFD_call self src_pts = None.
Proof.
  intros Hlen.
  destruct (call ffd CFFD_call self src_pts) as [[self' out]|] eqn:Hrun;
    [|done].
  exfalso.
  apply call_inv in Hrun as (self3 & r & Hpasses & _).
  apply axis_passes_inv in Hpasses
    as (d & c & pre0 & pre1 & pre2 & r0 & r1 & r2 & _ & _ & Hchain).
  apply pass_chain_targets in Hchain as (_ & _ & [T2 _]).
  destruct T2 as (_ & _ & _ & _ & d2 & c2 & w2 & _ & _ & Hw & _).
  apply lookup_lt_Some in Hw. rewrite normalize_length in Hw. lia.
Qed.

(** X16.  The three passes ask for the whole deficit.  When
    [VFFD.__call__] returns on an object with three weights, not all
    zero, the increments the corrector has been asked for in the passes
    [x], [y] and [z] (the target it found in a pass minus the volume
    that pass started from) sum to the deficit
    [fixval - volume(ffd(src_pts))] taken at entry.  The three objects
    are those the corrector was called on, one per pass and in that
    order: each has the indices of its channel and the displacement
    arrays the pass before it left. *)
Theorem call_shares_total (self self' : VFFD) (src_pts out : PointCloud) :
  call ffd CFFD_call self src_pts = Some (self', out) ->
  length (vweight self) = 3%nat ->
  Qcsum (Qcabs <$> vweight self) <> 0 ->
  exists deformed current pre0 pre1 pre2 r0 r1 r2 d0 d1 d2 c0 c1 c2,
    ffd (parameters self) src_pts = Some deformed
    /\ volume (triangles self) deformed = Some current
    /\ CFFD_call pre0 src_pts = Some r0
    /\ CFFD_call pre1 src_pts = Some r1
    /\ CFFD_call pre2 src_pts = Some r2
    /\ parameters pre0 = parameters self
    /\ parameters pre1 = r0.1
    /\ parameters pre2 = r1.1
    /\ axis_target ffd self src_pts (fixval self - current) 0 pre0
    /\ axis_target ffd self src_pts (fixval self - current) 1 pre1
    /\ axis_target ffd self src_pts (fixval self - current) 2 pre2
    /\ ffd (parameters pre0) src_pts = Some d0
    /\ ffd (parameters pre1) src_pts = Some d1
    /\ ffd (parameters pre2) src_pts = Some d2
    /\ volume (triangles self) d0 = Some c0
    /\ volume (triangles self) d1 = Some c1
    /\ volume (triangles self) d2 = Some c2
    /\ (fixval pre0 - c0) + (fixval pre1 - c1) + (fixval pre2 - c2)
       = fixval self - current.
Proof.
  intros Hrun Hlen Hs.
  apply call_inv in Hrun as (self3 & r & Hpasses & _).
  apply axis_passes_inv in Hpasses
    as (d & c & pre0 & pre1 & pre2 & r0 & r1 & r2 & Hd & Hc & Hchain).
  pose proof Hchain as (_ & C0 & _ & C1 & _ & C2 & _).
  apply pass_chain_targets in Hchain as ([T0 P0] & [T1 P1] & [T2 P2]).
  pose proof T0 as (_ & _ & _ & _ & d0 & c0 & w0 & Hd0 & Hc0 & Hw0 & Hf0).
  pose proof T1 as (_ & _ & _ & _ & d1 & c1 & w1 & Hd1 & Hc1 & Hw1 & Hf1).
  pose proof T2 as (_ & _ & _ & _ & d2 & c2 & w2 & Hd2 & Hc2 & Hw2 & Hf2).
  destruct (normalize_three _ Hlen Hs) as (w0' & w1' & w2' & Hn & Hsum).
  rewrite Hn in Hw0, Hw1, Hw2. cbn in Hw0, Hw1, Hw2.
  assert (w0' = w0) as -> by congruence.
  assert (w1' = w1) as -> by congruence.
  assert (w2' = w2) as -> by congruence.
  exists d, c, pre0, pre1, pre2, r0, r1, r2, d0, d1, d2, c0, c1, c2.
  repeat (split; [done|]).
  rewrite Hf0, Hf1, Hf2.
  transitivity ((w0 + w1 + w2) * (fixval self - c)); [ring|].
  rewrite Hsum. ring.
Qed.

(** X17.  With an exact corrector the volume is enforced.  Assume that
    whenever the corrector returns, the points it returns are the
    deformation of [src_pts] under the displacement arrays it leaves,
    and their volume is the target it was given.  Then, for three
    weights that are not all zero, the points [VFFD.__call__] returns
    have the volume [fixval] the caller asked for; they are the
    deformation under the displacement arrays of the object at return;
    and the target of the object at return is again [fixval]. *)
Theorem call_exact (self self' : VFFD) (src_pts out : PointCloud) :
  (forall s r, CFFD_call s src_pts = Some r ->
     ffd r.1 src_pts = Some r.2
     /\ volume (triangles s) r.2 = Some (fixval s)) ->
  length (vweight self) = 3%nat ->
  Qcsum (Qcabs <$> vweight self) <> 0 ->
  call ffd CFFD_call self src_pts = Some (self', out) ->
  volume (triangles self) out = Some (fixval self)
  /\ ffd (parameters self') src_pts = Some out
  /\ fixval self' = fixval self.
Proof.
  intros Hexact Hlen Hs Hrun.
  apply call_inv in Hrun as (self3 & r & Hpasses & Hr & -> & ->).
  apply axis_passes_inv in Hpasses
    as (d & c & pre0 & pre1 & pre2 & r0 & r1 & r2 & Hd & Hc & Hchain).
  pose proof Hchain as (_ & C0 & _ & C1 & _ & C2 & ->).
  apply pass_chain_targets in Hchain as ([T0 P0] & [T1 P1] & [T2 P2]).
  destruct T0 as (Ht0 & _ & _ & _ & d0 & c0 & w0 & Hd0 & Hc0 & Hw0 & Hf0).
  destruct T1 as (Ht1 & _ & _ & _ & d1 & c1 & w1 & Hd1 & Hc1 & Hw1 & Hf1).
  destruct T2 as (Ht2 & _ & _ & _ & d2 & c2 & w2 & Hd2 & Hc2 & Hw2 & Hf2).
  destruct (normalize_three _ Hlen Hs) as (w0' & w1' & w2' & Hn & Hsum).
  rewrite Hn in Hw0, Hw1, Hw2. cbn in Hw0, Hw1, Hw2.
  destruct (Hexact _ _ C0) as [E0 V0]. destruct (Hexact _ _ C1) as [E1 V1].
  destruct (Hexact _ _ C2) as [E2 V2]. destruct (Hexact _ _ Hr) as [E3 V3].
  cbn [triangles fixval set_parameters parameters set_indices] in *.
  rewrite P0 in Hd0. rewrite P1 in Hd1. rewrite P2 in Hd2.
  rewrite Ht0 in V0. rewrite Ht1 in V1. rewrite Ht2 in V3.
  assert (fixval pre2 = fixval self) as Hfix.
  { simplify_eq. rewrite Hf2, Hf1, Hf0.
    transitivity (c + (w0 + w1 + w2) * (fixval self - c)); [ring|].
    rewrite Hsum. ring. }
  rewrite <- Hfix. done.
Qed.

(** X20.  The default weights.  On an object as [VFFD.__init__] builds
    it, the weights [[1/3, 1/3, 1/3]] are already normalised: when
    [VFFD.__call__] returns they are unchanged, and in each of the
    passes [x], [y] and [z] the corrector has found as target the
    volume that pass started from plus one third of the deficit taken
    at entry.  The three objects are those the corrector was called
    on, one per pass and in that order: each has the indices of its
    channel and the displacement arrays the pass before it left. *)
Theorem init_call_thirds (base self' : VFFD) (triangles : list (Z * Z * Z))
    (src_pts out : PointCloud) :
  call ffd CFFD_call (__init__ base triangles) src_pts = Some (self', out) ->
  vweight self' = [third; third; third]
  /\ exists deformed current pre0 pre1 pre2 r0 r1 r2 d0 d1 d2 c0 c1 c2,
      ffd (parameters base) src_pts = Some deformed
      /\ volume triangles deformed = Some current
      /\ CFFD_call pre0 src_pts = Some r0
      /\ CFFD_call pre1 src_pts = Some r1
      /\ CFFD_call pre2 src_pts = Some r2
      /\ parameters pre0 = parameters base
      /\ parameters pre1 = r0.1
      /\ parameters pre2 = r1.1
      /\ axis_target ffd (__init__ base triangles) src_pts
                     (fixval base - current) 0 pre0
      /\ axis_target ffd (__init__ base triangles) src_pts
                     (fixval base - current) 1 pre1
      /\ axis_target ffd (__init__ base triangles) src_pts
                     (fixval base - current) 2 pre2
      /\ ffd (parameters pre0) src_pts = Some d0
      /\ ffd (parameters pre1) src_pts = Some d1
      /\ ffd (parameters pre2) src_pts = Some d2
      /\ volume triangles d0 = Some c0
      /\ volume triangles d1 = Some c1
      /\ volume triangles d2 = Some c2
      /\ fixval pre0 = c0 + third * (fixval base - current)
      /\ fixval pre1 = c1 + third * (fixval base - current)
      /\ fixval pre2 = c2 + third * (fixval base - current).
Proof.
  intros Hrun.
  assert (Hthirds : normalize [third; third; third] = [third; third; third]).
  { apply normalize_fixed; [repeat constructor; compute_done | compute_done]. }
  apply call_inv in Hrun as (self3 & r & Hpasses & Hr & -> & ->).
  apply axis_passes_inv in Hpasses
    as (d & c & pre0 & pre1 & pre2 & r0 & r1 & r2 & Hd & Hc & Hchain).
  pose proof Hchain as (_ & C0 & _ & C1 & _ & C2 & ->).
  apply pass_chain_targets in Hchain as ([T0 P0] & [T1 P1] & [T2 P2]).
  pose proof T0 as (_ & _ & _ & _ & d0 & c0 & w0 & Hd0 & Hc0 & Hw0 & Hf0).
  pose proof T1 as (_ & _ & _ & _ & d1 & c1 & w1 & Hd1 & Hc1 & Hw1 & Hf1).
  pose proof T2 as (_ & Hv2 & _ & _ & d2 & c2 & w2 & Hd2 & Hc2 & Hw2 & Hf2).
  cbn [__init__ vweight VFFD.triangles parameters fixval indices]
    in Hd, Hc, P0, Hd0, Hc0, Hw0, Hf0, Hd1, Hc1, Hw1, Hf1, Hv2, Hd2, Hc2,
       Hw2, Hf2.
  rewrite Hthirds in Hw0, Hw1, Hw2, Hv2.
  cbn in Hw0, Hw1, Hw2.
  assert (w0 = third) as -> by congruence.
  assert (w1 = third) as -> by congruence.
  assert (w2 = third) as -> by congruence.
  split; [by cbn [vweight set_indices set_parameters]|].
  exists d, c, pre0, pre1, pre2, r0, r1, r2, d0, d1, d2, c0, c1, c2.
  repeat (split; [done|]). done.
Qed.

End Call.

End VFFDProperties.

(** ** Further properties of the lattice deformer on the store *)

Module StoreProperties.
Import FFD Store FFDFacts StoreFacts RunFacts.

(** X18.  [FFD._transform_points] on the store.  Called on the name of
    an array of points, it returns; what it returns is a new array
    object, and the store at return is the store at the call with that
    one object added, holding the transformed rows: the argument is
    not written and the result does not alias it. *)
Theorem _transform_points_st_run (original_points : loc)
    (transformation : Point3 -> Point3) (P : PointCloud) (h : heap) :
  h !! original_points = Some (Points P) ->
  _transform_points_st original_points transformation h
  = Some (length h, h ++ [Points (_transform_points P transformation)]).
Proof.
  intros Hsrc. unfold _transform_points_st.
  set (R := fun (hc : heap) (Mc : PointCloud) => hc = h ++ [Points Mc]).
  set (step := fun (Mc : PointCloud) (i : nat) =>
                 <[i := transformation (P !!! i)]> Mc).
  set (body := fun i : nat =>
    points ← load_points original_points;
    let single_point := points !!! i in
    modified ← load_points (length h);
    store (length h)
          (Points (<[i := transformation single_point]> modified))).
  destruct (for_st_runs R step body (seq 0 (length P))) with
    (h := h ++ [Points (replicate (length P) pzero)])
    (s := replicate (length P) pzero) as (h' & Hloop & HR); [|done|].
  { intros i hc Mc _ ->. eexists. split; [|reflexivity]. unfold body.
    rewrite (bind_runs _ _ _ _ P (load_points_runs _ _ _
               (lookup_app_l_Some _ _ _ _ Hsrc))).
    cbv zeta.
    assert (Hmod : (h ++ [Points Mc]) !! length h = Some (Points Mc))
      by (by rewrite lookup_app_r, Nat.sub_diag by lia).
    rewrite (bind_runs _ _ _ _ Mc (load_points_runs _ _ _ Hmod)).
    rewrite store_runs by (rewrite length_app; cbn; lia).
    do 2 f_equal. unfold step.
    by rewrite insert_app_r_alt, Nat.sub_diag by lia. }
  unfold R in HR. subst h'.
  rewrite (bind_runs _ _ _ _ P (load_points_runs _ _ _ Hsrc)).
  eapply eq_trans; [exact (bind_runs _ _ h _ (length h) eq_refl)|].
  eapply eq_trans; [exact (bind_runs _ _ _ _ tt Hloop)|].
  reflexivity.
Qed.

(** X19.  [FFD.perform] on the store computes what it computes on
    values.  When the call returns from a store that holds the mesh
    points and the arrays of the parameters, the array it returns
    holds the points [perform] returns on those values, as many as the
    mesh has, and the object still holds the mesh points it held. *)
Theorem perform_st_result
    (affine_points_fit : list Point3 -> list Point3 -> option (Point3 -> Point3))
    (self : FFDObject) (parameters : FFDParameters) (pts : PointCloud)
    (h h' : heap) (out : loc) :
  h !! original_mesh_points_ref self = Some (Points pts) ->
  h !! origin_box_ref (parameters_ref self) = Some (Row (origin_box parameters)) ->
  h !! position_vertex_1_ref (parameters_ref self)
  = Some (Row (position_vertex_1 parameters)) ->
  h !! position_vertex_2_ref (parameters_ref self)
  = Some (Row (position_vertex_2 parameters)) ->
  h !! position_vertex_3_ref (parameters_ref self)
  = Some (Row (position_vertex_3 parameters)) ->
  h !! array_mu_x_ref (parameters_ref self) = Some (Cube (array_mu_x parameters)) ->
  h !! array_mu_y_ref (parameters_ref self) = Some (Cube (array_mu_y parameters)) ->
  h !! array_mu_z_ref (parameters_ref self) = Some (Cube (array_mu_z parameters)) ->
  perform_st affine_points_fit self h = Some (out, h') ->
  exists res,
    perform affine_points_fit parameters pts = Some res
    /\ h' !! out = Some (Points res)
    /\ length res = length pts
    /\ h' !! original_mesh_points_ref self = Some (Points pts).
Proof.
  intros Hpts Ho H1 H2 H3 Hmx Hmy Hmz Hrun.
  destruct (perform_st_refines affine_points_fit self parameters pts h h' out
              Hpts Ho H1 H2 H3 Hmx Hmy Hmz Hrun) as (res & Hres & Hout).
  exists res. split; [done|]. split; [done|]. split.
  - apply perform_Some in Hres as (T & Tinv & _ & _ & ->).
    by rewrite length_fmap.
  - destruct (frames_perform affine_points_fit (length h) self h out h'
                (le_n _) Hrun) as (_ & Hlen & Htake).
    rewrite (take_ge h) in Htake by lia.
    rewrite <- Htake in Hpts. by apply lookup_take_Some in Hpts as [Hpts _].
Qed.

End StoreProperties.

(** ** A box, a mesh and a corrector to run the code on *)

Module Examples.
Import FFD AffineTrans VFFD Store FFDFacts VFFDFacts.

Definition z (n : Z) : Qc := Qc_of_Z n.
Definition half : Qc := Q2Qc (1 # 2).

(** The box of origin [(1, 1, 1)] and side [2], with a [2 x 2 x 2] control
    grid whose far face in [x] is pushed by one box length along [x]. *)
Definition box : FFDParameters := {|
  origin_box := P3 1 1 1;
  position_vertex_1 := P3 (z 3) 1 1;
  position_vertex_2 := P3 1 (z 3) 1;
  position_vertex_3 := P3 1 1 (z 3);
  array_mu_x := Array3 (2, 2, 2)%nat [0; 0; 0; 0; 1; 1; 1; 1];
  array_mu_y := Array3 (2, 2, 2)%nat [0; 0; 0; 0; 0; 0; 0; 0];
  array_mu_z := Array3 (2, 2, 2)%nat [0; 0; 0; 0; 0; 0; 0; 0]
|}.

(** The same box with no displacement at all. *)
Definition still_box : FFDParameters := {|
  origin_box := origin_box box;
  position_vertex_1 := position_vertex_1 box;
  position_vertex_2 := position_vertex_2 box;
  position_vertex_3 := position_vertex_3 box;
  array_mu_x := Array3 (2, 2, 2)%nat [0; 0; 0; 0; 0; 0; 0; 0];
  array_mu_y := Array3 (2, 2, 2)%nat [0; 0; 0; 0; 0; 0; 0; 0];
  array_mu_z := Array3 (2, 2, 2)%nat [0; 0; 0; 0; 0; 0; 0; 0]
|}.

(** The centre of the box, a point beyond it in [x], its origin corner and
    its far corner: reference coordinates [(1/2, 1/2, 1/2)],
    [(3/2, 1/2, 1/2)], [(0, 0, 0)] and [(1, 1, 1)]. *)
Definition mesh : PointCloud :=
  [P3 (z 2) (z 2) (z 2); P3 (z 4) (z 2) (z 2); P3 1 1 1; P3 (z 3) (z 3) (z 3)].

Definition deformed_mesh : PointCloud :=
  [P3 (z 3) (z 2) (z 2); P3 (z 4) (z 2) (z 2); P3 1 1 1; P3 (z 5) (z 3) (z 3)].

(** The two maps the fit returns for this box. *)
Definition to_reference : Point3 -> Point3 :=
  affine_map (P3 (z 2) 0 0) (P3 0 (z 2) 0) (P3 0 0 (z 2)) (P3 0 0 0)
             (P3 1 0 0) (P3 0 1 0) (P3 0 0 1) (P3 0 0 0).
Definition from_reference : Point3 -> Point3 :=
  affine_map (P3 1 0 0) (P3 0 1 0) (P3 0 0 1) (P3 0 0 0)
             (P3 (z 2) 0 0) (P3 0 (z 2) 0) (P3 0 0 (z 2)) (P3 0 0 0).

Lemma fit_to_reference :
  affine_points_fit (fisical_frame box) reference_frame = Some to_reference.
Proof.
  unfold affine_points_fit, fisical_frame, reference_frame.
  case_decide as H; [vm_compute in H; discriminate | reflexivity].
Qed.

Lemma fit_from_reference :
  affine_points_fit reference_frame (fisical_frame box) = Some from_reference.
Proof.
  unfold affine_points_fit, fisical_frame, reference_frame.
  case_decide as H; [vm_compute in H; discriminate | reflexivity].
Qed.

Lemma from_to_reference (x : Point3) : from_reference (to_reference x) = x.
Proof.
  destruct x as [a b c].
  unfold from_reference, to_reference, affine_map, padd, pscale, psub.
  cbn [px py pz]. unfold det3. cbn [px py pz]. unfold z.
  assert (Qc_of_Z 2 <> 0) by (intros H; vm_compute in H; discriminate).
  f_equal; field; auto.
Qed.

Lemma box_wf : wf_parameters box.
Proof. unfold wf_parameters, wf_array3. repeat apply conj; reflexivity. Qed.

Lemma still_box_wf : wf_parameters still_box.
Proof. unfold wf_parameters, wf_array3. repeat apply conj; reflexivity. Qed.

Example perform_box :
  perform affine_points_fit box mesh = Some deformed_mesh.
Proof. compute_done. Qed.

(** *** The lattice deformer on the box *)



(** The second point of the mesh is beyond the box in [x]: it stays. *)
Lemma perform_containment_cutoff_witness :
  deformed_mesh !! 1%nat = Some (P3 (z 4) (z 2) (z 2)).
Proof.
  apply (FFDTheorems.perform_containment_cutoff affine_points_fit box mesh
           deformed_mesh to_reference from_reference 1 (P3 (z 4) (z 2) (z 2))).
  - exact perform_box.
  - exact fit_to_reference.
  - exact fit_from_reference.
  - reflexivity.
  - right. right. right. left. compute_done.
  - exact from_to_reference.
Defined.

(** The far corner of the box has reference coordinates [(1, 1, 1)]: it
    moves by its full shift. *)
Lemma perform_boundary_inclusive_witness :
  deformed_mesh !! 3%nat
  = Some (padd (from_reference
                  (padd (bernstein_shift box (P3 1 1 1)) (P3 1 1 1)))
               (origin_box box))
  /\ bernstein_shift box (P3 1 1 1) = P3 1 0 0.
Proof.
  split; [|compute_done].
  assert (Hr : to_reference (psub (P3 (z 3) (z 3) (z 3)) (origin_box box))
               = P3 1 1 1) by compute_done.
  rewrite <- Hr.
  apply (FFDTheorems.perform_boundary_inclusive affine_points_fit box mesh
           deformed_mesh to_reference from_reference 3 (P3 (z 3) (z 3) (z 3))).
  - exact perform_box.
  - exact fit_to_reference.
  - exact fit_from_reference.
  - reflexivity.
  - split; compute_done.
  - split; compute_done.
  - split; compute_done.
Defined.

Lemma perform_identity_witness :
  perform affine_points_fit still_box mesh = Some mesh.
Proof.
  apply (FFDTheorems.perform_identity affine_points_fit still_box mesh
           to_reference from_reference).
  - exact fit_to_reference.
  - exact fit_from_reference.
  - exact from_to_reference.
  - exact still_box_wf.
  - repeat constructor.
  - repeat constructor.
  - repeat constructor.
Defined.

Lemma perform_preserves_order_witness :
  length deformed_mesh = length mesh
  /\ forall i p,
      mesh !! i = Some p ->
      exists q,
        deformed_mesh !! i = Some q
        /\ perform affine_points_fit box [p] = Some [q].
Proof.
  apply (FFDTheorems.perform_preserves_order affine_points_fit box mesh
           deformed_mesh perform_box).
Defined.

(** *** The volume-constrained deformer on a tetrahedron *)

(** The corner tetrahedron of the box: the origin corner and the three
    vertices, with its four faces; the last index is written from the
    end. *)
Definition tetra : PointCloud :=
  [P3 1 1 1; P3 (z 3) 1 1; P3 1 (z 3) 1; P3 1 1 (z 3)].

Definition with_mu_x (parameters : FFDParameters) (data : list Qc)
    : FFDParameters := {|
  origin_box := origin_box parameters;
  position_vertex_1 := position_vertex_1 parameters;
  position_vertex_2 := position_vertex_2 parameters;
  position_vertex_3 := position_vertex_3 parameters;
  array_mu_x := Array3 (shape3 (array_mu_x parameters)) data;
  array_mu_y := array_mu_y parameters;
  array_mu_z := array_mu_z parameters
|}.

Definition ffd0 : FFDParameters -> PointCloud -> option PointCloud :=
  perform affine_points_fit.

(** A stand-in for the corrector: it stretches the displacements along
    [x] by one plus the number of indices it is given, and returns the
    points deformed with the new displacements. *)
Definition corrector0 (self : VFFD) (src_pts : PointCloud)
    : option (FFDParameters * PointCloud) :=
  let d := z (Z.of_nat (length (indices self))) in
  let parameters' :=
    with_mu_x (parameters self)
              ((fun x => x + d * x) <$> data3 (array_mu_x (parameters self))) in
  pts ← ffd0 parameters' src_pts;
  Some (parameters', pts).

Definition self0 : VFFD := {|
  triangles := [(0, 2, 1); (0, 1, 3); (0, 3, 2); (1, 2, -1)]%Z;
  vweight := [- 1; 1; z 2];
  indices := [0; 1; 2; 3; 4; 5; 8]%Z;
  M := [[z 7]];
  fixval := z 10;
  parameters := box
|}.

(** The run on the tetrahedron.  The weights [[-1; 1; 2]] become
    [[1/4; 1/4; 1/2]] and the indices split into [[0; 3]], [[1; 4]] and
    [[2; 5; 8]].  The volume functional is 16 on the deformed tetrahedron
    at entry, so [diffvolume = 10 - 16 = -6].  The stand-in corrector
    multiplies the far-face displacement by 3, 3 and 4 in the three passes
    (1, 3, 9, 36), which makes the volume 16, 32 and 80 at the start of the
    passes: their targets are [16 - 6/4], [32 - 6/4] and [80 - 6/2 = 77].
    The last call, on the three indices of the [z] channel, multiplies by
    4 again (144).

    The object after the three passes, and at return: *)
Definition self3 : VFFD := {|
  triangles := triangles self0;
  vweight := [Q2Qc (1 # 4); Q2Qc (1 # 4); half];
  indices := [2; 5; 8]%Z;
  M := [[1; 0; 0]; [0; 1; 0]; [0; 0; 1]];
  fixval := z 77;
  parameters := with_mu_x box [0; 0; 0; 0; z 36; z 36; z 36; z 36]
|}.

Definition self_after : VFFD := {|
  triangles := triangles self0;
  vweight := [Q2Qc (1 # 4); Q2Qc (1 # 4); half];
  indices := indices self0;
  M := [[1; 0; 0]; [0; 1; 0]; [0; 0; 1]];
  fixval := z 77;
  parameters := with_mu_x box [0; 0; 0; 0; z 144; z 144; z 144; z 144]
|}.

Definition out_after : PointCloud :=
  [P3 1 1 1; P3 (z 291) 1 1; P3 1 (z 3) 1; P3 1 1 (z 3)].

Example volume_tetra : volume (triangles self0) tetra = Some (z 8).
Proof. compute_done. Qed.

Example axis_passes_tetra :
  axis_passes ffd0 corrector0 self0 tetra = Some self3.
Proof. compute_done. Qed.

Example call_tetra :
  call ffd0 corrector0 self0 tetra = Some (self_after, out_after).
Proof. compute_done. Qed.

Lemma call_final_invocation_witness :
  exists s r,
    axis_passes ffd0 corrector0 self0 tetra = Some s
    /\ indices s = channel 2 (indices self0)
    /\ M s = eye (length (indices s))
    /\ corrector0 s tetra = Some r
    /\ out_after = r.2
    /\ indices self_after = indices self0.
Proof.
  apply (VFFDTheorems.call_final_invocation ffd0 corrector0 self0 tetra
           self_after out_after).
  exact call_tetra.
Defined.

(** The claim C1 as worded fails on this run: the object the corrector
    is last called on has the indices of the [z] channel, [[2; 5; 8]],
    not the original seven. *)
Lemma call_final_indices_counterexample :
  exists s r,
    axis_passes ffd0 corrector0 self0 tetra = Some s
    /\ corrector0 s tetra = Some r
    /\ call ffd0 corrector0 self0 tetra = Some (self_after, r.2)
    /\ indices s = [2; 5; 8]%Z
    /\ indices s <> indices self0.
Proof.
  exists self3, (parameters self_after, out_after).
  split; [exact axis_passes_tetra|].
  split; [compute_done|].
  split; [exact call_tetra|].
  split; [reflexivity | discriminate].
Qed.

Lemma call_axis_targets_witness :
  exists deformed current,
    ffd0 (parameters self0) tetra = Some deformed
    /\ volume (triangles self0) deformed = Some current
    /\ exists pre0 pre1 pre2 r0 r1 r2,
        corrector0 pre0 tetra = Some r0
        /\ corrector0 pre1 tetra = Some r1
        /\ corrector0 pre2 tetra = Some r2
        /\ parameters pre0 = parameters self0
        /\ parameters pre1 = r0.1
        /\ parameters pre2 = r1.1
        /\ axis_target ffd0 self0 tetra (fixval self0 - current) 0 pre0
        /\ axis_target ffd0 self0 tetra (fixval self0 - current) 1 pre1
        /\ axis_target ffd0 self0 tetra (fixval self0 - current) 2 pre2.
Proof.
  apply (VFFDTheorems.call_axis_targets ffd0 corrector0 self0 tetra
           self_after out_after).
  - exact call_tetra.
  - compute_done.
Defined.

Lemma call_frame_witness :
  indices self_after = indices self0
  /\ vweight self_after
     = (fun x => Qcabs x / Qcsum (Qcabs <$> vweight self0)) <$> vweight self0
  /\ M self_after = eye (length (channel 2 (indices self0)))
  /\ exists deformed current pre0 pre1 pre2 r0 r1 r2,
      ffd0 (parameters self0) tetra = Some deformed
      /\ volume (triangles self0) deformed = Some current
      /\ corrector0 pre0 tetra = Some r0
      /\ corrector0 pre1 tetra = Some r1
      /\ corrector0 pre2 tetra = Some r2
      /\ parameters pre0 = parameters self0
      /\ parameters pre1 = r0.1
      /\ parameters pre2 = r1.1
      /\ axis_target ffd0 self0 tetra (fixval self0 - current) 0 pre0
      /\ axis_target ffd0 self0 tetra (fixval self0 - current) 1 pre1
      /\ axis_target ffd0 self0 tetra (fixval self0 - current) 2 pre2
      /\ M self_after = M pre2
      /\ fixval self_after = fixval pre2.
Proof.
  apply (VFFDTheorems.call_frame ffd0 corrector0 self0 tetra
           self_after out_after).
  - exact call_tetra.
  - compute_done.
Defined.

(** On that run the weight matrix and the target at return are not those
    at entry. *)
Example call_tetra_not_restored :
  M self_after <> M self0 /\ fixval self_after <> fixval self0.
Proof. split; compute_done. Qed.

(** *** The lattice deformer on a store *)

(** A store that holds the mesh and the arrays of the box, and the object
    that names them. *)
Definition heap0 : heap :=
  [Points mesh;
   Row (origin_box box); Row (position_vertex_1 box);
   Row (position_vertex_2 box); Row (position_vertex_3 box);
   Cube (array_mu_x box); Cube (array_mu_y box); Cube (array_mu_z box)].

Definition object0 : FFDObject := {|
  parameters_ref := {|
    origin_box_ref := 1;
    position_vertex_1_ref := 2;
    position_vertex_2_ref := 3;
    position_vertex_3_ref := 4;
    array_mu_x_ref := 5;
    array_mu_y_ref := 6;
    array_mu_z_ref := 7
  |};
  original_mesh_points_ref := 0
|}.

(** On this store the call returns a new object that holds the points
    [perform] computes. *)
Example perform_st_box :
  (fun r : loc * heap => r.2 !! r.1) <$> perform_st affine_points_fit object0 heap0
  = Some (Some (Points deformed_mesh)).
Proof. compute_done. Qed.

Lemma perform_st_no_side_effect_witness :
  exists out h',
    perform_st affine_points_fit object0 heap0 = Some (out, h')
    /\ (forall l v, heap0 !! l = Some v -> h' !! l = Some v)
    /\ heap0 !! out = None
    /\ exists a, h' !! out = Some (Points a).
Proof.
  destruct (perform_st affine_points_fit object0 heap0) as [[out h']|] eqn:Hrun.
  - exists out, h'. split; [reflexivity|].
    exact (StoreTheorems.perform_st_no_side_effect affine_points_fit object0
             heap0 h' out Hrun).
  - exfalso.
    assert (Hsome : is_Some (perform_st affine_points_fit object0 heap0))
      by compute_done.
    rewrite Hrun in Hsome. by destruct Hsome.
Defined.

End Examples.

(** ** More runs on the box and on the tetrahedron *)

Module MoreExamples.
Import FFD AffineTrans VFFD Store Grid Mesh FFDFacts VFFDFacts GridFacts
  MeshFacts Examples.

(** *** The lattice deformer *)

(** The box with a [y] displacement array of one layer only: the read
    [array_mu_y[1, 0, 0]] is out of range. *)
Definition short_box : FFDParameters := {|
  origin_box := origin_box box;
  position_vertex_1 := position_vertex_1 box;
  position_vertex_2 := position_vertex_2 box;
  position_vertex_3 := position_vertex_3 box;
  array_mu_x := array_mu_x box;
  array_mu_y := Array3 (1, 2, 2)%nat [0; 0; 0; 0];
  array_mu_z := array_mu_z box
|}.

(** The box with a control grid of no layer in [x], and displacement
    arrays in [y] and [z] of other shapes. *)
Definition empty_box : FFDParameters := {|
  origin_box := origin_box box;
  position_vertex_1 := position_vertex_1 box;
  position_vertex_2 := position_vertex_2 box;
  position_vertex_3 := position_vertex_3 box;
  array_mu_x := Array3 (0, 2, 2)%nat [];
  array_mu_y := Array3 (1, 1, 1)%nat [z 7];
  array_mu_z := Array3 (0, 0, 0)%nat []
|}.

(** The box with every control point pushed by half a box length along
    [x]. *)
Definition uniform_box : FFDParameters := {|
  origin_box := origin_box box;
  position_vertex_1 := position_vertex_1 box;
  position_vertex_2 := position_vertex_2 box;
  position_vertex_3 := position_vertex_3 box;
  array_mu_x := Array3 (2, 2, 2)%nat [half; half; half; half; half; half; half; half];
  array_mu_y := Array3 (2, 2, 2)%nat [0; 0; 0; 0; 0; 0; 0; 0];
  array_mu_z := Array3 (2, 2, 2)%nat [0; 0; 0; 0; 0; 0; 0; 0]
|}.

Definition uniform_mesh : PointCloud :=
  [P3 (z 3) (z 2) (z 2); P3 (z 4) (z 2) (z 2); P3 (z 2) 1 1;
   P3 (z 4) (z 3) (z 3)].

Example perform_uniform_box :
  perform affine_points_fit uniform_box mesh = Some uniform_mesh.
Proof. compute_done. Qed.

(** With the short [y] array the call raises. *)
Lemma perform_returns_iff_witness :
  perform affine_points_fit short_box mesh = None.
Proof.
  destruct (perform affine_points_fit short_box mesh) as [out|] eqn:Hrun;
    [|reflexivity].
  exfalso.
  assert (Hsome : is_Some (perform affine_points_fit short_box mesh))
    by (rewrite Hrun; by eexists).
  apply (FFDProperties.perform_returns_iff affine_points_fit short_box mesh)
    in Hsome as (_ & _ & [He | [Hy _]]);
    [| | reflexivity | reflexivity | reflexivity].
  - unfold empty_shape in He. cbn in He. lia.
  - unfold shape_le in Hy. cbn in Hy. lia.
Defined.

Lemma perform_app_witness :
  perform affine_points_fit box (mesh ++ mesh)
  = Some (deformed_mesh ++ deformed_mesh).
Proof.
  apply (FFDProperties.perform_app affine_points_fit box mesh mesh
           deformed_mesh deformed_mesh).
  - exact perform_box.
  - exact perform_box.
Defined.

Lemma perform_empty_grid_witness :
  perform affine_points_fit empty_box mesh
  = Some ((fun p =>
             padd (from_reference (to_reference (psub p (origin_box empty_box))))
                  (origin_box empty_box)) <$> mesh).
Proof.
  apply (FFDProperties.perform_empty_grid affine_points_fit empty_box mesh
           to_reference from_reference).
  - exact fit_to_reference.
  - exact fit_from_reference.
  - left. reflexivity.
Defined.

(** The far corner of the box, of reference coordinates [(1, 1, 1)],
    moves with the control point [(1, 1, 1)]. *)
Lemma perform_corner_witness :
  exists mu_x mu_y mu_z,
    get3 (array_mu_x box) 1 1 1 = Some mu_x
    /\ get3 (array_mu_y box) 1 1 1 = Some mu_y
    /\ get3 (array_mu_z box) 1 1 1 = Some mu_z
    /\ deformed_mesh !! 3%nat
       = Some (padd (from_reference
                       (padd (P3 mu_x mu_y mu_z)
                             (to_reference (psub (P3 (z 3) (z 3) (z 3))
                                                 (origin_box box)))))
                    (origin_box box)).
Proof.
  assert (Hr : to_reference (psub (P3 (z 3) (z 3) (z 3)) (origin_box box))
               = P3 1 1 1) by compute_done.
  pose proof (FFDProperties.perform_corner affine_points_fit box mesh
                deformed_mesh to_reference from_reference 3
                (P3 (z 3) (z 3) (z 3)) perform_box fit_to_reference
                fit_from_reference eq_refl) as H.
  cbv zeta in H. rewrite Hr in H.
  change (shape3 (array_mu_x box)) with (2, 2, 2)%nat in H. cbv iota in H.
  assert (Hc : corner_index 2 1 = 1%nat) by reflexivity.
  cbn [px py pz] in H. rewrite Hc in H. rewrite Hr.
  apply H; first [lia | by right].
Defined.

(** The centre of the box: its shift lies between the bounds [(0, 0, 0)]
    and [(1, 0, 0)] of the control displacements. *)
Lemma perform_shift_bounds_witness :
  exists shift,
    deformed_mesh !! 0%nat
    = Some (padd (from_reference
                    (padd shift
                          (to_reference (psub (P3 (z 2) (z 2) (z 2))
                                              (origin_box box)))))
                 (origin_box box))
    /\ px (P3 0 0 0) <= px shift <= px (P3 1 0 0)
    /\ py (P3 0 0 0) <= py shift <= py (P3 1 0 0)
    /\ pz (P3 0 0 0) <= pz shift <= pz (P3 1 0 0).
Proof.
  apply (FFDProperties.perform_shift_bounds affine_points_fit box mesh
           deformed_mesh to_reference from_reference 0 (P3 (z 2) (z 2) (z 2))
           (P3 0 0 0) (P3 1 0 0)).
  - exact perform_box.
  - exact fit_to_reference.
  - exact fit_from_reference.
  - reflexivity.
  - unfold empty_shape. cbn. lia.
  - split; compute_done.
  - split; compute_done.
  - split; compute_done.
  - repeat constructor; compute_done.
  - repeat constructor; compute_done.
  - repeat constructor; compute_done.
Defined.

(** The centre of the box under the uniform push. *)
Lemma perform_uniform_shift_witness :
  uniform_mesh !! 0%nat
  = Some (padd (from_reference
                  (padd (P3 half 0 0)
                        (to_reference (psub (P3 (z 2) (z 2) (z 2))
                                            (origin_box uniform_box)))))
               (origin_box uniform_box)).
Proof.
  apply (FFDProperties.perform_uniform_shift affine_points_fit uniform_box mesh
           uniform_mesh to_reference from_reference 0 (P3 (z 2) (z 2) (z 2))
           (P3 half 0 0)).
  - exact perform_uniform_box.
  - exact fit_to_reference.
  - exact fit_from_reference.
  - reflexivity.
  - unfold empty_shape. cbn. lia.
  - split; compute_done.
  - split; compute_done.
  - split; compute_done.
  - repeat constructor.
  - repeat constructor.
  - repeat constructor.
Defined.

(** The box and the mesh moved by [(1, 2, 0)]. *)
Lemma perform_translate_witness :
  perform affine_points_fit (translate_box box (P3 1 (z 2) 0))
          (cloud_translate mesh (P3 1 (z 2) 0))
  = Some (cloud_translate deformed_mesh (P3 1 (z 2) 0)).
Proof.
  apply (FFDProperties.perform_translate affine_points_fit box mesh
           deformed_mesh (P3 1 (z 2) 0)).
  exact perform_box.
Defined.

(** The control grid of the box is graded along [x], with [a = (1, 0, 0)]:
    the centre of the box goes to reference coordinates [(1, 1/2, 1/2)]. *)
Lemma perform_graded_stretch_witness :
  deformed_mesh !! 0%nat
  = Some (padd (from_reference
                  (P3 ((1 + 1) * px (to_reference (psub (P3 (z 2) (z 2) (z 2))
                                                        (origin_box box))))
                      ((1 + 0) * py (to_reference (psub (P3 (z 2) (z 2) (z 2))
                                                        (origin_box box))))
                      ((1 + 0) * pz (to_reference (psub (P3 (z 2) (z 2) (z 2))
                                                        (origin_box box))))))
               (origin_box box)).
Proof.
  pose proof (FFDProperties.perform_graded_stretch affine_points_fit box mesh
                deformed_mesh to_reference from_reference 0
                (P3 (z 2) (z 2) (z 2)) (P3 1 0 0) perform_box fit_to_reference
                fit_from_reference eq_refl) as H.
  cbv zeta in H.
  change (shape3 (array_mu_x box)) with (2, 2, 2)%nat in H. cbv iota in H.
  cbn [px py pz] in H.
  apply H; try lia; try (split; compute_done).
  intros i j k Hi Hj Hk.
  assert (Hcases : forall x : nat, (x < 2)%nat -> x = 0%nat \/ x = 1%nat) by lia.
  destruct (Hcases i Hi) as [-> | ->], (Hcases j Hj) as [-> | ->],
    (Hcases k Hk) as [-> | ->]; repeat apply conj; compute_done.
Defined.

(** *** The volume-constrained deformer *)

Lemma normalize_simplex_witness :
  length (normalize (vweight self0)) = length (vweight self0)
  /\ Forall (fun x => 0 <= x <= 1) (normalize (vweight self0))
  /\ Qcsum (normalize (vweight self0)) = 1.
Proof.
  apply (VFFDProperties.normalize_simplex (vweight self0)).
  compute_done.
Defined.

Lemma normalize_idempotent_witness :
  normalize (normalize (vweight self0)) = normalize (vweight self0).
Proof.
  apply (VFFDProperties.normalize_idempotent (vweight self0)).
  compute_done.
Defined.

(** The object of the tetrahedron with two weights only. *)
Lemma call_short_vweight_witness :
  call ffd0 corrector0 (set_vweight self0 [1; z 2]) tetra = None.
Proof.
  apply (VFFDProperties.call_short_vweight ffd0 corrector0
           (set_vweight self0 [1; z 2]) tetra).
  cbn. lia.
Defined.

Lemma call_shares_total_witness :
  exists deformed current pre0 pre1 pre2 r0 r1 r2 d0 d1 d2 c0 c1 c2,
    ffd0 (parameters self0) tetra = Some deformed
    /\ volume (triangles self0) deformed = Some current
    /\ corrector0 pre0 tetra = Some r0
    /\ corrector0 pre1 tetra = Some r1
    /\ corrector0 pre2 tetra = Some r2
    /\ parameters pre0 = parameters self0
    /\ parameters pre1 = r0.1
    /\ parameters pre2 = r1.1
    /\ axis_target ffd0 self0 tetra (fixval self0 - current) 0 pre0
    /\ axis_target ffd0 self0 tetra (fixval self0 - current) 1 pre1
    /\ axis_target ffd0 self0 tetra (fixval self0 - current) 2 pre2
    /\ ffd0 (parameters pre0) tetra = Some d0
    /\ ffd0 (parameters pre1) tetra = Some d1
    /\ ffd0 (parameters pre2) tetra = Some d2
    /\ volume (triangles self0) d0 = Some c0
    /\ volume (triangles self0) d1 = Some c1
    /\ volume (triangles self0) d2 = Some c2
    /\ (fixval pre0 - c0) + (fixval pre1 - c1) + (fixval pre2 - c2)
       = fixval self0 - current.
Proof.
  apply (VFFDProperties.call_shares_total ffd0 corrector0 self0 self_after
           tetra out_after).
  - exact call_tetra.
  - reflexivity.
  - compute_done.
Defined.

(** A deformer that stretches along [x] by one plus the first [x]
    displacement, and a corrector for it that is exact: it picks the
    stretch that gives the target volume. *)
Definition stretch (parameters : FFDParameters) (src_pts : PointCloud)
    : option PointCloud :=
  let k := 1 + mu_entry (array_mu_x parameters) 0 0 0 in
  Some ((fun p => P3 (k * px p) (py p) (pz p)) <$> src_pts).

Definition exact_corrector (self : VFFD) (src_pts : PointCloud)
    : option (FFDParameters * PointCloud) :=
  v ← volume (triangles self) src_pts;
  if decide (v = 0) then None
  else
    let parameters' :=
      {| origin_box := origin_box (parameters self);
         position_vertex_1 := position_vertex_1 (parameters self);
         position_vertex_2 := position_vertex_2 (parameters self);
         position_vertex_3 := position_vertex_3 (parameters self);
         array_mu_x := Array3 (1, 1, 1)%nat [fixval self / v - 1];
         array_mu_y := array_mu_y (parameters self);
         array_mu_z := array_mu_z (parameters self) |} in
    out ← stretch parameters' src_pts;
    Some (parameters', out).

Lemma exact_corrector_exact (s : VFFD) (src_pts : PointCloud)
    (r : FFDParameters * PointCloud) :
  exact_corrector s src_pts = Some r ->
  stretch r.1 src_pts = Some r.2
  /\ volume (triangles s) r.2 = Some (fixval s).
Proof.
  unfold exact_corrector. intros Hrun.
  destruct (volume (triangles s) src_pts) as [v|] eqn:Hv; [|done].
  cbn [mbind option_bind] in Hrun.
  destruct (decide (v = 0)) as [|Hne]; [done|].
  cbn [mbind option_bind stretch] in Hrun. inversion Hrun as [Hr]. clear Hrun.
  cbn [fst snd]. split; [reflexivity|].
  rewrite (volume_fmap _ (1 + mu_entry (Array3 (1, 1, 1)%nat [fixval s / v - 1])
                                       0 0 0)).
  - rewrite Hv. cbn [fmap option_fmap option_map]. f_equal.
    unfold mu_entry. cbn [get3 shape3 data3]. cbn. field. done.
  - intros a b c. unfold det. cbn [px py pz]. ring.
Qed.

Lemma call_exact_witness :
  exists self' out,
    call stretch exact_corrector self0 tetra = Some (self', out)
    /\ volume (triangles self0) out = Some (fixval self0)
    /\ stretch (parameters self') tetra = Some out
    /\ fixval self' = fixval self0.
Proof.
  destruct (call stretch exact_corrector self0 tetra) as [[self' out]|] eqn:Hrun.
  - exists self', out. split; [reflexivity|].
    apply (VFFDProperties.call_exact stretch exact_corrector self0 self' tetra out).
    + intros s r. apply exact_corrector_exact.
    + reflexivity.
    + compute_done.
    + exact Hrun.
  - exfalso.
    assert (Hsome : is_Some (call stretch exact_corrector self0 tetra))
      by compute_done.
    rewrite Hrun in Hsome. by destruct Hsome.
Defined.

Lemma init_call_thirds_witness :
  exists self' out,
    call stretch exact_corrector (__init__ self0 (triangles self0)) tetra
    = Some (self', out)
    /\ vweight self' = [third; third; third]
    /\ exists deformed current pre0 pre1 pre2 r0 r1 r2 d0 d1 d2 c0 c1 c2,
        stretch (parameters self0) tetra = Some deformed
        /\ volume (triangles self0) deformed = Some current
        /\ exact_corrector pre0 tetra = Some r0
        /\ exact_corrector pre1 tetra = Some r1
        /\ exact_corrector pre2 tetra = Some r2
        /\ parameters pre0 = parameters self0
        /\ parameters pre1 = r0.1
        /\ parameters pre2 = r1.1
        /\ axis_target stretch (__init__ self0 (triangles self0)) tetra
                       (fixval self0 - current) 0 pre0
        /\ axis_target stretch (__init__ self0 (triangles self0)) tetra
                       (fixval self0 - current) 1 pre1
        /\ axis_target stretch (__init__ self0 (triangles self0)) tetra
                       (fixval self0 - current) 2 pre2
        /\ stretch (parameters pre0) tetra = Some d0
        /\ stretch (parameters pre1) tetra = Some d1
        /\ stretch (parameters pre2) tetra = Some d2
        /\ volume (triangles self0) d0 = Some c0
        /\ volume (triangles self0) d1 = Some c1
        /\ volume (triangles self0) d2 = Some c2
        /\ fixval pre0 = c0 + third * (fixval self0 - current)
        /\ fixval pre1 = c1 + third * (fixval self0 - current)
        /\ fixval pre2 = c2 + third * (fixval self0 - current).
Proof.
  destruct (call stretch exact_corrector (__init__ self0 (triangles self0)) tetra)
    as [[self' out]|] eqn:Hrun.
  - exists self', out. split; [reflexivity|].
    exact (VFFDProperties.init_call_thirds stretch exact_corrector self0 self'
             (triangles self0) tetra out Hrun).
  - exfalso.
    assert (Hsome : is_Some (call stretch exact_corrector
                               (__init__ self0 (triangles self0)) tetra))
      by compute_done.
    rewrite Hrun in Hsome. by destruct Hsome.
Defined.

(** *** The store *)

Lemma _transform_points_st_run_witness :
  _transform_points_st 0 to_reference heap0
  = Some (length heap0,
          heap0 ++ [Points (_transform_points mesh to_reference)]).
Proof.
  apply (StoreProperties._transform_points_st_run 0 to_reference mesh heap0).
  reflexivity.
Defined.

Lemma perform_st_result_witness :
  exists out h' res,
    perform_st affine_points_fit object0 heap0 = Some (out, h')
    /\ perform affine_points_fit box mesh = Some res
    /\ h' !! out = Some (Points res)
    /\ length res = length mesh
    /\ h' !! original_mesh_points_ref object0 = Some (Points mesh).
Proof.
  destruct (perform_st affine_points_fit object0 heap0) as [[out h']|] eqn:Hrun.
  - destruct (StoreProperties.perform_st_result affine_points_fit object0 box
                mesh heap0 h' out eq_refl eq_refl eq_refl eq_refl eq_refl
                eq_refl eq_refl eq_refl Hrun) as (res & Hres).
    exists out, h', res. split; [reflexivity | exact Hres].
  - exfalso.
    assert (Hsome : is_Some (perform_st affine_points_fit object0 heap0))
      by compute_done.
    rewrite Hrun in Hsome. by destruct Hsome.
Defined.

End MoreExamples.
